(** * difflib-ts: a shallow embedding of [src/index.ts]

    The development follows the source file top to bottom: helper
    functions, the [SequenceMatcher] class, [getCloseMatches], the
    [Differ] class, the junk tests, the range formatters, [contextDiff],
    [unifiedDiff], [ndiff] and [restore].  Theorems come after the
    definitions.

    Modelling conventions.
    - JavaScript numbers that hold indices and counts are integers [Z];
      the similarity ratios are exact rationals [Q] (the source computes
      them in double precision: for sequence lengths below 2^52 the
      comparisons made by the source agree with the exact ones).  The
      arithmetic and the decimal rendering of an integer are those of
      the source below 2^53; a theorem about the text of a number
      carries that bound.
    - A JavaScript string is a [string]; its elements ([s[i]]) are the
      one-character strings of its characters.  Iterating a string with
      [for ... of] is modelled as iterating those elements.  The source
      iterates by code point there, which differs from the elements on
      a string with a surrogate pair; the characters of the model have
      none, so a theorem whose statement depends on such an iteration
      ([quickRatio], the line loops of [unifiedDiff] and [contextDiff])
      is stated for arrays.
    - A sequence ([string | string[]]) is either a string or an array; an
      array carries the identity of the object, because [===] compares
      arrays by reference.
    - A plain JavaScript object used as a dictionary is a [gmap] of its
      own properties; the places where the prototype chain shows through
      ([__proto__] writes, unguarded reads) are written out.
    - A method that can throw returns a [result]; a method that updates
      the receiver returns the new receiver next to its value.  The
      state of a receiver after a throw is not modelled. *)

From Stdlib Require Import ZArith QArith String Ascii List Lia DecimalString.
From stdpp Require Import gmap strings list fin_maps sorting.

Close Scope Q_scope.
Open Scope string_scope.
Open Scope list_scope.
Open Scope Z_scope.

(** ** Values and errors *)

Inductive error :=
| TypeError            (* thrown by the runtime, e.g. a property read on [undefined] *)
| AssertionError       (* thrown by [assert] *)
| Error (msg : string) (* [throw new Error(msg)] *)
| OutOfFuel.           (* not a JavaScript error: a bounded loop of the model ran out of steps *)

Inductive result (A : Type) :=
| Ok (x : A)
| Throw (e : error).
Arguments Ok {A} x.
Arguments Throw {A} e.

#[global] Instance result_ret : MRet result := @Ok.
#[global] Instance result_bind : MBind result := λ A B f r,
  match r with Ok x => f x | Throw e => Throw e end.

Definition is_Ok {A} (r : result A) : Prop := ∃ x, r = Ok x.

(** Decimal rendering of an integer, as [`${n}`] does. *)
Definition string_of_Z (n : Z) : string := NilZero.string_of_int (Z.to_int n).

(** ** Sequences *)

Inductive seq :=
| Str (s : string)
| Arr (ref : positive) (items : list string).

Definition chars (s : string) : list string :=
  (λ c, String c EmptyString) <$> list_ascii_of_string s.

Definition elems (x : seq) : list string :=
  match x with Str s => chars s | Arr _ l => l end.

(** [x.length] *)
Definition len (x : seq) : Z := Z.of_nat (length (elems x)).

(** [x[i]]; [None] is [undefined]. *)
Definition at_ (x : seq) (i : Z) : option string :=
  if decide (0 ≤ i) then elems x !! Z.to_nat i else None.

(** [x === y] on sequences: by value for strings, by reference for arrays. *)
Definition strict_eq (x y : seq) : bool :=
  match x, y with
  | Str s, Str t => bool_decide (s = t)
  | Arr r _, Arr r' _ => bool_decide (r = r')
  | _, _ => false
  end.

(** Property-key coercion of a possibly undefined element. *)
Definition key_of (o : option string) : string := default "undefined" o.

(** [x.slice(lo, hi)] for [0 <= lo], [0 <= hi]. *)
Definition slice {A} (l : list A) (lo hi : Z) : list A :=
  take (Z.to_nat hi - Z.to_nat lo) (drop (Z.to_nat lo) l).

(** The compiled CoffeeScript loop header
    [for (i = lo, end = hi, asc = lo <= end; asc ? i < end : i > end; asc ? i++ : i--)]. *)
Definition for_range (lo hi : Z) : list Z :=
  if lo <=? hi then seqZ lo (hi - lo)
  else (λ k, lo - k) <$> seqZ 0 (lo - hi).

(** ** Helper functions *)

Definition _calculateRatio (matches length : Z) : Q :=
  if length =? 0 then 1%Q else (inject_Z (2 * matches) / inject_Z length)%Q.

Fixpoint _arrayCmp_loop (x y : list Z) : option Z :=
  match x, y with
  | u :: x', v :: y' =>
      if u <? v then Some (-1)
      else if v <? u then Some 1
      else _arrayCmp_loop x' y'
  | _, _ => None
  end.

Definition _arrayCmp (x y : list Z) : Z :=
  match _arrayCmp_loop x y with
  | Some r => r
  | None => Z.of_nat (length x) - Z.of_nat (length y)
  end.

(** Assignment [o[k] = v] on a plain object: the key [__proto__] reaches
    the accessor of [Object.prototype] and creates no own property. *)
Definition js_set {V} (o : gmap string V) (k : string) (v : V) : gmap string V :=
  if decide (k = "__proto__") then o else <[k := v]> o.

(** [_has(obj, key)] on an object that exists. *)
Definition _has {V} (o : gmap string V) (k : string) : bool :=
  bool_decide (is_Some (o !! k)).

Definition _any (items : list bool) : bool := existsb id items.

(** [Array.prototype.sort(cmp)]: for a comparator that orders the
    elements totally every sorting algorithm returns the same array;
    insertion is used here. *)
Fixpoint sort_insert {A} (cmp : A → A → Z) (x : A) (l : list A) : list A :=
  match l with
  | [] => [x]
  | y :: l' => if cmp x y <=? 0 then x :: l else y :: sort_insert cmp x l'
  end.

Definition js_sort {A} (cmp : A → A → Z) (l : list A) : list A :=
  foldr (sort_insert cmp) [] l.

(** ** The SequenceMatcher class *)

Definition triple : Type := Z * Z * Z.
Definition window : Type := Z * Z * Z * Z.

Inductive OpcodeName := replace_ | delete_ | insert_ | equal_.
#[global] Instance OpcodeName_eq_dec : EqDecision OpcodeName.
Proof. solve_decision. Defined.

Definition OpcodeOperation : Type := OpcodeName * Z * Z * Z * Z.

(** Values that [fullbcount] and [avail] can hold in [quickRatio]. *)
Inductive jsval :=
| VNum (n : Z)
| VObject  (* a function or object inherited from [Object.prototype] *)
| VString  (* a string that does not denote a number *)
| VNaN.

Record SequenceMatcher := mkSequenceMatcher {
  a : seq;
  b : seq;
  b2j : option (gmap string (list Z));
  fullbcount : option (gmap string jsval);
  matchingBlocks : option (list triple);
  opcodes : option (list OpcodeOperation);
  isjunk : option (string → bool);
  (* [isbjunk] and [isbpopular] are closures over a local object of
     [_chainB]; the field holds the keys of that object *)
  isbjunk : option (gset string);
  isbpopular : option (gset string);
  autojunk : bool
}.

Definition with_a (m : SequenceMatcher) (x : seq) :=
  mkSequenceMatcher x (b m) (b2j m) (fullbcount m) (matchingBlocks m) (opcodes m)
    (isjunk m) (isbjunk m) (isbpopular m) (autojunk m).
Definition with_b (m : SequenceMatcher) (x : seq) :=
  mkSequenceMatcher (a m) x (b2j m) (fullbcount m) (matchingBlocks m) (opcodes m)
    (isjunk m) (isbjunk m) (isbpopular m) (autojunk m).
Definition with_fullbcount (m : SequenceMatcher) (x : option (gmap string jsval)) :=
  mkSequenceMatcher (a m) (b m) (b2j m) x (matchingBlocks m) (opcodes m)
    (isjunk m) (isbjunk m) (isbpopular m) (autojunk m).
Definition with_matchingBlocks (m : SequenceMatcher) (x : option (list triple)) :=
  mkSequenceMatcher (a m) (b m) (b2j m) (fullbcount m) x (opcodes m)
    (isjunk m) (isbjunk m) (isbpopular m) (autojunk m).
Definition with_opcodes (m : SequenceMatcher) (x : option (list OpcodeOperation)) :=
  mkSequenceMatcher (a m) (b m) (b2j m) (fullbcount m) (matchingBlocks m) x
    (isjunk m) (isbjunk m) (isbpopular m) (autojunk m).
Definition with_chain (m : SequenceMatcher)
    (t : gmap string (list Z)) (junk popular : gset string) :=
  mkSequenceMatcher (a m) (b m) (Some t) (fullbcount m) (matchingBlocks m) (opcodes m)
    (isjunk m) (Some junk) (Some popular) (autojunk m).

(** *** _chainB *)

(** One iteration of the first loop:
    [indices = _has(b2j, elt) ? b2j[elt] : b2j[elt] = []; indices.push(i)]. *)
Definition chain_step (t : gmap string (list Z)) (i : Z) (elt : string)
    : gmap string (list Z) :=
  match t !! elt with
  | Some indices => <[elt := indices ++ [i]]> t
  | None => js_set t elt [i]
  end.

Fixpoint chain_index (t : gmap string (list Z)) (i : Z) (l : list string)
    : gmap string (list Z) :=
  match l with
  | [] => t
  | elt :: l' => chain_index (chain_step t i elt) (i + 1) l'
  end.

(** The two purge loops: every visited key that satisfies [P] moves from
    the index to the set. *)
Definition purge_step (P : string → list Z → bool)
    (st : gset string * gmap string (list Z)) (elt : string)
    : gset string * gmap string (list Z) :=
  match st.2 !! elt with
  | Some idxs => if P elt idxs then ({[elt]} ∪ st.1, delete elt st.2) else st
  | None => st
  end.

Definition purge (P : string → list Z → bool) (t : gmap string (list Z))
    : gset string * gmap string (list Z) :=
  foldl (purge_step P) (∅, t) (map_to_list t).*1.

Definition _chainB (m : SequenceMatcher) : SequenceMatcher :=
  let t0 := chain_index ∅ 0 (elems (b m)) in
  let '(junk, t1) :=
    match isjunk m with
    | Some f => purge (λ elt _, f elt) t0
    | None => (∅, t0)
    end in
  let n := len (b m) in
  let '(popular, t2) :=
    if autojunk m && (200 <=? n) then
      let ntest := n / 100 + 1 in
      purge (λ _ idxs, ntest <? Z.of_nat (length idxs)) t1
    else (∅, t1) in
  with_chain m t2 junk popular.

(** *** setSeq1, setSeq2, setSeqs, constructor *)

Definition setSeq1 (m : SequenceMatcher) (x : seq) : SequenceMatcher :=
  if strict_eq x (a m) then m
  else with_opcodes (with_matchingBlocks (with_a m x) None) None.

Definition setSeq2 (m : SequenceMatcher) (x : seq) : SequenceMatcher :=
  if strict_eq x (b m) then m
  else _chainB (with_fullbcount
         (with_opcodes (with_matchingBlocks (with_b m x) None) None) None).

Definition setSeqs (m : SequenceMatcher) (x y : seq) : SequenceMatcher :=
  setSeq2 (setSeq1 m x) y.

(** [new SequenceMatcher(isjunk, a, b, autojunk)]; [None] is an omitted
    (or null) argument.  The field initialisers ([a = ''], [b = ''],
    [autojunk = true]) run before the body of the constructor. *)
Definition new_SequenceMatcher (isjunk : option (string → bool))
    (x y : option seq) (autojunk : option bool) : SequenceMatcher :=
  let this :=
    mkSequenceMatcher (Str "") (Str "") None None None None isjunk None None
      (default true autojunk) in
  setSeqs this (default (Str "") x) (default (Str "") y).

(** *** findLongestMatch *)

(** [_has(b2j, x) ? b2j[x] : []]; [hasOwnProperty] throws when [b2j] is
    still [undefined]. *)
Definition b2j_get (t : option (gmap string (list Z))) (x : option string)
    : result (list Z) :=
  match t with
  | None => Throw TypeError
  | Some t => Ok (default [] (t !! key_of x))
  end.

(** [isbjunk(x)]; calling the field throws when it is still [undefined]. *)
Definition isbjunk_call (f : option (gset string)) (x : option string)
    : result bool :=
  match f with
  | None => Throw TypeError
  | Some junk => Ok (bool_decide (key_of x ∈ junk))
  end.

(** The inner loop over [jarray] for a fixed [i]; the state is
    [newj2len] and [(besti, bestj, bestsize)]. *)
Fixpoint scan_row (i blo bhi : Z) (j2len : gmap Z Z) (jarray : list Z)
    (st : gmap Z Z * triple) : gmap Z Z * triple :=
  match jarray with
  | [] => st
  | j :: rest =>
      if j <? blo then scan_row i blo bhi j2len rest st
      else if bhi <=? j then st
      else
        let k := default 0 (j2len !! (j - 1)) + 1 in
        let '(besti, bestj, bestsize) := st.2 in
        scan_row i blo bhi j2len rest
          (<[j := k]> st.1,
           if bestsize <? k then (i - k + 1, j - k + 1, k)
           else (besti, bestj, bestsize))
  end.

(** The outer loop; the state is [j2len] and [(besti, bestj, bestsize)]. *)
Fixpoint scan_rows (t : option (gmap string (list Z))) (A : seq) (blo bhi : Z)
    (rows : list Z) (st : gmap Z Z * triple) : result (gmap Z Z * triple) :=
  match rows with
  | [] => Ok st
  | i :: rows' =>
      jarray ← b2j_get t (at_ A i);
      scan_rows t A blo bhi rows' (scan_row i blo bhi st.1 jarray (∅, st.2))
  end.

(** The two loops that grow the match to the left; [wantjunk] selects the
    loop ([false]: the B-side element must not be junk; [true]: it must
    be).  [n] bounds the number of iterations by [besti - alo]. *)
Fixpoint extend_left (wantjunk : bool) (f : option (gset string)) (A B : seq)
    (alo blo : Z) (n : nat) (x : triple) : result triple :=
  match n with
  | O => Ok x
  | S n' =>
      let '(besti, bestj, bestsize) := x in
      if (alo <? besti) && (blo <? bestj) then
        jk ← isbjunk_call f (at_ B (bestj - 1));
        if eqb jk wantjunk && bool_decide (at_ A (besti - 1) = at_ B (bestj - 1))
        then extend_left wantjunk f A B alo blo n'
               (besti - 1, bestj - 1, bestsize + 1)
        else Ok x
      else Ok x
  end.

(** The two loops that grow the match to the right; [n] bounds the number
    of iterations by [ahi - (besti + bestsize)]. *)
Fixpoint extend_right (wantjunk : bool) (f : option (gset string)) (A B : seq)
    (ahi bhi : Z) (n : nat) (x : triple) : result triple :=
  match n with
  | O => Ok x
  | S n' =>
      let '(besti, bestj, bestsize) := x in
      if (besti + bestsize <? ahi) && (bestj + bestsize <? bhi) then
        jk ← isbjunk_call f (at_ B (bestj + bestsize));
        if eqb jk wantjunk
           && bool_decide (at_ A (besti + bestsize) = at_ B (bestj + bestsize))
        then extend_right wantjunk f A B ahi bhi n' (besti, bestj, bestsize + 1)
        else Ok x
      else Ok x
  end.

Definition extend_both (wantjunk : bool) (f : option (gset string)) (A B : seq)
    (alo ahi blo bhi : Z) (x : triple) : result triple :=
  y ← extend_left wantjunk f A B alo blo (Z.to_nat (x.1.1 - alo)) x;
  extend_right wantjunk f A B ahi bhi (Z.to_nat (ahi - (y.1.1 + y.2))) y.

Definition findLongestMatch (m : SequenceMatcher) (alo ahi blo bhi : Z)
    : result triple :=
  st ← scan_rows (b2j m) (a m) blo bhi (for_range alo ahi) (∅, (alo, blo, 0));
  x ← extend_both false (isbjunk m) (a m) (b m) alo ahi blo bhi st.2;
  extend_both true (isbjunk m) (a m) (b m) alo ahi blo bhi x.

(** *** getMatchingBlocks *)

Definition triple_cmp (x y : triple) : Z :=
  _arrayCmp [x.1.1; x.1.2; x.2] [y.1.1; y.1.2; y.2].

(** The work-queue loop.  The head of [queue] is the last element of the
    JavaScript array ([push] and [pop] work at that end).  Every iteration
    pops one window; [fuel] bounds the number of iterations. *)
Fixpoint matching_loop (m : SequenceMatcher) (fuel : nat) (queue : list window)
    (acc : list triple) : result (list triple) :=
  match queue with
  | [] => Ok acc
  | (alo, ahi, blo, bhi) :: queue' =>
      match fuel with
      | O => Throw OutOfFuel
      | S fuel' =>
          x ← findLongestMatch m alo ahi blo bhi;
          let '(i, j, k) := x in
          if k =? 0 then matching_loop m fuel' queue' acc
          else
            let q1 := if (alo <? i) && (blo <? j)
                      then (alo, i, blo, j) :: queue' else queue' in
            let q2 := if (i + k <? ahi) && (j + k <? bhi)
                      then (i + k, ahi, j + k, bhi) :: q1 else q1 in
            matching_loop m fuel' q2 (acc ++ [x])
      end
  end.

(** One iteration of the loop that merges adjacent blocks; the state is
    [(i1, j1, k1)] and [nonAdjacent]. *)
Definition collapse_step (st : triple * list triple) (x : triple)
    : triple * list triple :=
  let '((i1, j1, k1), nonAdjacent) := st in
  let '(i2, j2, k2) := x in
  if (i1 + k1 =? i2) && (j1 + k1 =? j2) then ((i1, j1, k1 + k2), nonAdjacent)
  else ((i2, j2, k2),
        if k1 =? 0 then nonAdjacent else nonAdjacent ++ [(i1, j1, k1)]).

Definition collapse (blocks : list triple) : list triple :=
  let '((i1, j1, k1), nonAdjacent) := foldl collapse_step ((0, 0, 0), []) blocks in
  if k1 =? 0 then nonAdjacent else nonAdjacent ++ [(i1, j1, k1)].

Definition getMatchingBlocks (m : SequenceMatcher)
    : result (list triple * SequenceMatcher) :=
  match matchingBlocks m with
  | Some blocks => Ok (blocks, m)
  | None =>
      let la := len (a m) in
      let lb := len (b m) in
      found ← matching_loop m (Z.to_nat (la + lb + 1)) [(0, la, 0, lb)] [];
      let nonAdjacent := collapse (js_sort triple_cmp found) ++ [(la, lb, 0)] in
      Ok (nonAdjacent, with_matchingBlocks m (Some nonAdjacent))
  end.

(** *** getOpcodes *)

(** One iteration of the loop; the state is [(i, j)] and [answer]. *)
Definition opcode_step (st : Z * Z * list OpcodeOperation) (x : triple)
    : Z * Z * list OpcodeOperation :=
  let '(i, j, answer) := st in
  let '(ai, bj, size) := x in
  let tag :=
    if (i <? ai) && (j <? bj) then Some replace_
    else if i <? ai then Some delete_
    else if j <? bj then Some insert_
    else None in
  let answer1 :=
    match tag with
    | Some t => answer ++ [(t, i, ai, j, bj)]
    | None => answer
    end in
  (ai + size, bj + size,
   if size =? 0 then answer1
   else answer1 ++ [(equal_, ai, ai + size, bj, bj + size)]).

Definition opcodes_of (blocks : list triple) : list OpcodeOperation :=
  (foldl opcode_step (0, 0, []) blocks).2.

Definition getOpcodes (m : SequenceMatcher)
    : result (list OpcodeOperation * SequenceMatcher) :=
  match opcodes m with
  | Some answer => Ok (answer, m)
  | None =>
      '(blocks, m1) ← getMatchingBlocks m;
      let answer := opcodes_of blocks in
      Ok (answer, with_opcodes m1 (Some answer))
  end.

(** *** getGroupedOpcodes *)

Definition is_equal (c : OpcodeOperation) : bool :=
  bool_decide (c.1.1.1.1 = equal_).

(** [codes[0] = [tag, max(i1, i2-n), i2, max(j1, j2-n), j2]] when the first
    opcode is [equal]. *)
Definition clip_first (n : Z) (codes : list OpcodeOperation) : list OpcodeOperation :=
  match codes with
  | (tag, i1, i2, j1, j2) :: rest =>
      if is_equal (tag, i1, i2, j1, j2)
      then (tag, Z.max i1 (i2 - n), i2, Z.max j1 (j2 - n), j2) :: rest
      else codes
  | [] => codes
  end.

(** The same for the last opcode and its trailing side. *)
Definition clip_last (n : Z) (codes : list OpcodeOperation) : list OpcodeOperation :=
  match last codes with
  | Some (tag, i1, i2, j1, j2) =>
      if is_equal (tag, i1, i2, j1, j2)
      then removelast codes ++ [(tag, i1, Z.min i2 (i1 + n), j1, Z.min j2 (j1 + n))]
      else codes
  | None => codes
  end.

(** One iteration of the grouping loop; the state is [groups] and [group]. *)
Definition group_step (n : Z)
    (st : list (list OpcodeOperation) * list OpcodeOperation)
    (c : OpcodeOperation)
    : list (list OpcodeOperation) * list OpcodeOperation :=
  let '(groups, group) := st in
  let '(tag, i1, i2, j1, j2) := c in
  if is_equal c && (n + n <? i2 - i1) then
    (groups ++ [group ++ [(tag, i1, Z.min i2 (i1 + n), j1, Z.min j2 (j1 + n))]],
     [(tag, Z.max i1 (i2 - n), i2, Z.max j1 (j2 - n), j2)])
  else (groups, group ++ [c]).

Definition group_codes (n : Z) (codes : list OpcodeOperation)
    : list (list OpcodeOperation) :=
  let '(groups, group) := foldl (group_step n) ([], []) codes in
  match group with
  | [] => groups
  | [c] => if is_equal c then groups else groups ++ [group]
  | _ => groups ++ [group]
  end.

(** [getGroupedOpcodes(n)]; [None] is an omitted argument.  When the
    opcode list is not empty, the two clipping assignments write into the
    cached array. *)
Definition getGroupedOpcodes (m : SequenceMatcher) (n : option Z)
    : result (list (list OpcodeOperation) * SequenceMatcher) :=
  let n := default 3 n in
  '(codes, m1) ← getOpcodes m;
  match codes with
  | [] => Ok (group_codes n (clip_last n (clip_first n [(equal_, 0, 1, 0, 1)])), m1)
  | _ =>
      let codes' := clip_last n (clip_first n codes) in
      Ok (group_codes n codes', with_opcodes m1 (Some codes'))
  end.

(** *** ratio, quickRatio, realQuickRatio *)

Definition ratio (m : SequenceMatcher) : result (Q * SequenceMatcher) :=
  '(blocks, m1) ← getMatchingBlocks m;
  let matches := foldl (λ acc (x : triple), acc + x.2) 0 blocks in
  Ok (_calculateRatio matches (len (a m) + len (b m)), m1).

(** The properties every plain object inherits from [Object.prototype]. *)
Definition object_prototype_keys : list string :=
  [ "constructor"; "hasOwnProperty"; "isPrototypeOf"; "propertyIsEnumerable";
    "toLocaleString"; "toString"; "valueOf"; "__proto__";
    "__defineGetter__"; "__defineSetter__"; "__lookupGetter__"; "__lookupSetter__" ].

(** The unguarded read [o[k]] on a plain object; [None] is [undefined]. *)
Definition js_get (o : gmap string jsval) (k : string) : option jsval :=
  match o !! k with
  | Some v => Some v
  | None => if bool_decide (k ∈ object_prototype_keys) then Some VObject else None
  end.

(** [v || 0] *)
Definition or_zero (v : option jsval) : jsval :=
  match v with
  | None | Some VNaN => VNum 0
  | Some v => v
  end.

(** [v + 1]: a number is incremented, anything else is converted to a
    string and the digit is appended. *)
Definition js_add1 (v : jsval) : jsval :=
  match v with
  | VNum n => VNum (n + 1)
  | VNaN => VNaN
  | VObject | VString => VString
  end.

(** [v - 1] *)
Definition js_sub1 (v : jsval) : jsval :=
  match v with
  | VNum n => VNum (n - 1)
  | _ => VNaN
  end.

(** [v > 0] *)
Definition js_gt0 (v : jsval) : bool :=
  match v with
  | VNum n => 0 <? n
  | _ => false
  end.

Definition count_elements (l : list string) : gmap string jsval :=
  foldl (λ fullbcount elt,
           js_set fullbcount elt (js_add1 (or_zero (js_get fullbcount elt))))
        ∅ l.

Definition avail_step (fullbcount : gmap string jsval)
    (st : gmap string jsval * Z) (elt : string) : gmap string jsval * Z :=
  let '(avail, matches) := st in
  let numb :=
    match avail !! elt with
    | Some v => v
    | None => or_zero (js_get fullbcount elt)
    end in
  (js_set avail elt (js_sub1 numb), if js_gt0 numb then matches + 1 else matches).

Definition quickRatio (m : SequenceMatcher) : Q * SequenceMatcher :=
  let fullbcount' :=
    match fullbcount m with
    | Some f => f
    | None => count_elements (elems (b m))
    end in
  let matches := (foldl (avail_step fullbcount') (∅, 0) (elems (a m))).2 in
  (_calculateRatio matches (len (a m) + len (b m)),
   with_fullbcount m (Some fullbcount')).

Definition realQuickRatio (m : SequenceMatcher) : Q :=
  let la := len (a m) in
  let lb := len (b m) in
  _calculateRatio (Z.min la lb) (la + lb).

(** ** getCloseMatches *)

Definition Qlt_bool (x y : Q) : bool := negb (Qle_bool y x).

Fixpoint foldlM {A B} (f : A → B → result A) (st : A) (l : list B) : result A :=
  match l with
  | [] => Ok st
  | x :: l' => st' ← f st x; foldlM f st' l'
  end.

(** [_arrayCmp] on the [[score, x]] pairs of [getCloseMatches]. *)
Definition score_cmp (x y : Q * string) : Z :=
  if Qlt_bool x.1 y.1 then -1
  else if Qlt_bool y.1 x.1 then 1
  else if String.ltb x.2 y.2 then -1
  else if String.ltb y.2 x.2 then 1
  else 0.

(** Modelled from the spec: [Heap.nlargest] of the external package
    [heap], which is not part of the sources.  It returns the [n] largest
    elements for the comparator, largest first. *)
Definition nlargest {A} (array : list A) (n : Z) (cmp : A → A → Z) : list A :=
  take (Z.to_nat n) (reverse (js_sort cmp array)).

(** One iteration of the loop over [possibilities]. *)
Definition close_step (cutoff : Q) (st : SequenceMatcher * list (Q * string))
    (x : string) : result (SequenceMatcher * list (Q * string)) :=
  let '(s, result) := st in
  let s := setSeq1 s (Str x) in
  if Qle_bool cutoff (realQuickRatio s) then
    let '(q, s) := quickRatio s in
    if Qle_bool cutoff q then
      '(r, s) ← ratio s;
      if Qle_bool cutoff r then
        '(r', s) ← ratio s;
        Ok (s, result ++ [(r', x)])
      else Ok (s, result)
    else Ok (s, result)
  else Ok (s, result).

(** [getCloseMatches(word, possibilities, n, cutoff)]; [None] is an
    omitted argument.  The message of the second error ends with the
    rendering of a floating-point number, which is left out. *)
Definition getCloseMatches (word : string) (possibilities : list string)
    (n : option Z) (cutoff : option Q) : result (list string) :=
  let n := default 3 n in
  let cutoff := default (6 # 10)%Q cutoff in
  if negb (0 <? n) then
    Throw (Error ("n must be > 0: (" +:+ string_of_Z n +:+ ")"))
  else if negb (Qle_bool 0 cutoff && Qle_bool cutoff 1) then
    Throw (Error "cutoff must be in [0.0, 1.0]: (")
  else
    let s := setSeq2 (new_SequenceMatcher None None None None) (Str word) in
    '(_, result) ← foldlM (close_step cutoff) (s, []) possibilities;
    Ok ((nlargest result n score_cmp).*2).

(** ** String helpers *)

Definition tab : string := String (ascii_of_nat 9) EmptyString.
Definition newline : string := String (ascii_of_nat 10) EmptyString.

(** [s.slice(0, n)] and [s.slice(n)] for [0 <= n]. *)
Fixpoint str_take (n : nat) (s : string) : string :=
  match n, s with
  | S n', String c s' => String c (str_take n' s')
  | _, _ => EmptyString
  end.

Fixpoint str_drop (n : nat) (s : string) : string :=
  match n, s with
  | S n', String _ s' => str_drop n' s'
  | _, _ => s
  end.

(** [Array(n + 1).join(ch)] *)
Fixpoint str_repeat (ch : string) (n : nat) : string :=
  match n with
  | O => EmptyString
  | S n' => ch +:+ str_repeat ch n'
  end.

(** The code units below 256 that the class [\s] matches. *)
Definition is_space (c : ascii) : bool :=
  let n := nat_of_ascii c in
  ((9 <=? n) && (n <=? 13) || (n =? 32) || (n =? 160))%nat.

(** [s.replace(/\s+$/, '')] *)
Fixpoint rstrip (s : string) : string :=
  match s with
  | EmptyString => EmptyString
  | String c s' =>
      match rstrip s' with
      | EmptyString => if is_space c then EmptyString else String c EmptyString
      | r => String c r
      end
  end.

Fixpoint count_leading (ch : string) (l : list string) : Z :=
  match l with
  | x :: l' => if bool_decide (x = ch) then 1 + count_leading ch l' else 0
  | [] => 0
  end.

Definition _countLeading (line ch : string) : Z := count_leading ch (chars line).

(** ** The Differ class *)

Record Differ := mkDiffer {
  linejunk : option (string → bool);
  charjunk : option (string → bool)
}.

(** [__range__(left, right, inclusive)] *)
Definition __range__ (left right : Z) (inclusive : bool) : list Z :=
  let ascending := left <? right in
  let end_ :=
    if negb inclusive then right
    else if ascending then right + 1 else right - 1 in
  if ascending then seqZ left (end_ - left)
  else (λ k, left - k) <$> seqZ 0 (left - end_).

Definition _dump (tag : string) (x : seq) (lo hi : Z) : list string :=
  (λ i, tag +:+ " " +:+ key_of (at_ x i)) <$> __range__ lo hi false.

Definition _plainReplace (A : seq) (alo ahi : Z) (B : seq) (blo bhi : Z)
    : result (list string) :=
  if negb ((alo <? ahi) && (blo <? bhi)) then Throw AssertionError
  else if bhi - blo <? ahi - alo
  then Ok (_dump "+" B blo bhi ++ _dump "-" A alo ahi)
  else Ok (_dump "-" A alo ahi ++ _dump "+" B blo bhi).

Definition _qformat (aline bline atags btags : string) : list string :=
  let common := Z.min (_countLeading aline tab) (_countLeading bline tab) in
  let common :=
    Z.min common (_countLeading (str_take (Z.to_nat common) atags) " ") in
  let common :=
    Z.min common (_countLeading (str_take (Z.to_nat common) btags) " ") in
  let atags := rstrip (str_drop (Z.to_nat common) atags) in
  let btags := rstrip (str_drop (Z.to_nat common) btags) in
  ["- " +:+ aline]
  ++ (if bool_decide (atags = "") then []
      else ["? " +:+ str_repeat tab (Z.to_nat common) +:+ atags +:+ newline])
  ++ ["+ " +:+ bline]
  ++ (if bool_decide (btags = "") then []
      else ["? " +:+ str_repeat tab (Z.to_nat common) +:+ btags +:+ newline]).

(** The state of the search loops of [_fancyReplace]: the character
    matcher, [bestRatio], [(besti, bestj)] once assigned, and
    [(eqi, eqj)] once assigned. *)
Record search := mkSearch {
  cruncher : SequenceMatcher;
  bestRatio : Q;
  best : option (Z * Z);
  eqij : option (Z * Z)
}.

(** The body of the inner loop, for [bj = b[j]] and one [i].  An index
    outside [a] yields [undefined], on which the ratio methods throw. *)
Definition search_step (A : seq) (j : Z) (bj : string) (st : search) (i : Z)
    : result search :=
  match at_ A i with
  | None => Throw TypeError
  | Some ai =>
      if bool_decide (ai = bj) then
        Ok (mkSearch (cruncher st) (bestRatio st) (best st)
              (match eqij st with None => Some (i, j) | Some e => Some e end))
      else
        let c := setSeq1 (cruncher st) (Str ai) in
        if Qlt_bool (bestRatio st) (realQuickRatio c) then
          let '(q, c) := quickRatio c in
          if Qlt_bool (bestRatio st) q then
            '(r, c) ← ratio c;
            if Qlt_bool (bestRatio st) r then
              '(r', c) ← ratio c;
              Ok (mkSearch c r' (Some (i, j)) (eqij st))
            else Ok (mkSearch c (bestRatio st) (best st) (eqij st))
          else Ok (mkSearch c (bestRatio st) (best st) (eqij st))
        else Ok (mkSearch c (bestRatio st) (best st) (eqij st))
  end.

(** The body of the outer loop.  An index outside [b] yields [undefined],
    on which [_chainB] throws. *)
Definition search_row (A B : seq) (alo ahi : Z) (st : search) (j : Z)
    : result search :=
  match at_ B j with
  | None => Throw TypeError
  | Some bj =>
      let c := setSeq2 (cruncher st) (Str bj) in
      foldlM (search_step A j bj)
        (mkSearch c (bestRatio st) (best st) (eqij st)) (for_range alo ahi)
  end.

(** The loop over the character opcodes of the synch pair; the state is
    [(atags, btags)]. *)
Definition tags_step (st : string * string) (c : OpcodeOperation)
    : string * string :=
  let '(atags, btags) := st in
  let '(tag, ai1, ai2, bj1, bj2) := c in
  let la := Z.to_nat (ai2 - ai1) in
  let lb := Z.to_nat (bj2 - bj1) in
  match tag with
  | replace_ => (atags +:+ str_repeat "^" la, btags +:+ str_repeat "^" lb)
  | delete_ => (atags +:+ str_repeat "-" la, btags)
  | insert_ => (atags, btags +:+ str_repeat "+" lb)
  | equal_ => (atags +:+ str_repeat " " la, btags +:+ str_repeat " " lb)
  end.

Definition _fancyHelper_with
    (rec : seq → Z → Z → seq → Z → Z → result (list string))
    (A : seq) (alo ahi : Z) (B : seq) (blo bhi : Z) : result (list string) :=
  if alo <? ahi then
    if blo <? bhi then rec A alo ahi B blo bhi
    else Ok (_dump "-" A alo ahi)
  else if blo <? bhi then Ok (_dump "+" B blo bhi)
  else Ok [].

(** [_fancyReplace] calls itself through [_fancyHelper]; [fuel] bounds the
    depth of these calls.  When [bestRatio] has reached the cutoff,
    [besti] and [bestj] have been assigned with it. *)
Fixpoint _fancyReplace (fuel : nat) (d : Differ)
    (A : seq) (alo ahi : Z) (B : seq) (blo bhi : Z) : result (list string) :=
  match fuel with
  | O => Throw OutOfFuel
  | S fuel' =>
      let cutoff := (75 # 100)%Q in
      st ← foldlM (search_row A B alo ahi)
             (mkSearch (new_SequenceMatcher (charjunk d) None None None)
                (74 # 100)%Q None None)
             (for_range blo bhi);
      let synch :=
        if Qlt_bool (bestRatio st) cutoff then
          match eqij st with
          | None => None
          | Some e => Some (e, true)
          end
        else
          match best st with
          | None => None
          | Some p => Some (p, false)
          end in
      match synch with
      | None =>
          if Qlt_bool (bestRatio st) cutoff
          then _plainReplace A alo ahi B blo bhi
          else Throw TypeError
      | Some ((besti, bestj), identical) =>
          before ← _fancyHelper_with (_fancyReplace fuel' d) A alo besti B blo bestj;
          let aelt := key_of (at_ A besti) in
          let belt := key_of (at_ B bestj) in
          middle ←
            (if identical then Ok ["  " +:+ aelt]
             else
               '(codes, _) ← getOpcodes (setSeqs (cruncher st) (Str aelt) (Str belt));
               let '(atags, btags) := foldl tags_step ("", "") codes in
               Ok (_qformat aelt belt atags btags));
          after ← _fancyHelper_with (_fancyReplace fuel' d)
                    A (besti + 1) ahi B (bestj + 1) bhi;
          Ok (before ++ middle ++ after)
      end
  end.

Definition _fancyHelper (fuel : nat) (d : Differ) :=
  _fancyHelper_with (_fancyReplace fuel d).

(** One iteration of the loop of [compare].  The nesting of
    [_fancyReplace] inside a [replace] opcode is bounded by the number of
    lines of the opcode. *)
Definition compare_step (d : Differ) (A B : seq) (lines : list string)
    (c : OpcodeOperation) : result (list string) :=
  let '(tag, alo, ahi, blo, bhi) := c in
  g ← match tag with
      | replace_ =>
          _fancyReplace (Z.to_nat (ahi - alo + (bhi - blo))) d A alo ahi B blo bhi
      | delete_ => Ok (_dump "-" A alo ahi)
      | insert_ => Ok (_dump "+" B blo bhi)
      | equal_ => Ok (_dump " " A alo ahi)
      end;
  Ok (lines ++ g).

Definition compare (d : Differ) (A B : seq) : result (list string) :=
  '(codes, _) ← getOpcodes (new_SequenceMatcher (linejunk d) (Some A) (Some B) None);
  foldlM (compare_step d A B) [] codes.

(** ** IS_LINE_JUNK *)

(** The rest of the characters after the longest prefix that [\s*]
    matches. *)
Fixpoint skip_spaces (l : list ascii) : list ascii :=
  match l with
  | c :: l' => if is_space c then skip_spaces l' else l
  | [] => []
  end.

(** [IS_LINE_JUNK(line)] with the default pattern [/^\s*#?\s*$/]: white
    space, then at most one [#], then white space to the end of the
    line. *)
Definition IS_LINE_JUNK (line : string) : bool :=
  let rest := skip_spaces (list_ascii_of_string line) in
  let rest :=
    match rest with
    | c :: rest' => if bool_decide (c = "#"%char) then rest' else rest
    | [] => rest
    end in
  forallb is_space rest.

(** [IS_CHARACTER_JUNK(ch)] with the default [ws = ' \t']:
    [ws.includes(ch)] holds for the substrings of [ws]. *)
Definition IS_CHARACTER_JUNK (ch : string) : bool :=
  bool_decide (ch ∈ [""; " "; tab; " " +:+ tab]).

(** ** Range formatters *)

Definition _formatRangeUnified (start stop : Z) : string :=
  let beginning := start + 1 in
  let length := stop - start in
  if length =? 1 then string_of_Z beginning
  else
    let beginning := if length =? 0 then beginning - 1 else beginning in
    string_of_Z beginning +:+ "," +:+ string_of_Z length.

Definition _formatRangeContext (start stop : Z) : string :=
  let beginning := start + 1 in
  let length := stop - start in
  let beginning := if length =? 0 then beginning - 1 else beginning in
  if length <=? 1 then string_of_Z beginning
  else string_of_Z beginning +:+ "," +:+ string_of_Z (beginning + length - 1).

(** ** contextDiff *)

(** The optional fields of the [param] argument; [None] is an omitted field. *)
Record DiffParam := mkDiffParam {
  fromfile : option string;
  tofile : option string;
  fromfiledate : option string;
  tofiledate : option string;
  n : option Z;
  lineterm : option string
}.

Definition prefix (tag : OpcodeName) : string :=
  match tag with
  | insert_ => "+ "
  | delete_ => "- "
  | replace_ => "! "
  | equal_ => "  "
  end.

Definition tag_of (c : OpcodeOperation) : OpcodeName := c.1.1.1.1.

(** The lines pushed for one side of a group: [side] selects the range of
    an opcode, [skip] is the tag that is left out.  (The source walks the
    slice with [for ... of]: the elements of an array, the code points of
    a string.) *)
Definition side_lines (X : seq) (side : OpcodeOperation → Z * Z) (skip : OpcodeName)
    (group : list OpcodeOperation) : list string :=
  concat ((λ c : OpcodeOperation,
             if bool_decide (tag_of c = skip) then []
             else (λ line, prefix (tag_of c) +:+ line)
                    <$> slice (elems X) (side c).1 (side c).2) <$> group).

(** The body of the loop over the groups; the state is [started] and
    [lines].  All of the statements are inside the test [if (!started)]. *)
Definition context_step (A B : seq)
    (fromfile tofile fromfiledate tofiledate lineterm : string)
    (st : bool * list string) (group : list OpcodeOperation)
    : result (bool * list string) :=
  let '(started, lines) := st in
  if started then Ok st
  else
    match group, last group with
    | first :: _, Some last_ =>
        let fromdate :=
          if bool_decide (fromfiledate = "") then "" else tab +:+ fromfiledate in
        let todate :=
          if bool_decide (tofiledate = "") then "" else tab +:+ tofiledate in
        let file1Range := _formatRangeContext first.1.1.1.2 last_.1.1.2 in
        let file2Range := _formatRangeContext first.1.2 last_.2 in
        Ok (true,
            lines
            ++ ["*** " +:+ fromfile +:+ fromdate +:+ lineterm;
                "--- " +:+ tofile +:+ todate +:+ lineterm;
                "***************" +:+ lineterm;
                "*** " +:+ file1Range +:+ " ****" +:+ lineterm]
            ++ (if _any ((λ c, bool_decide (tag_of c ∈ [replace_; delete_])) <$> group)
                then side_lines A (λ c, (c.1.1.1.2, c.1.1.2)) insert_ group
                else [])
            ++ ["--- " +:+ file2Range +:+ " ----" +:+ lineterm]
            ++ (if _any ((λ c, bool_decide (tag_of c ∈ [replace_; insert_])) <$> group)
                then side_lines B (λ c, (c.1.2, c.2)) delete_ group
                else []))
    | _, _ => Throw TypeError
    end.

(** [contextDiff(a, b, param)]; the field [n] of [param] is read but not
    passed to [getGroupedOpcodes]. *)
Definition contextDiff (A B : seq) (param : option DiffParam) : result (list string) :=
  let param := default (mkDiffParam None None None None None None) param in
  let fromfile := default "" (fromfile param) in
  let tofile := default "" (tofile param) in
  let fromfiledate := default "" (fromfiledate param) in
  let tofiledate := default "" (tofiledate param) in
  let lineterm := default newline (lineterm param) in
  '(groups, _) ← getGroupedOpcodes (new_SequenceMatcher None (Some A) (Some B) None) None;
  '(_, lines) ←
    foldlM (context_step A B fromfile tofile fromfiledate tofiledate lineterm)
      (false, []) groups;
  Ok lines.

(** ** unifiedDiff *)

(** The lines pushed for one opcode of a group.  (The source walks the
    slices with [for ... of]: the elements of an array, the code points
    of a string.) *)
Definition unified_lines (A B : seq) (c : OpcodeOperation) : list string :=
  let '(tag, i1, i2, j1, j2) := c in
  if bool_decide (tag = equal_) then
    (λ line, " " +:+ line) <$> slice (elems A) i1 i2
  else
    (if bool_decide (tag ∈ [replace_; delete_])
     then (λ line, "-" +:+ line) <$> slice (elems A) i1 i2
     else [])
    ++ (if bool_decide (tag ∈ [replace_; insert_])
        then (λ line, "+" +:+ line) <$> slice (elems B) j1 j2
        else []).

(** The body of the loop over the groups; the state is [started] and
    [lines].  Only the two header lines are inside the test
    [if (!started)]. *)
Definition unified_step (A B : seq)
    (fromfile tofile fromfiledate tofiledate lineterm : string)
    (st : bool * list string) (group : list OpcodeOperation)
    : result (bool * list string) :=
  let '(started, lines) := st in
  let lines :=
    if started then lines
    else
      let fromdate :=
        if bool_decide (fromfiledate = "") then "" else tab +:+ fromfiledate in
      let todate :=
        if bool_decide (tofiledate = "") then "" else tab +:+ tofiledate in
      lines ++ ["--- " +:+ fromfile +:+ fromdate +:+ lineterm;
                "+++ " +:+ tofile +:+ todate +:+ lineterm] in
  match group, last group with
  | first :: _, Some last_ =>
      let file1Range := _formatRangeUnified first.1.1.1.2 last_.1.1.2 in
      let file2Range := _formatRangeUnified first.1.2 last_.2 in
      Ok (true,
          lines
          ++ ["@@ -" +:+ file1Range +:+ " +" +:+ file2Range +:+ " @@" +:+ lineterm]
          ++ concat (unified_lines A B <$> group))
  | _, _ => Throw TypeError
  end.

(** [unifiedDiff(a, b, param)]; the field [n] of [param] is read but not
    passed to [getGroupedOpcodes]. *)
Definition unifiedDiff (A B : seq) (param : option DiffParam) : result (list string) :=
  let param := default (mkDiffParam None None None None None None) param in
  let fromfile := default "" (fromfile param) in
  let tofile := default "" (tofile param) in
  let fromfiledate := default "" (fromfiledate param) in
  let tofiledate := default "" (tofiledate param) in
  let lineterm := default newline (lineterm param) in
  '(groups, _) ← getGroupedOpcodes (new_SequenceMatcher None (Some A) (Some B) None) None;
  '(_, lines) ←
    foldlM (unified_step A B fromfile tofile fromfiledate tofiledate lineterm)
      (false, []) groups;
  Ok lines.

(** ** ndiff and restore *)

(** [ndiff(a, b, linejunk, charjunk)]; [None] is an omitted argument, and
    an omitted [charjunk] is [IS_CHARACTER_JUNK]. *)
Definition ndiff (A B : seq) (linejunk charjunk : option (string → bool))
    : result (list string) :=
  let charjunk :=
    match charjunk with
    | None => Some IS_CHARACTER_JUNK
    | Some f => Some f
    end in
  compare (mkDiffer linejunk charjunk) A B.

Definition restore (delta : list string) (which : Z) : result (list string) :=
  let tag :=
    if which =? 1 then Some "- "
    else if which =? 2 then Some "+ "
    else None in
  match tag with
  | None =>
      Throw (Error ("unknown delta choice (must be 1 or 2): " +:+ string_of_Z which))
  | Some tag =>
      Ok (omap (λ line,
                  let needle := str_take 2 line in
                  if bool_decide (needle ∈ ["  "; tag])
                  then Some (str_drop 2 line) else None)
               delta)
  end.

(** * Properties

    The predicates and functions in which the theorems are stated. *)

(** ** The index of the second sequence *)

(** The positions of [x] in [l], counted from [i], in ascending order. *)
Fixpoint positions_from (i : Z) (x : string) (l : list string) : list Z :=
  match l with
  | [] => []
  | y :: l' => (if decide (x = y) then [i] else []) ++ positions_from (i + 1) x l'
  end.

(** A matcher is indexed when the fields derived from the second sequence
    are the ones [_chainB] computes for it; [setSeq2] establishes this
    whenever it does not return early. *)
Definition indexed (m : SequenceMatcher) : Prop :=
  b2j m = b2j (_chainB m) ∧ isbjunk m = isbjunk (_chainB m)
  ∧ isbpopular m = isbpopular (_chainB m).

(** What the methods use of an indexed matcher: every list of the index
    holds all the positions of its key in the second sequence, in
    ascending order, and the keys are the elements of that sequence other
    than [__proto__] that are neither junk nor popular. *)
Record index_for (B : seq) (t : gmap string (list Z)) (junk popular : gset string)
    : Prop := {
  index_positions : ∀ x l, t !! x = Some l → l = positions_from 0 x (elems B);
  index_keys : ∀ x, x ∈ dom t ↔
    (x ∈ elems B ∧ x ≠ "__proto__" ∧ (x ∉ junk) ∧ (x ∉ popular))
}.

(** ** The search of [findLongestMatch] *)

(** [a[i]] and [b[j]] are the same element, and it is a good one (the
    search takes the keys of the index as the good elements). *)
Definition hit (A B : seq) (good : string → Prop) (i j : Z) : Prop :=
  ∃ x, at_ A i = Some x ∧ at_ B j = Some x ∧ good x.

(** [(i, j, k)] is a candidate: it lies in the window and consists of
    hits. *)
Definition cand (A B : seq) (good : string → Prop) (alo ahi blo bhi : Z)
    (i j k : Z) : Prop :=
  alo ≤ i ∧ blo ≤ j ∧ 0 ≤ k ∧ i + k ≤ ahi ∧ j + k ≤ bhi
  ∧ ∀ s, 0 ≤ s < k → hit A B good (i + s) (j + s).

(** The longest candidate that ends at [(i, j)] has length [k]. *)
Definition maxrun (A B : seq) (good : string → Prop) (alo ahi blo bhi : Z)
    (i j k : Z) : Prop :=
  cand A B good alo ahi blo bhi (i - k + 1) (j - k + 1) k
  ∧ ¬ cand A B good alo ahi blo bhi (i - k) (j - k) (k + 1).

Definition lex_le (i j i' j' : Z) : Prop := i < i' ∨ (i = i' ∧ j ≤ j').
Definition lex_lt (i j i' j' : Z) : Prop := i < i' ∨ (i = i' ∧ j < j').

(** [x] is the candidate the specification selects: of maximal length,
    then leftmost in [a], then leftmost in [b]. *)
Definition selected (A B : seq) (good : string → Prop) (alo ahi blo bhi : Z)
    (x : triple) : Prop :=
  let '(i, j, k) := x in
  cand A B good alo ahi blo bhi i j k
  ∧ ∀ i' j' k', cand A B good alo ahi blo bhi i' j' k' →
      k' ≤ k ∧ (k' = k → lex_le i j i' j').

(** What [j2len] holds after the row [r]. *)
Definition dp_row (A B : seq) (good : string → Prop) (alo ahi blo bhi : Z)
    (r : Z) (j2len : gmap Z Z) : Prop :=
  ∀ j, match j2len !! j with
       | Some k => 1 ≤ k ∧ maxrun A B good alo ahi blo bhi r j k
       | None => ¬ cand A B good alo ahi blo bhi r j 1
       end.

(** What [(besti, bestj, bestsize)] holds once the cells [done] have
    been visited. *)
Definition best_inv (A B : seq) (good : string → Prop) (alo ahi blo bhi : Z)
    (done : Z → Z → Prop) (x : triple) : Prop :=
  let '(bi, bj, bs) := x in
  (x = (alo, blo, 0)
   ∨ (1 ≤ bs ∧ cand A B good alo ahi blo bhi bi bj bs
      ∧ done (bi + bs - 1) (bj + bs - 1)))
  ∧ ∀ i j k, 1 ≤ k → cand A B good alo ahi blo bhi i j k →
      done (i + k - 1) (j + k - 1) →
      k ≤ bs ∧ (k = bs → lex_le bi bj i j).

(** The update made at a hit [(i, j)] whose longest run has length [k]. *)
Definition better (i j k : Z) (x : triple) : triple :=
  if x.2 <? k then (i - k + 1, j - k + 1, k) else x.

(** The inner loop without its tests, on the positions inside the window. *)
Definition cell_step (i : Z) (j2len : gmap Z Z) (st : gmap Z Z * triple) (j : Z)
    : gmap Z Z * triple :=
  let k := default 0 (j2len !! (j - 1)) + 1 in
  (<[j := k]> st.1, better i j k st.2).

(** ** The extension of the match in [findLongestMatch] *)

(** The match [x] grown to the left, one element at a time, while the
    elements next to it are equal and the one of [b] satisfies [P]; [n]
    bounds the number of steps. *)
Fixpoint grow_left (P : string → bool) (A B : seq) (alo blo : Z) (n : nat)
    (x : triple) : triple :=
  match n with
  | O => x
  | S n' =>
      let '(i, j, k) := x in
      if (alo <? i) && (blo <? j) && P (key_of (at_ B (j - 1)))
         && bool_decide (at_ A (i - 1) = at_ B (j - 1))
      then grow_left P A B alo blo n' (i - 1, j - 1, k + 1)
      else x
  end.

Fixpoint grow_right (P : string → bool) (A B : seq) (ahi bhi : Z) (n : nat)
    (x : triple) : triple :=
  match n with
  | O => x
  | S n' =>
      let '(i, j, k) := x in
      if (i + k <? ahi) && (j + k <? bhi) && P (key_of (at_ B (j + k)))
         && bool_decide (at_ A (i + k) = at_ B (j + k))
      then grow_right P A B ahi bhi n' (i, j, k + 1)
      else x
  end.

(** Both ends, as far as the window allows. *)
Definition grow (P : string → bool) (A B : seq) (alo ahi blo bhi : Z)
    (x : triple) : triple :=
  let y := grow_left P A B alo blo (Z.to_nat (x.1.1 - alo)) x in
  grow_right P A B ahi bhi (Z.to_nat (ahi - (y.1.1 + y.2))) y.

(** [(i, j, k)] lies in the window and [a[i..i+k] == b[j..j+k]]. *)
Definition block (A B : seq) (alo ahi blo bhi : Z) (x : triple) : Prop :=
  let '(i, j, k) := x in
  alo ≤ i ∧ blo ≤ j ∧ 0 ≤ k ∧ i + k ≤ ahi ∧ j + k ≤ bhi
  ∧ ∀ s, 0 ≤ s < k → at_ A (i + s) = at_ B (j + s).

(** *** findLongestMatch on an indexed matcher *)

(** The elements the search can match: the keys of the index. *)
Definition indexed_key (m : SequenceMatcher) (x : string) : Prop :=
  ∃ t, b2j m = Some t ∧ x ∈ dom t.

(** The junk test of the extension loops. *)
Definition is_bjunk (m : SequenceMatcher) (x : string) : bool :=
  match isbjunk m with
  | Some junk => bool_decide (x ∈ junk)
  | None => false
  end.

Definition valid_window (m : SequenceMatcher) (w : window) : Prop :=
  let '(alo, ahi, blo, bhi) := w in
  0 ≤ alo ∧ alo ≤ ahi ∧ ahi ≤ len (a m) ∧ 0 ≤ blo ∧ blo ≤ bhi ∧ bhi ≤ len (b m).

(** ** The work queue of [getMatchingBlocks] *)

Definition rect_of (x : triple) : window := (x.1.1, x.1.1 + x.2, x.1.2, x.1.2 + x.2).

(** [u] lies before [v] in both sequences. *)
Definition before (u v : window) : Prop :=
  u.1.1.2 ≤ v.1.1.1 ∧ u.2 ≤ v.1.2.

Definition apart (u v : window) : Prop := before u v ∨ before v u.

Fixpoint all_apart (l : list window) : Prop :=
  match l with
  | [] => True
  | u :: l' => Forall (apart u) l' ∧ all_apart l'
  end.

Definition inside (u w : window) : Prop :=
  w.1.1.1 ≤ u.1.1.1 ∧ u.1.1.2 ≤ w.1.1.2 ∧ w.1.2 ≤ u.1.2 ∧ u.2 ≤ w.2.

(** The blocks the loop records: not empty, inside both sequences, and
    equal element by element. *)
Definition whole_block (A B : seq) (x : triple) : Prop :=
  block A B 0 (len A) 0 (len B) x.

Definition found_block (A B : seq) (x : triple) : Prop :=
  1 ≤ x.2 ∧ whole_block A B x.

Definition queue_measure (queue : list window) : Z :=
  foldr (λ (w : window) acc, (w.1.1.2 - w.1.1.1) + (w.2 - w.1.2) + 1 + acc) 0 queue.

Definition fst_le (x y : triple) : Prop := x.1.1 ≤ y.1.1.

(** [x] ends before [y] starts, in both sequences. *)
Definition follows (x y : triple) : Prop := before (rect_of x) (rect_of y).

Definition touching (x y : triple) : Prop :=
  x.1.1 + x.2 = y.1.1 ∧ x.1.2 + x.2 = y.1.2.

Definition adjacent {T} (l : list T) (x y : T) : Prop :=
  ∃ l1 l2, l = l1 ++ x :: y :: l2.

(** The blocks before the sentinel: not empty, equal element by element,
    each one ending before the next one starts, and no two neighbours
    touching. *)
Definition tidy (A B : seq) (body : list triple) : Prop :=
  Forall (found_block A B) body
  ∧ StronglySorted follows body
  ∧ ∀ x y, adjacent body x y → ¬ touching x y.

(** The blocks that the merging loop has settled: [nonAdjacent] and, when
    it is not the initial dummy, the block under comparison. *)
Definition settled (st : triple * list triple) : list triple :=
  if st.1.2 =? 0 then st.2 else st.2 ++ [st.1].

(** The list of the specification: what it says of the result of
    [getMatchingBlocks]. *)
Definition canonical (A B : seq) (blocks : list triple) : Prop :=
  ∃ body,
    blocks = body ++ [(len A, len B, 0)]
    ∧ Forall (whole_block A B) blocks
    ∧ Forall (λ x : triple, x.2 ≠ 0) body
    ∧ ∀ x y, adjacent body x y →
        x.1.1 < y.1.1 ∧ x.1.2 < y.1.2 ∧ ¬ touching x y.

(** The opcode that leads from the cursor [(i, j)] to a block at [(ai, bj)]. *)
Definition edit (i j ai bj : Z) : list OpcodeOperation :=
  if (i <? ai) && (j <? bj) then [(replace_, i, ai, j, bj)]
  else if i <? ai then [(delete_, i, ai, j, bj)]
  else if j <? bj then [(insert_, i, ai, j, bj)]
  else [].

(** The opcodes that the loop of [getOpcodes] appends from the cursor
    [(i, j)] on. *)
Fixpoint ops_from (i j : Z) (blocks : list triple) : list OpcodeOperation :=
  match blocks with
  | [] => []
  | (ai, bj, size) :: rest =>
      edit i j ai bj
      ++ (if size =? 0 then [] else [(equal_, ai, ai + size, bj, bj + size)])
      ++ ops_from (ai + size) (bj + size) rest
  end.

(** The opcodes lead from [(i, j)] to [(i', j')] without a gap. *)
Fixpoint tiles (i j : Z) (codes : list OpcodeOperation) (i' j' : Z) : Prop :=
  match codes with
  | [] => i = i' ∧ j = j'
  | (_, i1, i2, j1, j2) :: rest => i1 = i ∧ j1 = j ∧ tiles i2 j2 rest i' j'
  end.

(** The ranges of an opcode, by tag. *)
Definition op_shape (c : OpcodeOperation) : Prop :=
  let '(tag, i1, i2, j1, j2) := c in
  match tag with
  | replace_ => i1 < i2 ∧ j1 < j2
  | delete_ => i1 < i2 ∧ j1 = j2
  | insert_ => i1 = i2 ∧ j1 < j2
  | equal_ => i1 < i2 ∧ i2 - i1 = j2 - j1
  end.

(** What the specification says of the result of [getOpcodes], and that
    the ranges of an [equal] opcode hold the same elements. *)
Record opcodes_ok (A B : seq) (codes : list OpcodeOperation) : Prop := {
  codes_tile : tiles 0 0 codes (len A) (len B);
  codes_shape : Forall op_shape codes;
  codes_equal : ∀ i1 i2 j1 j2,
    (equal_, i1, i2, j1, j2) ∈ codes → whole_block A B (i1, j1, i2 - i1);
  codes_alternate : ∀ x y,
    adjacent codes x y → ¬ (tag_of x = equal_ ∧ tag_of y = equal_)
}.

(** Every block lies at or after the cursor that the blocks before it
    leave. *)
Fixpoint lined (i j : Z) (blocks : list triple) : Prop :=
  match blocks with
  | [] => True
  | (ai, bj, size) :: rest =>
      i ≤ ai ∧ j ≤ bj ∧ 0 ≤ size ∧ lined (ai + size) (bj + size) rest
  end.

(** The test of [restore] on one line of the delta. *)
Definition keep (tag line : string) : option string :=
  let needle := str_take 2 line in
  if bool_decide (needle ∈ ["  "; tag]) then Some (str_drop 2 line) else None.

(** The lines of the first and of the second sequence in a delta. *)
Definition side1 (delta : list string) : list string := omap (keep "- ") delta.

Definition side2 (delta : list string) : list string := omap (keep "+ ") delta.

(** What the search has found so far: a pair of the window with the best
    ratio, and a pair of identical lines. *)
Record search_ok (A B : seq) (alo ahi blo bhi : Z) (st : search) : Prop := {
  search_best : ∀ i j, best st = Some (i, j) → alo ≤ i < ahi ∧ blo ≤ j < bhi;
  search_eqij : ∀ i j, eqij st = Some (i, j) →
    alo ≤ i < ahi ∧ blo ≤ j < bhi ∧ at_ A i = at_ B j;
  search_ratio : best st = None → bestRatio st = (74 # 100)%Q
}.

(** A single line that ends with its only newline. *)
Fixpoint is_line (s : string) : bool :=
  match s with
  | EmptyString => false
  | String c EmptyString => bool_decide (c = ascii_of_nat 10)
  | String c s' => negb (bool_decide (c = ascii_of_nat 10)) && is_line s'
  end.


(** The delta of a window holds the lines of both of its ranges. *)
Definition sides (A B : seq) (alo ahi blo bhi : Z) (r : result (list string))
    : Prop :=
  ∃ lines, r = Ok lines
           ∧ side1 lines = slice (elems A) alo ahi
           ∧ side2 lines = slice (elems B) blo bhi.

(** ** findLongestMatch in the words of the specification *)

(** [a[i]] and [b[j]] exist, are equal, and the element is a good one. *)
Definition hit_b (good : string → bool) (A B : seq) (i j : Z) : bool :=
  match at_ A i, at_ B j with
  | Some x, Some y => bool_decide (x = y) && good y
  | _, _ => false
  end.

(** [a[i..i+k] == b[j..j+k]], and every element of the range is good. *)
Definition cand_b (good : string → bool) (A B : seq) (x : triple) : bool :=
  forallb (λ s, hit_b good A B (x.1.1 + s) (x.1.2 + s)) (seqZ 0 x.2).

(** The triples of the window: the longest first, among them the leftmost
    in [a] first, among them the leftmost in [b] first. *)
Definition window_triples (alo ahi blo bhi : Z) : list triple :=
  let kmax := Z.min (ahi - alo) (bhi - blo) in
  k ← (λ d, kmax - d) <$> seqZ 0 (kmax + 1);
  i ← seqZ alo (ahi - alo - k + 1);
  (λ j, (i, j, k)) <$> seqZ blo (bhi - blo - k + 1).

(** The matching triple that maximizes [k], then minimizes [i], then
    minimizes [j]. *)
Definition spec_select (good : string → bool) (A B : seq) (alo ahi blo bhi : Z)
    : triple :=
  match list_find (λ x, cand_b good A B x = true) (window_triples alo ahi blo bhi) with
  | Some (_, x) => x
  | None => (alo, blo, 0)
  end.

(** The selected triple, extended at both ends through equal elements
    whose element of [b] is not junk, then through equal elements whose
    element of [b] is junk. *)
Definition spec_longest (good junk : string → bool) (A B : seq)
    (alo ahi blo bhi : Z) : triple :=
  grow junk A B alo ahi blo bhi
    (grow (λ y, negb (junk y)) A B alo ahi blo bhi
       (spec_select good A B alo ahi blo bhi)).

(** The popular test of an indexed matcher. *)
Definition is_bpopular (m : SequenceMatcher) (x : string) : bool :=
  match isbpopular m with
  | Some popular => bool_decide (x ∈ popular)
  | None => false
  end.

(** [x] is preferred to [y]. *)
Definition pref (x y : triple) : Prop :=
  y.2 < x.2 ∨ (x.2 = y.2 ∧ lex_lt x.1.1 x.1.2 y.1.1 y.1.2).

Definition isSpace (c : string) : bool := bool_decide (c = " ").

(** A second sequence of 200 elements in which ["p"] is popular. *)
Definition matcher_popular : SequenceMatcher :=
  new_SequenceMatcher None (Some (Str "ppxa"))
    (Some (Arr 1 (replicate 199 "p" ++ ["a"]))) None.

(** ** The number of matches *)

(** The sum of the sizes of the blocks, as [ratio] computes it. *)
Definition matches_of (blocks : list triple) : Z :=
  foldl (λ acc (x : triple), acc + x.2) 0 blocks.

(** ** Counting elements *)

(** The number of times [x] occurs in [l]. *)
Definition occ (x : string) (l : list string) : nat :=
  length (filter (λ y, y = x) l).

(** The elements of the first sequence that the blocks cover. *)
Definition matched (A : seq) (body : list triple) : list string :=
  body ≫= (λ x : triple, slice (elems A) x.1.1 (x.1.1 + x.2)).

(** What [fullbcount] holds once [quickRatio] has built it: the number of
    occurrences in the second sequence for the elements that occur, but
    for the names of the properties of [Object.prototype] either nothing
    or a string. *)
Definition counts_of (l : list string) (f : gmap string jsval) : Prop :=
  ∀ x,
    if decide (x ∈ object_prototype_keys)
    then f !! x = None ∨ f !! x = Some VString
    else f !! x = match occ x l with
                  | O => None
                  | S _ => Some (VNum (Z.of_nat (occ x l)))
                  end.

(** What [avail] and [matches] hold in [quickRatio] after the elements
    [p] of the first sequence, [l] being the second sequence: [chosen]
    lists the elements that were counted as matches. *)
Definition avail_inv (l p : list string) (st : gmap string jsval * Z) : Prop :=
  (∀ x,
     if decide (x ∈ object_prototype_keys)
     then st.1 !! x = None ∨ st.1 !! x = Some VNaN
     else st.1 !! x = match occ x p with
                      | O => None
                      | S _ => Some (VNum (Z.of_nat (occ x l) - Z.of_nat (occ x p)))
                      end)
  ∧ ∃ chosen,
      st.2 = Z.of_nat (length chosen)
      ∧ ∀ x, occ x chosen =
             if decide (x ∈ object_prototype_keys) then O
             else Nat.min (occ x p) (occ x l).

(** ** Concrete inputs *)

(** A matcher with all of its caches filled. *)
Definition matcher_abcd_bcde : SequenceMatcher :=
  match quickRatio (new_SequenceMatcher None (Some (Str "abcd")) (Some (Str "bcde")) None) with
  | (_, m) => match getOpcodes m with Ok (_, m') => m' | Throw _ => m end
  end.

(** [new SequenceMatcher(null, 'a', '')]. *)
Definition matcher_a_empty : SequenceMatcher :=
  new_SequenceMatcher None (Some (Str "a")) (Some (Str "")) None.

(** [new SequenceMatcher(null, ['constructor'], ['constructor'])]. *)
Definition matcher_constructor : SequenceMatcher :=
  new_SequenceMatcher None (Some (Arr 1 ["constructor"])) (Some (Arr 2 ["constructor"])) None.

(** Two files of nine lines that differ in their first and last lines. *)
Definition nine_lines_a : seq := Arr 1 ["x"; "1"; "2"; "3"; "4"; "5"; "6"; "7"; "y"].
Definition nine_lines_b : seq := Arr 2 ["X"; "1"; "2"; "3"; "4"; "5"; "6"; "7"; "Y"].

Definition count_separators (lines : list string) : nat :=
  length (filter (λ line, line = "***************" +:+ newline) lines).

(** ** The junk and popular sets *)

(** The junk test of the constructor applied to an element; an omitted
    test holds of no element. *)
Definition is_junk_elt (isjunk : option (string → bool)) (x : string) : bool :=
  match isjunk with
  | Some f => f x
  | None => false
  end.

(** [x] occurs in [B] more than [floor(n / 100) + 1] times, [B] has at
    least 200 elements and [autojunk] is set. *)
Definition is_popular_elt (autojunk : bool) (B : seq) (x : string) : bool :=
  autojunk && (200 <=? len B)
  && (len B / 100 + 1 <? Z.of_nat (occ x (elems B))).

(** ** Applying opcodes *)

(** The sequence that the opcodes describe: the elements of the first
    sequence for [equal], those of the second for [replace] and [insert],
    nothing for [delete]. *)
Definition replay (A B : seq) (codes : list OpcodeOperation) : list string :=
  codes ≫= (λ c : OpcodeOperation,
    let '(tag, i1, i2, j1, j2) := c in
    match tag with
    | equal_ => slice (elems A) i1 i2
    | delete_ => []
    | replace_ | insert_ => slice (elems B) j1 j2
    end).

(** ** Matchers that answer alike *)

(** The fields that [findLongestMatch], [getMatchingBlocks] and
    [getOpcodes] read when the caches are empty. *)
Definition same_inputs (m1 m2 : SequenceMatcher) : Prop :=
  a m1 = a m2 ∧ b m1 = b m2 ∧ b2j m1 = b2j m2 ∧ isbjunk m1 = isbjunk m2.

(** ** Sequences with the same elements *)

(** A block that starts at the same position in both sequences. *)
Definition diagonal (x : triple) : Prop := x.1.1 = x.1.2.

(** A window over the same range of both sequences, inside [[0, n]]. *)
Definition diagonal_window (n : Z) (w : window) : Prop :=
  w.1.1.1 = w.1.2 ∧ w.1.1.2 = w.2 ∧ 0 ≤ w.1.1.1 ∧ w.1.1.1 ≤ w.1.1.2 ∧ w.1.1.2 ≤ n.

(** The number of positions of the first sequence in the windows. *)
Definition queue_width (queue : list window) : Z :=
  foldr (λ (w : window) acc, (w.1.1.2 - w.1.1.1) + acc) 0 queue.

(** ** Groups of opcodes *)

(** An opcode that is not [equal]. *)
Definition is_change (c : OpcodeOperation) : Prop := tag_of c ≠ equal_.

#[global] Instance is_change_dec c : Decision (is_change c).
Proof. unfold is_change. apply _. Defined.

(** No two [equal] opcodes follow each other; [prev] tells whether the
    opcode before the list is [equal]. *)
Fixpoint alternating (prev : bool) (codes : list OpcodeOperation) : Prop :=
  match codes with
  | [] => True
  | c :: rest => ¬ (prev = true ∧ is_equal c = true) ∧ alternating (is_equal c) rest
  end.

(** The opcodes of the state of the grouping loop, in order. *)
Definition flat (st : list (list OpcodeOperation) * list OpcodeOperation)
    : list OpcodeOperation :=
  concat st.1 ++ st.2.

(** What the grouping loop keeps: every finished group holds a change,
    and so does the current group after a change or once it holds two
    opcodes; [prev] tells whether the last opcode was [equal], if there
    was one. *)
Definition group_inv (prev : option bool)
    (st : list (list OpcodeOperation) * list OpcodeOperation) : Prop :=
  Forall (Exists is_change) st.1
  ∧ (prev = None → st.2 = [])
  ∧ (prev = Some false → Exists is_change st.2)
  ∧ ((2 ≤ length st.2)%nat → Exists is_change st.2).

(** The range of the first sequence that an opcode spans. *)
Definition span (c : OpcodeOperation) : Z := c.1.1.2 - c.1.1.1.2.

(** ** Groups as patches *)

(** An opcode whose ranges lie inside the sequences and are what its tag
    says: equal elements for [equal], an empty range of the second
    sequence for [delete], of the first for [insert]. *)
Definition wf_op (A B : seq) (c : OpcodeOperation) : Prop :=
  let '(tag, i1, i2, j1, j2) := c in
  0 ≤ i1 ∧ i1 ≤ i2 ∧ i2 ≤ len A ∧ 0 ≤ j1 ∧ j1 ≤ j2 ∧ j2 ≤ len B
  ∧ match tag with
    | equal_ =>
        i2 - i1 = j2 - j1
        ∧ ∀ s, 0 ≤ s < i2 - i1 → at_ A (i1 + s) = at_ B (j1 + s)
    | delete_ => j1 = j2
    | insert_ => i1 = i2
    | replace_ => True
    end.

(** A group that is not empty and leads from the start of its first
    opcode to the end of its last one without a gap. *)
Definition chained (A B : seq) (g : list OpcodeOperation) : Prop :=
  Forall (wf_op A B) g
  ∧ ∃ first last_,
      head g = Some first ∧ last g = Some last_
      ∧ tiles first.1.1.1.2 first.1.2 g last_.1.1.2 last_.2.

(** Reading one side of the body of a unified hunk: the lines that begin
    with a space or with [tag], without that first character. *)
Definition keep_unified (tag line : string) : option string :=
  if bool_decide (str_take 1 line ∈ [" "; tag]) then Some (str_drop 1 line) else None.

(** The two header lines of [unifiedDiff], which it emits when there is
    a group. *)
Definition unified_header (param : option DiffParam)
    (groups : list (list OpcodeOperation)) : list string :=
  let param := default (mkDiffParam None None None None None None) param in
  let fromdate :=
    if bool_decide (default "" (fromfiledate param) = "") then ""
    else tab +:+ default "" (fromfiledate param) in
  let todate :=
    if bool_decide (default "" (tofiledate param) = "") then ""
    else tab +:+ default "" (tofiledate param) in
  match groups with
  | [] => []
  | _ =>
      ["--- " +:+ default "" (fromfile param) +:+ fromdate
         +:+ default newline (lineterm param);
       "+++ " +:+ default "" (tofile param) +:+ todate
         +:+ default newline (lineterm param)]
  end.

(** [hunk] renders the group [g]: a range line for the ranges that the
    group spans, then a body whose two sides are those ranges of the two
    sequences. *)
Definition unified_hunk (A B : seq) (lineterm : string)
    (g : list OpcodeOperation) (hunk : list string) : Prop :=
  ∃ first last_ body,
    head g = Some first ∧ last g = Some last_
    ∧ hunk = ("@@ -" +:+ _formatRangeUnified first.1.1.1.2 last_.1.1.2
              +:+ " +" +:+ _formatRangeUnified first.1.2 last_.2
              +:+ " @@" +:+ lineterm) :: body
    ∧ omap (keep_unified "-") body = slice (elems A) first.1.1.1.2 last_.1.1.2
    ∧ omap (keep_unified "+") body = slice (elems B) first.1.2 last_.2.

(** A line of a [Differ] delta: its first two characters are one of the
    four markers. *)
Definition delta_line (line : string) : Prop :=
  str_take 2 line ∈ ["  "; "- "; "+ "; "? "].

(** The elements that the search of [findLongestMatch] can match: those
    of [B] other than [__proto__] that are neither junk nor popular. *)
Definition good_elt (isjunk : option (string → bool)) (autojunk : bool) (B : seq)
    (x : string) : Prop :=
  x ∈ elems B ∧ x ≠ "__proto__"
  ∧ is_junk_elt isjunk x = false ∧ is_popular_elt autojunk B x = false.

(** ** The hunk of contextDiff *)

(** Some opcode of the group has one of the [tags]. *)
Definition has_tag (tags : list OpcodeName) (g : list OpcodeOperation) : bool :=
  existsb (λ c, bool_decide (tag_of c ∈ tags)) g.

(** [body] is one half of a context hunk: its lines begin with two
    spaces, with ["! "] or with [mark], and without these two characters
    they are [lines]. *)
Definition context_half (mark : string) (lines body : list string) : Prop :=
  Forall (λ l, str_take 2 l ∈ ["  "; "! "; mark]) body
  ∧ str_drop 2 <$> body = lines.

(** [lines] is the header of [contextDiff] followed by the rendering of
    the group [g]: the row of stars, the range of the first sequence
    with its lines when the group deletes or replaces, the range of the
    second sequence with its lines when the group inserts or replaces. *)
Definition context_hunk (A B : seq) (param : option DiffParam)
    (g : list OpcodeOperation) (lines : list string) : Prop :=
  let p := default (mkDiffParam None None None None None None) param in
  let lt := default newline (lineterm p) in
  let fromdate :=
    if bool_decide (default "" (fromfiledate p) = "") then ""
    else tab +:+ default "" (fromfiledate p) in
  let todate :=
    if bool_decide (default "" (tofiledate p) = "") then ""
    else tab +:+ default "" (tofiledate p) in
  ∃ first last_ body1 body2,
    head g = Some first ∧ last g = Some last_
    ∧ lines
      = ["*** " +:+ default "" (fromfile p) +:+ fromdate +:+ lt;
         "--- " +:+ default "" (tofile p) +:+ todate +:+ lt;
         "***************" +:+ lt;
         "*** " +:+ _formatRangeContext first.1.1.1.2 last_.1.1.2 +:+ " ****" +:+ lt]
        ++ body1
        ++ ["--- " +:+ _formatRangeContext first.1.2 last_.2 +:+ " ----" +:+ lt]
        ++ body2
    ∧ (if has_tag [replace_; delete_] g
       then context_half "- " (slice (elems A) first.1.1.1.2 last_.1.1.2) body1
       else body1 = [])
    ∧ (if has_tag [replace_; insert_] g
       then context_half "+ " (slice (elems B) first.1.2 last_.2) body2
       else body2 = []).

(** ** The search of [_fancyReplace] on lines that may be empty *)

(** The cached blocks, if any, hold no negative length in total. *)
Definition cache_nonneg (m : SequenceMatcher) : Prop :=
  ∀ blocks, matchingBlocks m = Some blocks → 0 ≤ matches_of blocks.

(** What the search loops of [_fancyReplace] keep: [bestRatio] is not
    negative, and the line of [b] of the best pair is not empty. *)
Record searching (A B : seq) (alo ahi blo bhi : Z) (st : search) : Prop := {
  searching_ok : search_ok A B alo ahi blo bhi st;
  searching_ratio : (0 <= bestRatio st)%Q;
  searching_cache : cache_nonneg (cruncher st);
  searching_best : ∀ i j, best st = Some (i, j) → at_ B j ≠ Some ""
}.

(** ** The clipping of getGroupedOpcodes *)

(** The first opcode after the first clipping assignment. *)
Definition clip_head (n : Z) (c : OpcodeOperation) : OpcodeOperation :=
  let '(tag, i1, i2, j1, j2) := c in
  if is_equal c then (tag, Z.max i1 (i2 - n), i2, Z.max j1 (j2 - n), j2) else c.

(** The last opcode after the second clipping assignment. *)
Definition clip_tail (n : Z) (c : OpcodeOperation) : OpcodeOperation :=
  let '(tag, i1, i2, j1, j2) := c in
  if is_equal c then (tag, i1, Z.min i2 (i1 + n), j1, Z.min j2 (j1 + n)) else c.

(** The two clipping assignments of [getGroupedOpcodes], on a list of
    opcodes that is not empty. *)
Definition clip_ends (n : Z) (codes : list OpcodeOperation) : list OpcodeOperation :=
  match codes with
  | [] => []
  | _ => clip_last n (clip_first n codes)
  end.

(** * Theorems *)

(** ** The index built by [_chainB] *)

Lemma elem_of_positions_from i x l j :
  j ∈ positions_from i x l ↔ i ≤ j ∧ l !! Z.to_nat (j - i) = Some x.
Proof.
  revert i. induction l as [|y l IH]; intros i; simpl.
  - rewrite elem_of_nil. naive_solver.
  - rewrite elem_of_app, IH. destruct (decide (x = y)) as [->|Hne].
    + rewrite list_elem_of_singleton. split.
      * intros [->|[Hle Hl]].
        -- split; [lia|]. by replace (i - i) with 0 by lia.
        -- split; [lia|]. replace (Z.to_nat (j - i)) with (S (Z.to_nat (j - (i + 1)))) by lia.
           done.
      * intros [Hle Hl]. destruct (decide (j = i)) as [->|Hji]; [by left|right].
        split; [lia|].
        replace (Z.to_nat (j - i)) with (S (Z.to_nat (j - (i + 1)))) in Hl by lia.
        done.
    + rewrite elem_of_nil. split.
      * intros [[]|[Hle Hl]]. split; [lia|].
        replace (Z.to_nat (j - i)) with (S (Z.to_nat (j - (i + 1)))) by lia. done.
      * intros [Hle Hl]. right. destruct (decide (j = i)) as [->|Hji].
        -- replace (i - i) with 0 in Hl by lia. simpl in Hl. congruence.
        -- split; [lia|].
           replace (Z.to_nat (j - i)) with (S (Z.to_nat (j - (i + 1)))) in Hl by lia.
           done.
Qed.

Lemma positions_from_sorted i x l : StronglySorted Z.lt (positions_from i x l).
Proof.
  revert i. induction l as [|y l IH]; intros i; simpl; [constructor|].
  destruct (decide (x = y)); simpl; [|apply IH].
  constructor; [apply IH|]. apply Forall_forall. intros j Hj.
  apply elem_of_positions_from in Hj. lia.
Qed.

Lemma chain_index_lookup t i l x :
  t !! "__proto__" = None →
  chain_index t i l !! x =
    match t !! x with
    | Some old => Some (old ++ positions_from i x l)
    | None =>
        if decide (x = "__proto__") then None
        else match positions_from i x l with [] => None | p => Some p end
    end.
Proof.
  revert t i. induction l as [|y l IH]; intros t i Hproto; simpl.
  - destruct (t !! x) eqn:E; [by rewrite app_nil_r|].
    by destruct (decide _).
  - assert (Hstep : chain_step t i y !! "__proto__" = None).
    { unfold chain_step. destruct (t !! y) eqn:Ey.
      - rewrite lookup_insert_ne; [done|]. intros ->. congruence.
      - unfold js_set. destruct (decide (y = "__proto__")); [done|].
        by rewrite lookup_insert_ne. }
    rewrite IH by done. unfold chain_step.
    destruct (decide (x = y)) as [->|Hne].
    + destruct (t !! y) eqn:Ey.
      * rewrite lookup_insert_eq. by rewrite <- app_assoc.
      * unfold js_set. destruct (decide (y = "__proto__")) as [->|Hp].
        -- rewrite Ey. done.
        -- rewrite lookup_insert_eq. done.
    + simpl. destruct (t !! y) eqn:Ey.
      * rewrite lookup_insert_ne by done. done.
      * unfold js_set. destruct (decide (y = "__proto__")); [done|].
        rewrite lookup_insert_ne by done. done.
Qed.

(** The purge loops only delete: what is left of the index is a part of
    it, and its keys are the keys that did not move to the set. *)
Lemma purge_fold_spec P (t0 : gmap string (list Z)) keys s t :
  t ⊆ t0 → dom t = dom t0 ∖ s →
  (foldl (purge_step P) (s, t) keys).2 ⊆ t0
  ∧ dom (foldl (purge_step P) (s, t) keys).2
    = dom t0 ∖ (foldl (purge_step P) (s, t) keys).1.
Proof.
  revert s t. induction keys as [|elt keys IH]; intros s t Hsub Hdom; simpl; [done|].
  unfold purge_step at 2 4 6. simpl.
  destruct (t !! elt) as [idxs|] eqn:E; [|by apply IH].
  destruct (P elt idxs); [|by apply IH].
  apply IH.
  - etrans; [apply delete_subseteq|done].
  - rewrite dom_delete_L, Hdom. set_solver.
Qed.

Lemma purge_spec P (t0 : gmap string (list Z)) :
  (purge P t0).2 ⊆ t0 ∧ dom (purge P t0).2 = dom t0 ∖ (purge P t0).1.
Proof. apply purge_fold_spec; [done | set_solver]. Qed.

Lemma chain_index_dom l x :
  x ∈ dom (chain_index ∅ 0 l) ↔ x ∈ l ∧ x ≠ "__proto__".
Proof.
  rewrite elem_of_dom, chain_index_lookup by done. rewrite lookup_empty.
  destruct (decide (x = "__proto__")) as [->|Hne].
  - split; [intros [? [=]] | intros [_ []]; done].
  - destruct (positions_from 0 x l) as [|j p] eqn:E.
    + split; [intros [? [=]]|]. intros [Hin _]. exfalso.
      apply list_elem_of_lookup in Hin as [k Hk].
      assert (Z.of_nat k ∈ positions_from 0 x l) as Hj.
      { apply elem_of_positions_from. split; [lia|].
        by replace (Z.to_nat (Z.of_nat k - 0)) with k by lia. }
      rewrite E in Hj. by apply elem_of_nil in Hj.
    + split; [|eauto]. intros _. split; [|done].
      assert (j ∈ positions_from 0 x l) as Hj by (rewrite E; left).
      apply elem_of_positions_from in Hj as [_ Hj].
      by apply list_elem_of_lookup_2 in Hj.
Qed.

Lemma chainB_index m :
  ∃ t junk popular,
    b2j (_chainB m) = Some t ∧ isbjunk (_chainB m) = Some junk
    ∧ isbpopular (_chainB m) = Some popular
    ∧ index_for (b m) t junk popular.
Proof.
  unfold _chainB.
  set (t0 := chain_index ∅ 0 (elems (b m))).
  set (r1 := match isjunk m with
             | Some f => purge (λ elt _, f elt) t0
             | None => (∅, t0)
             end).
  assert (H1 : r1.2 ⊆ t0 ∧ dom r1.2 = dom t0 ∖ r1.1).
  { subst r1. destruct (isjunk m); [apply purge_spec|]. simpl. set_solver. }
  destruct r1 as [junk t1]. simpl in H1. destruct H1 as [H1s H1d].
  set (r2 := if autojunk m && (200 <=? len (b m))
             then purge (λ _ idxs, len (b m) / 100 + 1 <? Z.of_nat (length idxs)) t1
             else (∅, t1)).
  assert (H2 : r2.2 ⊆ t1 ∧ dom r2.2 = dom t1 ∖ r2.1).
  { subst r2. destruct (autojunk m && _); [apply purge_spec|]. simpl. set_solver. }
  destruct r2 as [popular t2]. simpl in H2. destruct H2 as [H2s H2d].
  exists t2, junk, popular. do 3 (split; [done|]). split.
  - intros x l Hl.
    assert (t0 !! x = Some l) as Hx.
    { eapply lookup_weaken; [|exact H1s]. eapply lookup_weaken; [exact Hl|exact H2s]. }
    subst t0. rewrite chain_index_lookup, lookup_empty in Hx by done.
    destruct (decide _); [done|].
    destruct (positions_from 0 x (elems (b m))); congruence.
  - intros x. rewrite H2d, H1d, !elem_of_difference.
    subst t0. rewrite chain_index_dom. tauto.
Qed.

Lemma indexed_index m :
  indexed m →
  ∃ t junk popular,
    b2j m = Some t ∧ isbjunk m = Some junk ∧ isbpopular m = Some popular
    ∧ index_for (b m) t junk popular.
Proof.
  intros (H1 & H2 & H3). destruct (chainB_index m) as (t & junk & popular & ? & ? & ? & ?).
  exists t, junk, popular. rewrite H1, H2, H3. done.
Qed.

Lemma chainB_depends m1 m2 :
  b m1 = b m2 → isjunk m1 = isjunk m2 → autojunk m1 = autojunk m2 →
  b2j (_chainB m1) = b2j (_chainB m2) ∧ isbjunk (_chainB m1) = isbjunk (_chainB m2)
  ∧ isbpopular (_chainB m1) = isbpopular (_chainB m2).
Proof.
  intros Hb Hj Ha. unfold _chainB. rewrite Hb, Hj, Ha.
  destruct (match isjunk m2 with Some f => _ | None => _ end) as [junk t1].
  destruct (if autojunk m2 && _ then _ else _) as [popular t2]. done.
Qed.

Lemma chainB_indexed m : indexed (_chainB m).
Proof.
  unfold indexed. apply chainB_depends; unfold _chainB;
    destruct (match isjunk m with Some f => _ | None => _ end) as [junk t1];
    destruct (if autojunk m && _ then _ else _) as [popular t2]; done.
Qed.

(** Being indexed depends on the second sequence, the junk test, the
    flag and the three derived fields only. *)
Lemma indexed_ext m1 m2 :
  b m1 = b m2 → isjunk m1 = isjunk m2 → autojunk m1 = autojunk m2 →
  b2j m1 = b2j m2 → isbjunk m1 = isbjunk m2 → isbpopular m1 = isbpopular m2 →
  indexed m1 → indexed m2.
Proof.
  intros Hb Hj Ha H1 H2 H3 (I1 & I2 & I3).
  destruct (chainB_depends m1 m2 Hb Hj Ha) as (E1 & E2 & E3).
  unfold indexed. rewrite <- H1, <- H2, <- H3, <- E1, <- E2, <- E3. done.
Qed.

Lemma at_Some (X : seq) i : 0 ≤ i < len X → is_Some (at_ X i).
Proof.
  intros Hi. unfold at_, len in *. destruct (decide (0 ≤ i)); [|lia].
  apply lookup_lt_is_Some. lia.
Qed.

(** ** The search of [findLongestMatch] *)

Section longest_match.
Context (A B : seq) (good : string → Prop).
Context (alo ahi blo bhi : Z).

Local Abbreviation hit := (hit A B good).
Local Abbreviation cand := (cand A B good alo ahi blo bhi).
Local Abbreviation maxrun := (maxrun A B good alo ahi blo bhi).
Local Abbreviation selected := (selected A B good alo ahi blo bhi).
Local Abbreviation dp_row := (dp_row A B good alo ahi blo bhi).
Local Abbreviation best_inv := (best_inv A B good alo ahi blo bhi).

Lemma cand_prefix i j k k' : cand i j k → 0 ≤ k' ≤ k → cand i j k'.
Proof.
  intros (?&?&?&?&?&H) ?. repeat split; try lia. intros s Hs. apply H. lia.
Qed.

Lemma cand_suffix i j k d : cand i j k → 0 ≤ d ≤ k → cand (i + d) (j + d) (k - d).
Proof.
  intros (?&?&?&?&?&H) ?. repeat split; try lia. intros s Hs.
  replace (i + d + s) with (i + (d + s)) by lia.
  replace (j + d + s) with (j + (d + s)) by lia. apply H. lia.
Qed.

Lemma maxrun_bound i j k i' j' k' :
  maxrun i j k → cand i' j' k' → i' + k' - 1 = i → j' + k' - 1 = j → k' ≤ k.
Proof.
  intros [Hk Hmax] Hc Hi Hj. destruct (decide (k' ≤ k)) as [|Hgt]; [done|].
  assert (0 ≤ k) by (destruct Hk as (?&?&?&?); lia).
  exfalso. apply Hmax.
  pose proof (cand_suffix _ _ _ (k' - (k + 1)) Hc ltac:(lia)) as Hs.
  replace (i' + (k' - (k + 1))) with (i - k) in Hs by lia.
  replace (j' + (k' - (k + 1))) with (j - k) in Hs by lia.
  replace (k' - (k' - (k + 1))) with (k + 1) in Hs by lia. done.
Qed.

Lemma selected_unique x y : selected x → selected y → x = y.
Proof.
  destruct x as [[i j] k], y as [[i' j'] k']. intros [Hx Hbx] [Hy Hby].
  destruct (Hbx _ _ _ Hy) as [H1 H2], (Hby _ _ _ Hx) as [H3 H4].
  assert (k = k') as -> by lia. specialize (H2 eq_refl). specialize (H4 eq_refl).
  unfold lex_le in *. assert (i = i') by lia. assert (j = j') by lia. congruence.
Qed.

(** *** The state of the search *)

Lemma best_inv_weaken (done done' : Z → Z → Prop) x :
  best_inv done x →
  (∀ i j, done i j → done' i j) →
  (∀ i j k, 1 ≤ k → cand i j k → done' (i + k - 1) (j + k - 1) →
     done (i + k - 1) (j + k - 1)) →
  best_inv done' x.
Proof.
  destruct x as [[bi bj] bs]. intros [H1 H2] Hsub Hnew. split.
  - destruct H1 as [?|(?&?&?)]; [by left|right; auto].
  - intros i j k Hk Hc Hd. apply H2; auto.
Qed.

Lemma best_inv_cell (done : Z → Z → Prop) x i j k :
  best_inv done x → 1 ≤ k → maxrun i j k →
  (∀ i' j', done i' j' → lex_lt i' j' i j) →
  best_inv (λ i' j', done i' j' ∨ (i' = i ∧ j' = j)) (better i j k x).
Proof.
  destruct x as [[bi bj] bs]. intros [H1 H2] Hk Hmax Hlt.
  assert (Hbs : 0 ≤ bs).
  { destruct H1 as [[= _ _ ->]|(?&?&?)]; lia. }
  unfold better. simpl. destruct (Z.ltb_spec bs k) as [Hlt'|Hge].
  - split.
    + right. split; [done|]. split; [apply Hmax|]. right. lia.
    + intros i' j' k' Hk' Hc [Hd|[Hi Hj]].
      * destruct (H2 _ _ _ Hk' Hc Hd). lia.
      * pose proof (maxrun_bound _ _ _ _ _ _ Hmax Hc Hi Hj).
        split; [done|]. intros ->. right. lia.
  - split.
    + destruct H1 as [?|(?&?&?)]; [by left|right; auto].
    + intros i' j' k' Hk' Hc [Hd|[Hi Hj]].
      * by apply H2.
      * pose proof (maxrun_bound _ _ _ _ _ _ Hmax Hc Hi Hj).
        split; [lia|]. intros ->.
        destruct H1 as [[= _ _ ->]|(?&?&Hd)]; [lia|].
        specialize (Hlt _ _ Hd). unfold lex_lt, lex_le in *. lia.
Qed.

(** *** The inner loop *)

Lemma scan_row_fold i j2len jarray st :
  StronglySorted Z.lt jarray →
  scan_row i blo bhi j2len jarray st
  = foldl (cell_step i j2len) st
      (filter (λ j, blo ≤ j < bhi) jarray).
Proof.
  intros Hs. revert st. induction Hs as [|j rest Hs IH Hall]; intros st; simpl; [done|].
  destruct (Z.ltb_spec j blo).
  - rewrite filter_cons_False by lia. apply IH.
  - destruct (Z.leb_spec bhi j).
    + rewrite filter_cons_False by lia.
      assert (filter (λ j', blo ≤ j' < bhi) rest = []) as ->; [|done].
      clear IH Hs. induction Hall as [|j' rest Hj' _ IH]; [done|].
      rewrite filter_cons_False by lia. done.
    + rewrite filter_cons_True by lia. simpl.
      rewrite <- IH. unfold cell_step, better.
      destruct st as [nj [[bi bj] bs]]. simpl. done.
Qed.

Lemma cell_maxrun r j2len j :
  dp_row (r - 1) j2len → alo ≤ r < ahi → blo ≤ j < bhi → hit r j →
  let k := default 0 (j2len !! (j - 1)) + 1 in 1 ≤ k ∧ maxrun r j k.
Proof.
  intros Hdp Hr Hj Hh. specialize (Hdp (j - 1)).
  destruct (j2len !! (j - 1)) as [k0|]; simpl.
  - destruct Hdp as [Hk0 [Hc Hm]]. split; [lia|]. split.
    + destruct Hc as (?&?&?&?&?&Hc). repeat split; try lia.
      intros s Hs. destruct (decide (s = k0)) as [->|].
      * replace (r - (k0 + 1) + 1 + k0) with r by lia.
        replace (j - (k0 + 1) + 1 + k0) with j by lia. done.
      * replace (r - (k0 + 1) + 1 + s) with (r - 1 - k0 + 1 + s) by lia.
        replace (j - (k0 + 1) + 1 + s) with (j - 1 - k0 + 1 + s) by lia.
        apply Hc. lia.
    + intros Hc'. apply Hm.
      pose proof (cand_prefix _ _ _ (k0 + 1) Hc' ltac:(lia)) as Hp.
      replace (r - (k0 + 1)) with (r - 1 - k0) in Hp by lia.
      replace (j - (k0 + 1)) with (j - 1 - k0) in Hp by lia. done.
  - split; [lia|]. split.
    + repeat split; try lia. intros s Hs. assert (s = 0) as -> by lia.
      replace (r - (0 + 1) + 1 + 0) with r by lia.
      replace (j - (0 + 1) + 1 + 0) with j by lia. done.
    + intros Hc'. apply Hdp.
      pose proof (cand_prefix _ _ _ 1 Hc' ltac:(lia)) as Hp.
      replace (r - (0 + 1)) with (r - 1) in Hp by lia.
      replace (j - (0 + 1)) with (j - 1) in Hp by lia. done.
Qed.

Lemma cells_fold r j2len js1 js2 nj x :
  dp_row (r - 1) j2len → alo ≤ r < ahi →
  StronglySorted Z.lt (js1 ++ js2) →
  (∀ j, j ∈ js1 ++ js2 → blo ≤ j < bhi ∧ hit r j) →
  (∀ j, match nj !! j with
        | Some k => j ∈ js1 ∧ 1 ≤ k ∧ maxrun r j k
        | None => j ∉ js1
        end) →
  best_inv (λ i' j', i' < r ∨ (i' = r ∧ j' ∈ js1)) x →
  let st := foldl (cell_step r j2len) (nj, x) js2 in
  (∀ j, match st.1 !! j with
        | Some k => j ∈ js1 ++ js2 ∧ 1 ≤ k ∧ maxrun r j k
        | None => j ∉ js1 ++ js2
        end)
  ∧ best_inv (λ i' j', i' < r ∨ (i' = r ∧ j' ∈ js1 ++ js2)) st.2.
Proof.
  intros Hdp Hr. revert js1 nj x.
  induction js2 as [|j js2 IH]; intros js1 nj x Hs Hall Hnj Hb; simpl.
  - rewrite app_nil_r. done.
  - replace (js1 ++ j :: js2) with ((js1 ++ [j]) ++ js2) in * by (by rewrite <- app_assoc).
    destruct (Hall j) as [Hjw Hh]; [set_solver|].
    pose proof (cell_maxrun r j2len j Hdp Hr Hjw Hh) as [Hk Hm].
    apply IH; try done.
    + intros j'. unfold cell_step. simpl.
      destruct (decide (j' = j)) as [->|Hne].
      * rewrite lookup_insert_eq. split; [set_solver|done].
      * rewrite lookup_insert_ne by done. specialize (Hnj j').
        destruct (nj !! j'); set_solver.
    + unfold cell_step. simpl.
      eapply best_inv_weaken.
      * apply (best_inv_cell _ _ r j _ Hb Hk Hm).
        intros i' j' [?|[-> Hin]]; [left; lia|right]. split; [done|].
        apply StronglySorted_app_1_l in Hs.
        apply (StronglySorted_app_1_elem_of _ _ _ j' j Hs Hin). set_solver.
      * simpl. intros i' j' [[?|[-> ?]]|[-> ->]]; [by left|right|right]; set_solver.
      * simpl. intros i' j' k' _ _ [?|[-> Hin]]; [left; by left|].
        apply elem_of_app in Hin as [?|Hin]; [left; right; done|].
        apply list_elem_of_singleton in Hin. right. lia.
Qed.

(** *** The outer loop *)

Context (t : gmap string (list Z)).
Hypothesis Hgood : ∀ x, good x ↔ x ∈ dom t.
Hypothesis Hpos : ∀ x l, t !! x = Some l → l = positions_from 0 x (elems B).
Hypothesis Hwa : 0 ≤ alo ≤ ahi ∧ ahi ≤ len A.
Hypothesis Hwb : 0 ≤ blo ≤ bhi ∧ bhi ≤ len B.

Lemma jarray_spec r :
  alo ≤ r < ahi →
  let jarray := default [] (t !! key_of (at_ A r)) in
  StronglySorted Z.lt jarray ∧ ∀ j, j ∈ jarray ↔ hit r j.
Proof.
  intros Hr. destruct (at_Some A r) as [x Hx]; [lia|]. rewrite Hx. simpl.
  destruct (t !! x) as [l|] eqn:E; simpl.
  - rewrite (Hpos _ _ E). split; [apply positions_from_sorted|].
    intros j. rewrite elem_of_positions_from. unfold hit. split.
    + intros [Hj Hl]. exists x. split; [done|]. split.
      * unfold at_. destruct (decide (0 ≤ j)); [|lia].
        by replace (j - 0) with j in Hl by lia.
      * apply Hgood, elem_of_dom. eauto.
    + intros (y & Hy & Hb & _). assert (y = x) as -> by congruence.
      unfold at_ in Hb. destruct (decide (0 ≤ j)); [|done].
      split; [done|]. by replace (j - 0) with j by lia.
  - split; [constructor|]. intros j. rewrite elem_of_nil. split; [done|].
    intros (y & Hy & _ & Hg). assert (y = x) as -> by congruence.
    apply Hgood, elem_of_dom in Hg as [? ?]. congruence.
Qed.

Lemma StronglySorted_filter_lt (P : Z → Prop) `{∀ x, Decision (P x)} l :
  StronglySorted Z.lt l → StronglySorted Z.lt (filter P l).
Proof.
  induction 1 as [|x l Hs IH Hall]; [constructor|].
  rewrite filter_cons. destruct (decide (P x)); [|done].
  constructor; [done|]. apply Forall_forall. intros y Hy.
  apply list_elem_of_filter in Hy as [_ Hy].
  rewrite Forall_forall in Hall. auto.
Qed.

Lemma scan_row_spec r j2len x :
  dp_row (r - 1) j2len → best_inv (λ i' _, i' < r) x → alo ≤ r < ahi →
  let st := scan_row r blo bhi j2len (default [] (t !! key_of (at_ A r))) (∅, x) in
  dp_row r st.1 ∧ best_inv (λ i' _, i' < r + 1) st.2.
Proof.
  intros Hdp Hb Hr. destruct (jarray_spec r Hr) as [Hs Hj].
  set (jarray := default [] (t !! key_of (at_ A r))) in *. simpl.
  rewrite scan_row_fold by done.
  set (js := filter (λ j, blo ≤ j < bhi) jarray).
  assert (Hjs : ∀ j, j ∈ js ↔ (blo ≤ j < bhi ∧ hit r j)).
  { intros j. subst js. rewrite list_elem_of_filter, Hj. done. }
  destruct (cells_fold r j2len [] js ∅ x Hdp Hr) as [H1 H2].
  - by apply StronglySorted_filter_lt.
  - intros j. simpl. apply Hjs.
  - intros j. rewrite lookup_empty. apply not_elem_of_nil.
  - eapply best_inv_weaken; [exact Hb| |]; simpl; [tauto|].
    intros i j k _ _ [?|[_ Hin]]; [done|]. by apply elem_of_nil in Hin.
  - simpl in H1, H2. split.
    + intros j. specialize (H1 j). destruct (_ !! j); [tauto|].
      intros Hc. apply H1, Hjs. destruct Hc as (?&?&?&?&?&Hc).
      split; [lia|]. specialize (Hc 0 ltac:(lia)).
      by replace (r + 0) with r in Hc by lia; replace (j + 0) with j in Hc by lia.
    + eapply best_inv_weaken; [exact H2| |]; simpl.
      * intros i j [?|[-> _]]; lia.
      * intros i j k Hk Hc Hlt.
        destruct (decide (i + k - 1 < r)); [by left|right].
        split; [lia|]. apply Hjs.
        pose proof (cand_suffix _ _ _ (k - 1) Hc ltac:(lia)) as (?&?&?&?&?&Hs').
        split; [lia|]. specialize (Hs' 0 ltac:(lia)).
        replace (i + (k - 1) + 0) with r in Hs' by lia.
        replace (j + (k - 1) + 0) with (j + k - 1) in Hs' by lia. done.
Qed.

Lemma scan_rows_spec (n : nat) r (st0 : gmap Z Z * triple) :
  alo ≤ r → r + Z.of_nat n ≤ ahi →
  dp_row (r - 1) st0.1 → best_inv (λ i' _, i' < r) st0.2 →
  ∃ st, scan_rows (Some t) A blo bhi (seqZ r (Z.of_nat n)) st0 = Ok st
        ∧ best_inv (λ i' _, i' < r + Z.of_nat n) st.2.
Proof.
  revert r st0. induction n as [|n IH]; intros r st0 Hr Hn Hdp Hb.
  - rewrite seqZ_nil by lia. simpl. eexists. split; [done|]. simpl.
    by rewrite Z.add_0_r.
  - rewrite seqZ_cons by lia. simpl.
    destruct (scan_row_spec r _ _ Hdp Hb ltac:(lia)) as [H1 H2].
    simpl in H1, H2.
    replace (Z.pred (Z.of_nat (S n))) with (Z.of_nat n) by lia.
    edestruct (IH (Z.succ r)) as (st & Hst & Hinv); [| | | |exists st; split; [exact Hst|]].
    + lia.
    + lia.
    + replace (Z.succ r - 1) with r by lia. exact H1.
    + replace (Z.succ r) with (r + 1) by lia. exact H2.
    + by replace (r + Z.of_nat (S n)) with (Z.succ r + Z.of_nat n) by lia.
Qed.

(** The two nested loops leave the selected candidate in
    [(besti, bestj, bestsize)]. *)
Lemma scan_selected :
  ∃ st, scan_rows (Some t) A blo bhi (for_range alo ahi) (∅, (alo, blo, 0)) = Ok st
        ∧ selected st.2.
Proof.
  unfold for_range. destruct (Z.leb_spec alo ahi); [|lia].
  destruct (scan_rows_spec (Z.to_nat (ahi - alo)) alo (∅, (alo, blo, 0)))
    as (st & Hst & Hinv); [lia|lia| | |].
  - intros j. simpl. rewrite lookup_empty. intros (?&?); lia.
  - simpl. split; [by left|]. intros i j k Hk (?&?&?&?&?) ?. lia.
  - replace (Z.of_nat (Z.to_nat (ahi - alo))) with (ahi - alo) in * by lia.
    exists st. split; [done|]. destruct st as [nj [[bi bj] bs]]. simpl in *.
    destruct Hinv as [H1 H2]. split.
    + destruct H1 as [[= -> -> ->]|(?&?&?)]; [|done]. repeat split; lia.
    + intros i j k Hc. destruct (decide (1 ≤ k)) as [Hk|Hk].
      * apply H2; [done|done|]. destruct Hc as (?&?&?&?&?); lia.
      * assert (k = 0) as -> by (destruct Hc as (?&?&?&?); lia).
        destruct H1 as [[= -> -> ->]|(?&?&?)].
        -- split; [lia|]. intros _. destruct Hc as (?&?&?). unfold lex_le. lia.
        -- split; [lia|]. lia.
Qed.
End longest_match.

(** ** The extension of the match in [findLongestMatch] *)


Lemma cand_block A B good alo ahi blo bhi i j k :
  cand A B good alo ahi blo bhi i j k → block A B alo ahi blo bhi (i, j, k).
Proof.
  intros (?&?&?&?&?&H). repeat split; try done.
  intros s Hs. destruct (H s Hs) as (x & -> & -> & _). done.
Qed.

Lemma extend_left_grow wantjunk junk P A B alo blo n x :
  (∀ y, eqb (bool_decide (y ∈ junk)) wantjunk = P y) →
  extend_left wantjunk (Some junk) A B alo blo n x = Ok (grow_left P A B alo blo n x).
Proof.
  intros HP. revert x. induction n as [|n IH]; intros [[i j] k]; simpl; [done|].
  destruct ((alo <? i) && (blo <? j)); simpl; [|done].
  rewrite HP. destruct (P _ && _); [apply IH|done].
Qed.

Lemma extend_right_grow wantjunk junk P A B ahi bhi n x :
  (∀ y, eqb (bool_decide (y ∈ junk)) wantjunk = P y) →
  extend_right wantjunk (Some junk) A B ahi bhi n x = Ok (grow_right P A B ahi bhi n x).
Proof.
  intros HP. revert x. induction n as [|n IH]; intros [[i j] k]; simpl; [done|].
  destruct ((i + k <? ahi) && (j + k <? bhi)); simpl; [|done].
  rewrite HP. destruct (P _ && _); [apply IH|done].
Qed.

Lemma extend_both_grow wantjunk junk P A B alo ahi blo bhi x :
  (∀ y, eqb (bool_decide (y ∈ junk)) wantjunk = P y) →
  extend_both wantjunk (Some junk) A B alo ahi blo bhi x
  = Ok (grow P A B alo ahi blo bhi x).
Proof.
  intros HP. unfold extend_both, grow. rewrite (extend_left_grow _ _ P) by done.
  simpl. by apply extend_right_grow.
Qed.

Lemma grow_left_block P A B alo ahi blo bhi n x :
  block A B alo ahi blo bhi x → block A B alo ahi blo bhi (grow_left P A B alo blo n x).
Proof.
  revert x. induction n as [|n IH]; intros [[i j] k] Hb; simpl; [done|].
  destruct ((alo <? i) && (blo <? j) && _ && _) eqn:E; [|done].
  apply andb_prop in E as [E H3]. apply andb_prop in E as [E _].
  apply andb_prop in E as [H1 H2].
  apply Z.ltb_lt in H1, H2. apply bool_decide_eq_true in H3.
  apply IH. destruct Hb as (?&?&?&?&?&Heq). repeat split; try lia.
  intros s Hs. destruct (decide (s = 0)) as [->|].
  - by rewrite !Z.add_0_r.
  - replace (i - 1 + s) with (i + (s - 1)) by lia.
    replace (j - 1 + s) with (j + (s - 1)) by lia. apply Heq. lia.
Qed.

Lemma grow_right_block P A B alo ahi blo bhi n x :
  block A B alo ahi blo bhi x → block A B alo ahi blo bhi (grow_right P A B ahi bhi n x).
Proof.
  revert x. induction n as [|n IH]; intros [[i j] k] Hb; simpl; [done|].
  destruct ((i + k <? ahi) && (j + k <? bhi) && _ && _) eqn:E; [|done].
  apply andb_prop in E as [E H3]. apply andb_prop in E as [E _].
  apply andb_prop in E as [H1 H2].
  apply Z.ltb_lt in H1, H2. apply bool_decide_eq_true in H3.
  apply IH. destruct Hb as (?&?&?&?&?&Heq). repeat split; try lia.
  intros s Hs. destruct (decide (s = k)) as [->|]; [done|]. apply Heq. lia.
Qed.

Lemma grow_block P A B alo ahi blo bhi x :
  block A B alo ahi blo bhi x → block A B alo ahi blo bhi (grow P A B alo ahi blo bhi x).
Proof. intros. by apply grow_right_block, grow_left_block. Qed.

Lemma grow_left_size P A B alo blo n x : x.2 ≤ (grow_left P A B alo blo n x).2.
Proof.
  revert x. induction n as [|n IH]; intros [[i j] k]; simpl; [done|].
  destruct (_ && _); [|done]. etrans; [|apply IH]. simpl. lia.
Qed.

Lemma grow_right_size P A B ahi bhi n x : x.2 ≤ (grow_right P A B ahi bhi n x).2.
Proof.
  revert x. induction n as [|n IH]; intros [[i j] k]; simpl; [done|].
  destruct (_ && _); [|done]. etrans; [|apply IH]. simpl. lia.
Qed.

Lemma grow_size P A B alo ahi blo bhi x : x.2 ≤ (grow P A B alo ahi blo bhi x).2.
Proof. unfold grow. etrans; [apply grow_left_size|apply grow_right_size]. Qed.

Lemma findLongestMatch_indexed m alo ahi blo bhi :
  indexed m → valid_window m (alo, ahi, blo, bhi) →
  ∃ core,
    selected (a m) (b m) (indexed_key m) alo ahi blo bhi core
    ∧ findLongestMatch m alo ahi blo bhi
      = Ok (grow (is_bjunk m) (a m) (b m) alo ahi blo bhi
              (grow (λ y, negb (is_bjunk m y)) (a m) (b m) alo ahi blo bhi core)).
Proof.
  intros Hidx (?&?&?&?&?&?).
  destruct (indexed_index m Hidx) as (t & junk & popular & Ht & Hj & Hp & Hfor).
  destruct (scan_selected (a m) (b m) (indexed_key m) alo ahi blo bhi t)
    as (st & Hst & Hsel).
  - intros x. unfold indexed_key. rewrite Ht. split; [intros (? & [= <-] & ?)|]; eauto.
  - apply Hfor.
  - lia.
  - lia.
  - exists st.2. split; [done|]. unfold findLongestMatch. rewrite Ht, Hst, Hj. simpl.
    rewrite (extend_both_grow _ _ (λ y, negb (is_bjunk m y))). 2:{
      intros y. unfold is_bjunk. rewrite Hj. by destruct (bool_decide _). }
    simpl. apply extend_both_grow.
    intros y. unfold is_bjunk. rewrite Hj. by destruct (bool_decide _).
Qed.

Lemma findLongestMatch_block m alo ahi blo bhi :
  indexed m → valid_window m (alo, ahi, blo, bhi) →
  ∃ x, findLongestMatch m alo ahi blo bhi = Ok x
       ∧ block (a m) (b m) alo ahi blo bhi x.
Proof.
  intros Hidx Hw.
  destruct (findLongestMatch_indexed m alo ahi blo bhi Hidx Hw) as (core & Hsel & ->).
  eexists. split; [done|]. do 2 apply grow_block.
  destruct core as [[i j] k]. destruct Hsel as [Hc _]. by eapply cand_block.
Qed.

(** ** The work queue of [getMatchingBlocks] *)


Lemma apart_sym u v : apart u v → apart v u.
Proof. unfold apart. tauto. Qed.

Lemma apart_inside u v w : apart w v → inside u w → apart u v.
Proof.
  destruct u as [[[? ?] ?] ?], v as [[[? ?] ?] ?], w as [[[? ?] ?] ?].
  unfold apart, before, inside. simpl. lia.
Qed.

Lemma all_apart_perm l l' : l ≡ₚ l' → all_apart l → all_apart l'.
Proof.
  induction 1 as [|x l l' Hp IH|x y l|l l' l'' _ IH1 _ IH2]; simpl; [done| | |auto].
  - intros [H1 H2]. split; [by rewrite <- Hp|auto].
  - intros [H1 [H2 H3]]. apply Forall_cons in H1 as [H1 H1'].
    split; [|done]. constructor; [by apply apart_sym|done].
Qed.

Lemma all_apart_app l1 l2 :
  all_apart (l1 ++ l2) ↔
  all_apart l1 ∧ all_apart l2 ∧ ∀ u v, u ∈ l1 → v ∈ l2 → apart u v.
Proof.
  induction l1 as [|x l1 IH]; simpl.
  - split; [|tauto]. intros ?. split; [done|]. split; [done|].
    intros u v Hu. by apply elem_of_nil in Hu.
  - rewrite IH, Forall_app, !Forall_forall. split.
    + intros [[H1 H2] (H3 & H4 & H5)]. repeat split; try done.
      intros u v Hu Hv. apply elem_of_cons in Hu as [->|Hu]; auto.
    + intros ([H1 H2] & H3 & H4). repeat split; try done.
      * intros v Hv. apply H4; [left|done].
      * intros u v Hu Hv. apply H4; [by right|done].
Qed.

(** Replacing a window by pieces of it keeps the windows apart. *)
Lemma all_apart_replace l1 w l2 news :
  all_apart (l1 ++ w :: l2) → Forall (λ u, inside u w) news → all_apart news →
  all_apart (l1 ++ news ++ l2).
Proof.
  intros H Hin Hnews. rewrite Forall_forall in Hin.
  apply all_apart_app in H as (H1 & [H2 H3] & H4). rewrite Forall_forall in H2.
  apply all_apart_app. split; [done|]. split.
  - apply all_apart_app. split; [done|]. split; [done|].
    intros u v Hu Hv. eapply apart_inside; [|by apply Hin]. by apply H2.
  - intros u v Hu Hv. apply elem_of_app in Hv as [Hv|Hv].
    + apply apart_sym. eapply apart_inside; [|by apply Hin].
      apply apart_sym, H4; [done|left].
    + apply H4; [done|by right].
Qed.

Lemma queue_measure_nonneg m queue :
  Forall (valid_window m) queue → 0 ≤ queue_measure queue.
Proof.
  induction 1 as [|[[[alo ahi] blo] bhi] queue Hw _ IH]; simpl; [done|].
  destruct Hw as (?&?&?&?&?&?). lia.
Qed.

Lemma block_widen A B alo ahi blo bhi alo' ahi' blo' bhi' x :
  block A B alo ahi blo bhi x →
  alo' ≤ alo → ahi ≤ ahi' → blo' ≤ blo → bhi ≤ bhi' →
  block A B alo' ahi' blo' bhi' x.
Proof.
  destruct x as [[i j] k]. intros (?&?&?&?&?&?) ????. repeat split; auto; lia.
Qed.

Lemma matching_loop_spec m fuel queue acc :
  indexed m →
  Forall (valid_window m) queue →
  Forall (found_block (a m) (b m)) acc →
  all_apart ((rect_of <$> acc) ++ queue) →
  queue_measure queue ≤ Z.of_nat fuel →
  ∃ found, matching_loop m fuel queue acc = Ok found
           ∧ Forall (found_block (a m) (b m)) found
           ∧ all_apart (rect_of <$> found).
Proof.
  intros Hidx. revert queue acc.
  induction fuel as [|fuel IH]; intros queue acc Hq Hacc Hap Hm;
    (destruct queue as [|[[[alo ahi] blo] bhi] queue]; simpl;
     [exists acc; by rewrite app_nil_r in Hap|]);
    apply Forall_cons in Hq as [Hw Hq];
    pose proof (queue_measure_nonneg m queue Hq) as Hnn;
    pose proof Hw as (?&?&?&?&?&?); simpl in Hm; [lia|].
  destruct (findLongestMatch_block m alo ahi blo bhi Hidx Hw)
    as ([[i j] k] & -> & Hb).
  simpl. pose proof Hb as (?&?&?&?&?&Heq).
  destruct (Z.eqb_spec k 0) as [->|Hk].
  { apply IH; try done; [|lia].
    apply (all_apart_replace _ _ _ []) in Hap; [done|constructor|done]. }
  set (x := (i, j, k)).
  set (pushl := if (alo <? i) && (blo <? j) then [(alo, i, blo, j)] else []).
  set (pushr := if (i + k <? ahi) && (j + k <? bhi)
                then [(i + k, ahi, j + k, bhi)] else []).
  match goal with |- ∃ _, matching_loop _ _ ?q _ = _ ∧ _ =>
    assert (q = pushr ++ pushl ++ queue) as ->
  end.
  { subst pushl pushr. by destruct ((alo <? i) && (blo <? j)),
      ((i + k <? ahi) && (j + k <? bhi)). }
  assert (Hleft : Forall (valid_window m) pushl ∧ Forall (λ u, inside u (alo, ahi, blo, bhi)) pushl
                  ∧ Forall (λ u, before u (rect_of x)) pushl
                  ∧ queue_measure pushl ≤ Z.max 0 (i - alo + (j - blo) + 1)
                  ∧ (pushl = [] ∨ (alo < i ∧ blo < j))).
  { subst pushl. destruct (Z.ltb_spec alo i), (Z.ltb_spec blo j); simpl;
      (split_and!; [..|first [by left|right; lia]]);
      repeat constructor; unfold valid_window, inside, before, rect_of; simpl; lia. }
  assert (Hright : Forall (valid_window m) pushr
                   ∧ Forall (λ u, inside u (alo, ahi, blo, bhi)) pushr
                   ∧ Forall (before (rect_of x)) pushr
                   ∧ queue_measure pushr ≤ Z.max 0 (ahi - (i + k) + (bhi - (j + k)) + 1)
                   ∧ (pushr = [] ∨ (i + k < ahi ∧ j + k < bhi))).
  { subst pushr. destruct (Z.ltb_spec (i + k) ahi), (Z.ltb_spec (j + k) bhi); simpl;
      (split_and!; [..|first [by left|right; lia]]);
      repeat constructor; unfold valid_window, inside, before, rect_of; simpl; lia. }
  destruct Hleft as (Hl1 & Hl2 & Hl3 & Hl4 & Hl5).
  destruct Hright as (Hr1 & Hr2 & Hr3 & Hr4 & Hr5).
  assert (Hmeasure : ∀ l1 l2, queue_measure (l1 ++ l2) = queue_measure l1 + queue_measure l2).
  { intros l1 l2. induction l1 as [|w l1 IHl]; simpl; [done|]. rewrite IHl. lia. }
  apply IH.
  - repeat (apply Forall_app; split); done.
  - apply Forall_app. split; [done|]. constructor; [|constructor].
    split; [simpl; lia|]. eapply block_widen; [exact Hb|lia..].
  - rewrite fmap_app, <- app_assoc. simpl.
    replace (rect_of x :: pushr ++ pushl ++ queue)
      with ((rect_of x :: pushr ++ pushl) ++ queue)
      by (simpl; by rewrite <- app_assoc).
    eapply all_apart_replace; [exact Hap| |].
    + constructor; [unfold inside, rect_of; simpl; lia|]. by apply Forall_app.
    + simpl. split.
      * apply Forall_app. split.
        -- apply Forall_forall. intros v Hv. rewrite Forall_forall in Hr3.
           left. by apply Hr3.
        -- apply Forall_forall. intros v Hv. rewrite Forall_forall in Hl3.
           right. by apply Hl3.
      * apply all_apart_app. split; [|split].
        -- subst pushr. destruct ((i + k <? ahi) && (j + k <? bhi)); simpl;
             repeat constructor.
        -- subst pushl. destruct ((alo <? i) && (blo <? j)); simpl;
             repeat constructor.
        -- intros u v Hu Hv. right.
           rewrite Forall_forall in Hl3, Hr3.
           specialize (Hl3 _ Hv). specialize (Hr3 _ Hu). simpl in Hl3.
           destruct u as [[[? ?] ?] ?], v as [[[? ?] ?] ?].
           unfold before, rect_of in *. simpl in *. lia.
  - rewrite !Hmeasure. destruct Hl5 as [->|?], Hr5 as [->|?]; simpl in *; lia.
Qed.

(** ** Sorting and merging the recorded blocks *)

Lemma sort_insert_perm {T} (cmp : T → T → Z) x l : sort_insert cmp x l ≡ₚ x :: l.
Proof.
  induction l as [|y l IH]; simpl; [done|].
  destruct (cmp x y <=? 0); [done|]. rewrite IH. apply Permutation_swap.
Qed.

Lemma js_sort_perm {T} (cmp : T → T → Z) l : js_sort cmp l ≡ₚ l.
Proof.
  induction l as [|x l IH]; simpl; [done|].
  rewrite sort_insert_perm. by rewrite IH.
Qed.

Lemma triple_cmp_fst x y :
  (triple_cmp x y ≤ 0 → x.1.1 ≤ y.1.1) ∧ (0 < triple_cmp x y → y.1.1 ≤ x.1.1).
Proof.
  destruct x as [[xi xj] xk], y as [[yi yj] yk].
  unfold triple_cmp, _arrayCmp. simpl.
  destruct (Z.ltb_spec xi yi); [lia|].
  destruct (Z.ltb_spec yi xi); [lia|]. lia.
Qed.

Lemma js_sort_sorted l : StronglySorted fst_le (js_sort triple_cmp l).
Proof.
  induction l as [|x l IH]; simpl; [constructor|].
  generalize dependent (js_sort triple_cmp l). clear l. intros l Hs.
  induction Hs as [|y l Hs IH Hall]; simpl; [repeat constructor|].
  destruct (Z.leb_spec (triple_cmp x y) 0) as [Hle|Hgt].
  - apply triple_cmp_fst in Hle. constructor; [by constructor|].
    constructor; [done|]. eapply Forall_impl; [exact Hall|].
    intros z Hz. unfold fst_le in *. lia.
  - apply triple_cmp_fst in Hgt. constructor; [done|].
    rewrite sort_insert_perm. by constructor.
Qed.

Lemma sorted_apart_follows A B l :
  Forall (found_block A B) l → StronglySorted fst_le l →
  all_apart (rect_of <$> l) → StronglySorted follows l.
Proof.
  intros Hf Hs. induction Hs as [|x l Hs IH Hall]; [constructor|].
  rewrite fmap_cons. intros Hap. simpl in Hap. destruct Hap as [Hap1 Hap2].
  apply Forall_cons in Hf as [Hx Hf].
  constructor; [auto|]. apply Forall_forall. intros y Hy.
  rewrite Forall_forall in Hall. rewrite Forall_forall in Hf.
  rewrite Forall_forall in Hap1.
  specialize (Hall _ Hy). destruct (Hf _ Hy) as [Hky _]. destruct Hx as [Hkx _].
  specialize (Hap1 (rect_of y) ltac:(by apply list_elem_of_fmap_2)).
  destruct x as [[xi xj] xk], y as [[yi yj] yk].
  unfold follows, apart, before, rect_of, fst_le in *. simpl in *. lia.
Qed.

Lemma adjacent_snoc {T} (l : list T) z x y :
  adjacent (l ++ [z]) x y ↔ adjacent l x y ∨ (∃ l', l = l' ++ [x]) ∧ y = z.
Proof.
  split.
  - intros (l1 & l2 & Heq). destruct l2 as [|u l2 _] using rev_ind.
    + right. replace (l1 ++ [x; y]) with ((l1 ++ [x]) ++ [y]) in Heq
        by (by rewrite <- app_assoc).
      apply app_inj_tail in Heq as [-> ->]. eauto.
    + left. replace (l1 ++ x :: y :: l2 ++ [u]) with ((l1 ++ x :: y :: l2) ++ [u]) in Heq
        by (by rewrite <- app_assoc).
      apply app_inj_tail in Heq as [-> ->]. by exists l1, l2.
  - intros [(l1 & l2 & ->)|[[l' ->] ->]].
    + exists l1, (l2 ++ [z]). by rewrite <- app_assoc.
    + exists l', []. by rewrite <- app_assoc.
Qed.

Lemma whole_block_merge A B i1 j1 k1 k2 :
  whole_block A B (i1, j1, k1) → whole_block A B (i1 + k1, j1 + k1, k2) →
  whole_block A B (i1, j1, k1 + k2).
Proof.
  intros (?&?&?&?&?&Heq1) (?&?&?&?&?&Heq2). repeat split; try lia.
  intros s Hs. destruct (decide (s < k1)); [apply Heq1; lia|].
  replace (i1 + s) with (i1 + k1 + (s - k1)) by lia.
  replace (j1 + s) with (j1 + k1 + (s - k1)) by lia. apply Heq2. lia.
Qed.

Lemma collapse_fold A B st rest :
  (st = ((0, 0, 0), []) ∨ 1 ≤ st.1.2) →
  Forall (found_block A B) (settled st ++ rest) →
  StronglySorted follows (settled st ++ rest) →
  (∀ x y, adjacent (settled st) x y → ¬ touching x y) →
  tidy A B (settled (foldl collapse_step st rest)).
Proof.
  revert st. induction rest as [|y rest IH]; intros st Hst Hf Hs Hnt; simpl.
  - rewrite app_nil_r in Hf, Hs. done.
  - destruct y as [[i2 j2] k2].
    assert (Hy : found_block A B (i2, j2, k2)).
    { rewrite Forall_app, Forall_cons in Hf. tauto. }
    pose proof Hy as [Hk2 Hb2]. simpl in Hk2.
    destruct Hst as [->|Hk1].
    + (* the initial dummy *)
      assert (settled (collapse_step ((0, 0, 0), []) (i2, j2, k2)) = [(i2, j2, k2)]
              ∧ 1 ≤ (collapse_step ((0, 0, 0), []) (i2, j2, k2)).1.2) as [Hset Hk].
      { unfold collapse_step, settled. cbn -[Z.eqb Z.add].
        replace (0 + 0) with 0 by lia. rewrite Z.add_0_l.
        destruct (Z.eqb_spec 0 i2) as [<-|]; cbn -[Z.eqb Z.add];
          [destruct (Z.eqb_spec 0 j2) as [<-|]|]; cbn -[Z.eqb Z.add];
          (destruct (Z.eqb_spec k2 0); [lia|split; [done|lia]]). }
      apply IH; [by right|rewrite Hset; exact Hf|rewrite Hset; exact Hs|].
      rewrite Hset. intros x y (l1 & l2 & Heq).
      destruct l1 as [|? [|? ?]]; simplify_eq.
    + destruct st as [[[i1 j1] k1] out]. simpl in Hk1.
      unfold settled in Hf, Hs, Hnt. simpl in Hf, Hs, Hnt.
      destruct (Z.eqb_spec k1 0) as [|_]; [lia|].
      unfold collapse_step.
      destruct ((i1 + k1 =? i2) && (j1 + k1 =? j2)) eqn:E.
      * (* the two blocks touch *)
        apply andb_prop in E as [E1 E2]. apply Z.eqb_eq in E1, E2. subst i2 j2.
        rewrite <- app_assoc in Hf, Hs. simpl in Hf, Hs.
        apply IH.
        -- right. simpl. lia.
        -- unfold settled. simpl. destruct (Z.eqb_spec (k1 + k2) 0); [lia|].
           rewrite <- app_assoc. simpl.
           apply Forall_app in Hf as [Hf1 Hf2].
           apply Forall_cons in Hf2 as [Hc Hf2]. apply Forall_cons in Hf2 as [_ Hf2].
           apply Forall_app. split; [done|]. constructor; [|done].
           split; [simpl; lia|]. apply whole_block_merge; [apply Hc|apply Hy].
        -- unfold settled. simpl. destruct (Z.eqb_spec (k1 + k2) 0); [lia|].
           rewrite <- app_assoc. simpl.
           apply StronglySorted_app in Hs as (H1 & H2 & H3).
           apply StronglySorted_cons in H3 as [H3 H4].
           apply StronglySorted_cons in H4 as [H4 H5].
           apply StronglySorted_app. split; [|split; [done|]].
           ++ intros x1 x2 Hx1 Hx2. apply elem_of_cons in Hx2 as [->|Hx2].
              ** specialize (H1 x1 (i1, j1, k1) Hx1 ltac:(left)).
                 destruct x1 as [[? ?] ?].
                 unfold follows, before, rect_of in *. simpl in *. done.
              ** apply H1; [done|]. right. by right.
           ++ constructor; [done|]. eapply Forall_impl; [exact H4|].
              intros [[? ?] ?]. unfold follows, before, rect_of. simpl. lia.
        -- unfold settled. simpl. destruct (Z.eqb_spec (k1 + k2) 0); [lia|].
           intros x y Hadj. apply adjacent_snoc in Hadj as [Hadj|[Hl ->]].
           ++ apply Hnt, adjacent_snoc. by left.
           ++ intros Ht. apply (Hnt x (i1, j1, k1)); [apply adjacent_snoc; by right|].
              unfold touching in *. simpl in *. done.
      * (* they do not *)
        destruct (Z.eqb_spec k1 0) as [|_]; [lia|].
        apply IH.
        -- right. simpl. lia.
        -- unfold settled. simpl. destruct (Z.eqb_spec k2 0); [lia|].
           by rewrite <- !app_assoc in *.
        -- unfold settled. simpl. destruct (Z.eqb_spec k2 0); [lia|].
           by rewrite <- !app_assoc in *.
        -- unfold settled. simpl. destruct (Z.eqb_spec k2 0); [lia|].
           intros x y Hadj. apply adjacent_snoc in Hadj as [Hadj|[[l' Hl] ->]].
           ++ by apply Hnt.
           ++ apply app_inj_tail in Hl as [_ <-]. unfold touching. simpl.
              apply andb_false_iff in E as [E|E]; apply Z.eqb_neq in E; lia.
Qed.

Lemma collapse_tidy A B l :
  Forall (found_block A B) l → StronglySorted follows l → tidy A B (collapse l).
Proof.
  intros Hf Hs. unfold collapse.
  pose proof (collapse_fold A B ((0, 0, 0), []) l) as H.
  destruct (foldl collapse_step (0, 0, 0, []) l) as [[[i1 j1] k1] out].
  unfold settled in H. simpl in H. apply H; [by left|done|done|].
  intros x y (l1 & l2 & Heq). by destruct l1.
Qed.

(** ** getMatchingBlocks on an indexed matcher *)

Lemma getMatchingBlocks_indexed m :
  indexed m → matchingBlocks m = None →
  ∃ body,
    let blocks := body ++ [(len (a m), len (b m), 0)] in
    getMatchingBlocks m = Ok (blocks, with_matchingBlocks m (Some blocks))
    ∧ tidy (a m) (b m) body.
Proof.
  intros Hidx Hnone. unfold getMatchingBlocks. rewrite Hnone.
  set (la := len (a m)). set (lb := len (b m)).
  assert (0 ≤ la ∧ 0 ≤ lb) as [Hla Hlb] by (unfold la, lb, len; lia).
  destruct (matching_loop_spec m (Z.to_nat (la + lb + 1)) [(0, la, 0, lb)] [])
    as (found & -> & Hf & Hap); try done.
  - repeat constructor; unfold la, lb; lia.
  - simpl. lia.
  - simpl. eexists. split; [done|].
    apply collapse_tidy.
    + by rewrite js_sort_perm.
    + eapply sorted_apart_follows.
      * by rewrite js_sort_perm.
      * apply js_sort_sorted.
      * eapply all_apart_perm; [|exact Hap]. apply fmap_Permutation.
        symmetry. apply js_sort_perm.
Qed.

Lemma adjacent_follows l x y :
  StronglySorted follows l → adjacent l x y → follows x y.
Proof.
  intros Hs (l1 & l2 & ->). apply StronglySorted_app_1_r in Hs.
  apply StronglySorted_cons in Hs as [Hs _]. by apply Forall_cons in Hs as [? _].
Qed.

Lemma tidy_canonical A B body :
  tidy A B body → canonical A B (body ++ [(len A, len B, 0)]).
Proof.
  intros (Hf & Hs & Hnt). exists body. split; [done|]. split; [|split].
  - apply Forall_app. split.
    + eapply Forall_impl; [exact Hf|]. by intros x [_ ?].
    + constructor; [|constructor]. unfold whole_block, block, len.
      repeat split; lia.
  - eapply Forall_impl; [exact Hf|]. intros x [? _]. lia.
  - intros x y Hadj. pose proof (adjacent_follows _ _ _ Hs Hadj) as Hxy.
    assert (1 ≤ x.2) as Hk.
    { destruct Hadj as (l1 & l2 & ->). rewrite Forall_app, Forall_cons in Hf.
      by destruct Hf as (_ & [? _] & _). }
    destruct x as [[? ?] ?], y as [[? ?] ?].
    unfold follows, before, rect_of in Hxy. simpl in *. split_and!; [lia|lia|auto].
Qed.

(** ** getOpcodes *)

Lemma foldl_opcode_step i j answer blocks :
  (foldl opcode_step (i, j, answer) blocks).2 = answer ++ ops_from i j blocks.
Proof.
  revert i j answer. induction blocks as [|[[ai bj] size] rest IH]; intros i j answer; simpl.
  - by rewrite app_nil_r.
  - rewrite IH. unfold edit.
    destruct ((i <? ai) && (j <? bj)); [|destruct (i <? ai); [|destruct (j <? bj)]];
      destruct (size =? 0); simpl; by rewrite <- ?app_assoc.
Qed.

Lemma opcodes_of_ops_from blocks : opcodes_of blocks = ops_from 0 0 blocks.
Proof. unfold opcodes_of. by rewrite foldl_opcode_step. Qed.

Lemma sorted_lined l i j :
  StronglySorted follows l → Forall (λ x : triple, 0 ≤ x.2) l →
  Forall (λ x : triple, i ≤ x.1.1 ∧ j ≤ x.1.2) l → lined i j l.
Proof.
  intros Hs. revert i j. induction Hs as [|[[ai bj] size] l Hs IH Hall]; intros i j Hk Ha;
    simpl; [done|].
  apply Forall_cons in Hk as [? Hk]. apply Forall_cons in Ha as [[? ?] _].
  split_and!; [done..|]. apply IH; [done|].
  eapply Forall_impl; [exact Hall|]. intros [[? ?] ?].
  unfold follows, before, rect_of. simpl. lia.
Qed.

Lemma tidy_lined A B body :
  tidy A B body → lined 0 0 (body ++ [(len A, len B, 0)]).
Proof.
  intros (Hf & Hs & _). apply sorted_lined.
  - apply StronglySorted_app. split_and!; [|done|repeat constructor].
    intros x y Hx Hy. apply list_elem_of_singleton in Hy as ->.
    rewrite Forall_forall in Hf. destruct (Hf _ Hx) as [_ Hb].
    destruct x as [[? ?] ?]. destruct Hb as (?&?&?&?&?&_).
    unfold follows, before, rect_of. simpl. lia.
  - apply Forall_app. split; [|repeat constructor; simpl; lia].
    eapply Forall_impl; [exact Hf|]. intros x [? _]. lia.
  - apply Forall_app. split; [|repeat constructor; unfold len; simpl; lia].
    eapply Forall_impl; [exact Hf|]. intros [[? ?] ?] [_ (?&?&_)]. simpl. lia.
Qed.

Lemma tiles_app i j l1 i1 j1 l2 i2 j2 :
  tiles i j l1 i1 j1 → tiles i1 j1 l2 i2 j2 → tiles i j (l1 ++ l2) i2 j2.
Proof.
  revert i j. induction l1 as [|[[[[? ?] ?] ?] ?] l1 IH]; intros i j; simpl.
  - by intros [-> ->].
  - intros (-> & -> & ?) ?. split_and!; [done..|]. by apply IH.
Qed.

Lemma edit_tiles i j ai bj : i ≤ ai → j ≤ bj → tiles i j (edit i j ai bj) ai bj.
Proof.
  intros. unfold edit.
  destruct (Z.ltb_spec i ai), (Z.ltb_spec j bj); simpl; split_and?; lia.
Qed.

Lemma edit_shape i j ai bj :
  i ≤ ai → j ≤ bj →
  Forall (λ c, op_shape c ∧ tag_of c ≠ equal_) (edit i j ai bj).
Proof.
  intros. unfold edit.
  destruct (Z.ltb_spec i ai), (Z.ltb_spec j bj); simpl; repeat constructor;
    simpl; try lia; done.
Qed.

Lemma ops_from_tiles i j l i' j' :
  lined i j l → last l = Some (i', j', 0) → tiles i j (ops_from i j l) i' j'.
Proof.
  revert i j. induction l as [|[[ai bj] size] l IH]; intros i j; simpl; [done|].
  intros (Hi & Hj & Hk & Hl) Hlast.
  eapply tiles_app; [by apply edit_tiles|].
  eapply (tiles_app _ _ _ (ai + size) (bj + size)).
  - destruct (Z.eqb_spec size 0) as [->|]; simpl; split_and?; lia.
  - destruct l as [|y l].
    + simpl in *. injection Hlast as <- <- ->. lia.
    + apply IH; [done|]. by rewrite last_cons_cons in Hlast.
Qed.

Lemma ops_from_shape i j l :
  lined i j l → Forall op_shape (ops_from i j l).
Proof.
  revert i j. induction l as [|[[ai bj] size] l IH]; intros i j; simpl; [constructor|].
  intros (Hi & Hj & Hk & Hl). apply Forall_app. split.
  - eapply Forall_impl; [by apply edit_shape|]. by intros c [? _].
  - apply Forall_app. split; [|by apply IH].
    destruct (Z.eqb_spec size 0); repeat constructor; simpl; lia.
Qed.

Lemma ops_from_equal A B i j l i1 i2 j1 j2 :
  Forall (whole_block A B) l → lined i j l →
  (equal_, i1, i2, j1, j2) ∈ ops_from i j l → whole_block A B (i1, j1, i2 - i1).
Proof.
  revert i j. induction l as [|[[ai bj] size] l IH]; intros i j Hf; simpl.
  - intros _ Hin. by apply elem_of_nil in Hin.
  - intros (Hi & Hj & Hk & Hl) Hin. apply Forall_cons in Hf as [Hx Hf].
    apply elem_of_app in Hin as [Hin|Hin].
    + pose proof (edit_shape i j ai bj Hi Hj) as Hs. rewrite Forall_forall in Hs.
      destruct (Hs _ Hin) as [_ Hne]. done.
    + apply elem_of_app in Hin as [Hin|Hin]; [|by eapply IH].
      destruct (size =? 0); [by apply elem_of_nil in Hin|].
      apply list_elem_of_singleton in Hin. injection Hin as -> -> -> ->.
      by replace (ai + size - ai) with size by lia.
Qed.

Lemma adjacent_app {T} (l1 l2 : list T) x y :
  adjacent (l1 ++ l2) x y →
  adjacent l1 x y ∨ adjacent l2 x y ∨ (last l1 = Some x ∧ head l2 = Some y).
Proof.
  revert l1. induction l2 as [|z l2 IH] using rev_ind; intros l1 Hadj.
  - rewrite app_nil_r in Hadj. by left.
  - rewrite app_assoc in Hadj. apply adjacent_snoc in Hadj as [Hadj|[[l' Hl] ->]].
    + destruct (IH _ Hadj) as [?|[Hadj'|[? Hh]]]; [by left| |].
      * right. left. apply adjacent_snoc. by left.
      * right. right. split; [done|]. by destruct l2.
    + destruct l2 as [|u l2 _] using rev_ind.
      * right. right. rewrite app_nil_r in Hl. subst l1. by rewrite last_snoc.
      * right. left. rewrite app_assoc in Hl. apply app_inj_tail in Hl as [_ ->].
        apply adjacent_snoc. right. eauto.
Qed.

Lemma ops_from_alternate body s i j :
  Forall (λ x : triple, 1 ≤ x.2) body → s.2 = 0 →
  lined i j (body ++ [s]) →
  (∀ x y, adjacent body x y → ¬ touching x y) →
  (∀ x y, adjacent (ops_from i j (body ++ [s])) x y →
     ¬ (tag_of x = equal_ ∧ tag_of y = equal_))
  ∧ (∀ c, head (ops_from i j (body ++ [s])) = Some c → tag_of c = equal_ →
       ∃ x body', body = x :: body' ∧ x.1.1 = i ∧ x.1.2 = j).
Proof.
  intros Hk Hs. revert i j. induction Hk as [|[[ai bj] size] body Hsize Hk IH];
    intros i j Hl Hnt.
  - destruct s as [[si sj] sk]. simpl in Hs. subst sk. simpl in *.
    destruct Hl as (Hi & Hj & _). rewrite app_nil_r.
    pose proof (edit_shape i j si sj Hi Hj) as He.
    unfold edit in *.
    destruct ((i <? si) && (j <? sj)); [|destruct (i <? si); [|destruct (j <? sj)]].
    all: split; [intros x y (l1 & l2 & Heq); by destruct l1 as [|? [|? ?]]|].
    all: intros c Hc; simpl in Hc; simplify_eq; done.
  - simpl in Hsize. simpl in Hl. destruct Hl as (Hi & Hj & _ & Hl).
    destruct (IH _ _ Hl) as [IH1 IH2].
    { intros x y Hadj. apply Hnt. destruct Hadj as (l1 & l2 & ->).
      by exists ((ai, bj, size) :: l1), l2. }
    simpl. destruct (Z.eqb_spec size 0) as [|_]; [lia|].
    pose proof (edit_shape i j ai bj Hi Hj) as He. rewrite Forall_forall in He.
    set (eq := (equal_, ai, ai + size, bj, bj + size)).
    set (rest := ops_from (ai + size) (bj + size) (body ++ [s])) in *.
    assert (Hrest : ∀ x y, adjacent ([eq] ++ rest) x y →
                      ¬ (tag_of x = equal_ ∧ tag_of y = equal_)).
    { intros x y Hadj [Hx Hy].
      apply adjacent_app in Hadj as [(l1 & l2 & Heq)|[Hadj|[Hlast Hhead]]].
      - by destruct l1 as [|? [|? ?]].
      - by apply (IH1 x y).
      - destruct (IH2 _ Hhead Hy) as ([[yi yj] yk] & body' & -> & Hyi & Hyj).
        apply (Hnt (ai, bj, size) (yi, yj, yk)); [by exists [], body'|].
        unfold touching. simpl in *. lia. }
    split.
    + intros x y Hadj [Hx Hy].
      apply adjacent_app in Hadj as [(l1 & l2 & Heq)|[Hadj|[Hlast Hhead]]].
      * unfold edit in Heq.
        destruct ((i <? ai) && (j <? bj)); [|destruct (i <? ai); [|destruct (j <? bj)]];
          by destruct l1 as [|? [|? ?]].
      * by apply (Hrest x y).
      * assert (x ∈ edit i j ai bj) as Hin.
        { destruct (edit i j ai bj) as [|e l] using rev_ind; [done|].
          rewrite last_snoc in Hlast. injection Hlast as ->. set_solver. }
        by destruct (He _ Hin).
    + intros c Hc Htag. exists (ai, bj, size), body. split; [done|]. simpl.
      unfold edit in *.
      destruct (Z.ltb_spec i ai), (Z.ltb_spec j bj); simpl in Hc; simplify_eq;
        try done. lia.
Qed.

Lemma opcodes_of_ok A B body :
  tidy A B body → opcodes_ok A B (opcodes_of (body ++ [(len A, len B, 0)])).
Proof.
  intros Ht. pose proof (tidy_lined A B body Ht) as Hl.
  pose proof (tidy_canonical A B body Ht) as (body' & Heq & Hw & _).
  destruct Ht as (Hf & Hs & Hnt).
  rewrite opcodes_of_ops_from. split.
  - apply ops_from_tiles; [done|]. by rewrite last_snoc.
  - by apply ops_from_shape.
  - intros i1 i2 j1 j2. by apply ops_from_equal.
  - apply ops_from_alternate; try done.
    eapply Forall_impl; [exact Hf|]. by intros x [? _].
Qed.

Lemma getOpcodes_indexed m :
  indexed m → matchingBlocks m = None → opcodes m = None →
  ∃ codes m', getOpcodes m = Ok (codes, m') ∧ opcodes_ok (a m) (b m) codes.
Proof.
  intros Hidx Hmb Hop. unfold getOpcodes. rewrite Hop.
  destruct (getMatchingBlocks_indexed m Hidx Hmb) as (body & -> & Ht). simpl.
  eexists _, _. split; [done|]. by apply opcodes_of_ok.
Qed.

(** ** The matcher of the search loops of [_fancyReplace] *)

Lemma indexed_with_matchingBlocks m x : indexed m → indexed (with_matchingBlocks m x).
Proof. by apply indexed_ext. Qed.

Lemma indexed_with_opcodes m x : indexed m → indexed (with_opcodes m x).
Proof. by apply indexed_ext. Qed.

Lemma indexed_with_fullbcount m x : indexed m → indexed (with_fullbcount m x).
Proof. by apply indexed_ext. Qed.

Lemma indexed_setSeq1 m x : indexed m → indexed (setSeq1 m x).
Proof.
  unfold setSeq1. destruct (strict_eq x (a m)); [done|]. by apply indexed_ext.
Qed.

Lemma indexed_setSeq2 m x :
  indexed m ∨ strict_eq x (b m) = false → indexed (setSeq2 m x).
Proof.
  unfold setSeq2. destruct (strict_eq x (b m)); [by intros [?|?]|].
  intros _. apply chainB_indexed.
Qed.

Lemma getMatchingBlocks_ok m :
  indexed m → ∃ blocks m', getMatchingBlocks m = Ok (blocks, m') ∧ indexed m'.
Proof.
  intros Hidx. destruct (matchingBlocks m) as [blocks|] eqn:E.
  - unfold getMatchingBlocks. rewrite E. eauto.
  - destruct (getMatchingBlocks_indexed m Hidx E) as (body & -> & _).
    eexists _, _. split; [done|]. by apply indexed_with_matchingBlocks.
Qed.

Lemma getOpcodes_ok m :
  indexed m → ∃ codes m', getOpcodes m = Ok (codes, m') ∧ indexed m'.
Proof.
  intros Hidx. unfold getOpcodes. destruct (opcodes m) as [codes|]; [eauto|].
  destruct (getMatchingBlocks_ok m Hidx) as (blocks & m' & -> & ?). simpl.
  eexists _, _. split; [done|]. by apply indexed_with_opcodes.
Qed.

Lemma ratio_ok m :
  indexed m → ∃ r m', ratio m = Ok (r, m') ∧ indexed m'.
Proof.
  intros Hidx. unfold ratio.
  destruct (getMatchingBlocks_ok m Hidx) as (blocks & m' & -> & ?). simpl. eauto.
Qed.

Lemma indexed_quickRatio m : indexed m → indexed (quickRatio m).2.
Proof. unfold quickRatio. simpl. apply indexed_with_fullbcount. Qed.

(** ** Reading a delta back *)

Lemma restore_1 delta : restore delta 1 = Ok (omap (keep "- ") delta).
Proof. done. Qed.

Lemma restore_2 delta : restore delta 2 = Ok (omap (keep "+ ") delta).
Proof. done. Qed.

Lemma side1_app l1 l2 : side1 (l1 ++ l2) = side1 l1 ++ side1 l2.
Proof. apply omap_app. Qed.

Lemma side2_app l1 l2 : side2 (l1 ++ l2) = side2 l1 ++ side2 l2.
Proof. apply omap_app. Qed.

Lemma at_slice X lo hi :
  0 ≤ lo → lo ≤ hi → hi ≤ len X →
  (λ i, key_of (at_ X i)) <$> seqZ lo (hi - lo) = slice (elems X) lo hi.
Proof.
  intros Hlo Hle Hhi. unfold slice, len in *.
  apply list_eq. intros n. rewrite list_lookup_fmap.
  destruct (decide (Z.of_nat n < hi - lo)) as [Hn|Hn].
  - rewrite lookup_seqZ_lt by done. simpl.
    rewrite lookup_take_lt by lia. rewrite lookup_drop.
    unfold at_. destruct (decide (0 ≤ lo + Z.of_nat n)); [|lia].
    replace (Z.to_nat (lo + Z.of_nat n)) with (Z.to_nat lo + n)%nat by lia.
    destruct (lookup_lt_is_Some_2 (elems X) (Z.to_nat lo + n)) as [x ->]; [lia|done].
  - rewrite lookup_seqZ_ge by lia. simpl. symmetry.
    apply lookup_ge_None. rewrite length_take, length_drop. lia.
Qed.

Lemma range_seqZ lo hi : lo ≤ hi → __range__ lo hi false = seqZ lo (hi - lo).
Proof.
  intros Hle. unfold __range__. simpl. destruct (Z.ltb_spec lo hi); [done|].
  assert (hi = lo) as -> by lia. by rewrite !seqZ_nil by lia.
Qed.

Lemma dump_fmap tag X lo hi :
  0 ≤ lo → lo ≤ hi → hi ≤ len X →
  _dump tag X lo hi = (λ x, tag +:+ " " +:+ x) <$> slice (elems X) lo hi.
Proof.
  intros. unfold _dump. rewrite range_seqZ by done.
  rewrite <- at_slice by done. by rewrite <- list_fmap_compose.
Qed.

Lemma omap_fmap_Some {T U} (f : T → U) (g : U → option T) (l : list T) :
  (∀ x, g (f x) = Some x) → omap g (f <$> l) = l.
Proof.
  intros H. induction l as [|x l IH]; simpl; [done|]. rewrite H. f_equal. apply IH.
Qed.

Lemma omap_fmap_None {T U V} (f : T → U) (g : U → option V) (l : list T) :
  (∀ x, g (f x) = None) → omap g (f <$> l) = [].
Proof.
  intros H. induction l as [|x l IH]; simpl; [done|]. rewrite H. apply IH.
Qed.

Section dump.
Context (X : seq) (lo hi : Z).
Hypothesis Hlo : 0 ≤ lo.
Hypothesis Hle : lo ≤ hi.
Hypothesis Hhi : hi ≤ len X.

Lemma side1_dump_minus : side1 (_dump "-" X lo hi) = slice (elems X) lo hi.
Proof. rewrite dump_fmap by done. by apply omap_fmap_Some. Qed.
Lemma side2_dump_minus : side2 (_dump "-" X lo hi) = [].
Proof. rewrite dump_fmap by done. by apply omap_fmap_None. Qed.
Lemma side1_dump_plus : side1 (_dump "+" X lo hi) = [].
Proof. rewrite dump_fmap by done. by apply omap_fmap_None. Qed.
Lemma side2_dump_plus : side2 (_dump "+" X lo hi) = slice (elems X) lo hi.
Proof. rewrite dump_fmap by done. by apply omap_fmap_Some. Qed.
Lemma side1_dump_space : side1 (_dump " " X lo hi) = slice (elems X) lo hi.
Proof. rewrite dump_fmap by done. by apply omap_fmap_Some. Qed.
Lemma side2_dump_space : side2 (_dump " " X lo hi) = slice (elems X) lo hi.
Proof. rewrite dump_fmap by done. by apply omap_fmap_Some. Qed.
End dump.

Lemma side1_qformat aline bline atags btags :
  side1 (_qformat aline bline atags btags) = [aline].
Proof.
  unfold _qformat. cbv zeta.
  do 2 destruct (bool_decide _); reflexivity.
Qed.

Lemma side2_qformat aline bline atags btags :
  side2 (_qformat aline bline atags btags) = [bline].
Proof.
  unfold _qformat. cbv zeta.
  do 2 destruct (bool_decide _); reflexivity.
Qed.

(** ** Slices *)

Lemma slice_split {T} (l : list T) lo mid hi :
  0 ≤ lo → lo ≤ mid → mid ≤ hi →
  slice l lo hi = slice l lo mid ++ slice l mid hi.
Proof.
  intros. unfold slice.
  replace (drop (Z.to_nat mid) l)
    with (drop (Z.to_nat mid - Z.to_nat lo) (drop (Z.to_nat lo) l))
    by (rewrite drop_drop; f_equal; lia).
  rewrite take_take_drop. f_equal. lia.
Qed.

Lemma slice_one (X : seq) i x :
  at_ X i = Some x → slice (elems X) i (i + 1) = [x].
Proof.
  unfold at_, slice. destruct (decide (0 ≤ i)); [|done]. intros Hx.
  replace (Z.to_nat (i + 1) - Z.to_nat i)%nat with 1%nat by lia.
  rewrite <- (take_drop_middle _ _ _ Hx) at 1.
  rewrite drop_app_length'; [done|]. rewrite length_take.
  apply lookup_lt_Some in Hx. lia.
Qed.

Lemma slice_all {T} (l : list T) : slice l 0 (Z.of_nat (length l)) = l.
Proof.
  unfold slice. simpl. rewrite Nat.sub_0_r, Nat2Z.id. apply firstn_all.
Qed.

Lemma slice_empty {T} (l : list T) lo : slice l lo lo = [].
Proof. unfold slice. by rewrite Nat.sub_diag. Qed.

Lemma whole_block_slice A B i j k :
  whole_block A B (i, j, k) →
  slice (elems A) i (i + k) = slice (elems B) j (j + k).
Proof.
  intros (?&?&?&?&?&Heq).
  rewrite <- !at_slice by lia.
  replace (i + k - i) with k by lia. replace (j + k - j) with k by lia.
  rewrite <- (Z.add_0_r i) at 1. rewrite <- (Z.add_0_r j) at 1.
  rewrite <- !fmap_add_seqZ, <- !list_fmap_compose.
  apply Forall_fmap_ext_1, Forall_seqZ. intros s Hs. simpl.
  by rewrite Heq by lia.
Qed.

(** ** The search loops of [_fancyReplace] *)

Lemma foldlM_inv {S T} (f : S → T → result S) (Inv : S → Prop) (P : T → Prop) l st :
  (∀ st x, Inv st → P x → ∃ st2, f st x = Ok st2 ∧ Inv st2) →
  Forall P l → Inv st → ∃ st2, foldlM f st l = Ok st2 ∧ Inv st2.
Proof.
  intros Hf Hl. revert st. induction Hl as [|x l Hx Hl IH]; intros st Hst; simpl.
  - eauto.
  - destruct (Hf st x Hst Hx) as (st2 & -> & Hst2). simpl. by apply IH.
Qed.

Section search.
Context (A B : seq) (alo ahi blo bhi : Z).
Hypothesis Ha : 0 ≤ alo ∧ ahi ≤ len A.
Hypothesis Hb : 0 ≤ blo ∧ bhi ≤ len B.

Lemma search_step_ok j bj st i :
  indexed (cruncher st) → search_ok A B alo ahi blo bhi st →
  alo ≤ i < ahi → blo ≤ j < bhi → at_ B j = Some bj →
  ∃ st2, search_step A j bj st i = Ok st2
         ∧ indexed (cruncher st2) ∧ search_ok A B alo ahi blo bhi st2.
Proof.
  intros Hidx [H1 H2 H3] Hi Hj Hbj. unfold search_step.
  destruct (at_Some A i) as [ai Hai]; [lia|]. rewrite Hai.
  destruct (bool_decide (ai = bj)) eqn:E.
  { apply bool_decide_eq_true in E. subst ai.
    eexists. split; [done|]. split; [done|]. split; simpl; [done| |done].
    intros i2 j2. destruct (eqij st) as [[ei ej]|] eqn:Ee.
    - intros [= <- <-]. by apply H2.
    - intros [= <- <-]. split_and!; try lia. congruence. }
  set (c := setSeq1 (cruncher st) (Str ai)).
  assert (Hc : indexed c) by by apply indexed_setSeq1.
  destruct (Qlt_bool (bestRatio st) (realQuickRatio c)).
  2:{ eexists. split; [done|]. split; [done|]. by split. }
  pose proof (indexed_quickRatio c Hc) as Hq.
  destruct (quickRatio c) as [q c1]. simpl in Hq.
  destruct (Qlt_bool (bestRatio st) q).
  2:{ eexists. split; [done|]. split; [done|]. by split. }
  destruct (ratio_ok c1 Hq) as (r & c2 & -> & Hc2). simpl.
  destruct (Qlt_bool (bestRatio st) r).
  2:{ eexists. split; [done|]. split; [done|]. by split. }
  destruct (ratio_ok c2 Hc2) as (r2 & c3 & -> & Hc3). simpl.
  eexists. split; [done|]. split; [done|]. split; simpl; [|done|done].
  intros i2 j2 [= <- <-]. lia.
Qed.

Lemma search_row_ok st j :
  (∀ x, at_ B j = Some x → x ≠ "") →
  indexed (cruncher st) ∨ b (cruncher st) = Str "" →
  search_ok A B alo ahi blo bhi st → alo ≤ ahi → blo ≤ j < bhi →
  ∃ st2, search_row A B alo ahi st j = Ok st2
         ∧ indexed (cruncher st2) ∧ search_ok A B alo ahi blo bhi st2.
Proof.
  intros Hne Hready Hok Hle Hj. unfold search_row.
  destruct (at_Some B j) as [bj Hbj]; [lia|]. rewrite Hbj.
  set (c := setSeq2 (cruncher st) (Str bj)).
  assert (Hc : indexed c).
  { apply indexed_setSeq2. destruct Hready as [?|Hbe]; [by left|right; rewrite Hbe].
    simpl. apply bool_decide_eq_false. by apply Hne. }
  unfold for_range. destruct (Z.leb_spec alo ahi); [|lia].
  apply (foldlM_inv _ (λ st2, indexed (cruncher st2) ∧ search_ok A B alo ahi blo bhi st2)
           (λ i, alo ≤ i < ahi)).
  - intros st2 i [??] ?. by apply search_step_ok.
  - apply Forall_seqZ. lia.
  - split; [done|]. by destruct Hok.
Qed.

Lemma search_ok_all cj :
  (∀ j x, at_ B j = Some x → x ≠ "") → alo ≤ ahi → blo < bhi →
  ∃ st, foldlM (search_row A B alo ahi)
          (mkSearch (new_SequenceMatcher cj None None None) (74 # 100)%Q None None)
          (for_range blo bhi) = Ok st
        ∧ indexed (cruncher st) ∧ search_ok A B alo ahi blo bhi st.
Proof.
  intros Hne Hle Hlt. unfold for_range. destruct (Z.leb_spec blo bhi); [|lia].
  rewrite seqZ_cons by lia. simpl.
  edestruct (search_row_ok
               (mkSearch (new_SequenceMatcher cj None None None) (74 # 100)%Q None None)
               blo) as (st1 & -> & Hidx & Hok); [by eauto|by right| |done|lia|].
  { by split. }
  simpl.
  apply (foldlM_inv _ (λ st2, indexed (cruncher st2) ∧ search_ok A B alo ahi blo bhi st2)
           (λ j, blo ≤ j < bhi)).
  - intros st2 j [??] ?. apply search_row_ok; eauto.
  - apply Forall_seqZ. lia.
  - done.
Qed.
End search.

(** ** _fancyReplace, _fancyHelper and compare *)

Section fancy.
Context (d : Differ) (A B : seq).
Hypothesis Hne : ∀ j x, at_ B j = Some x → x ≠ "".

Local Abbreviation sides := (sides A B).

Lemma plainReplace_sides alo ahi blo bhi :
  0 ≤ alo → alo < ahi → ahi ≤ len A → 0 ≤ blo → blo < bhi → bhi ≤ len B →
  sides alo ahi blo bhi (_plainReplace A alo ahi B blo bhi).
Proof.
  intros. unfold _plainReplace.
  destruct (Z.ltb_spec alo ahi); [|lia]. destruct (Z.ltb_spec blo bhi); [|lia].
  simpl. destruct (bhi - blo <? ahi - alo); eexists; (split; [done|]);
    rewrite side1_app, side2_app, side1_dump_minus, side2_dump_minus,
      side1_dump_plus, side2_dump_plus by lia; by rewrite ?app_nil_r.
Qed.

Lemma fancyHelper_sides rec alo ahi blo bhi :
  (alo < ahi → blo < bhi → sides alo ahi blo bhi (rec A alo ahi B blo bhi)) →
  0 ≤ alo → alo ≤ ahi → ahi ≤ len A → 0 ≤ blo → blo ≤ bhi → bhi ≤ len B →
  sides alo ahi blo bhi (_fancyHelper_with rec A alo ahi B blo bhi).
Proof.
  intros Hrec ??????. unfold _fancyHelper_with.
  destruct (Z.ltb_spec alo ahi), (Z.ltb_spec blo bhi); [by apply Hrec|..].
  - assert (bhi = blo) as -> by lia. eexists. split; [done|].
    rewrite side1_dump_minus, side2_dump_minus by lia. by rewrite slice_empty.
  - assert (ahi = alo) as -> by lia. eexists. split; [done|].
    rewrite side1_dump_plus, side2_dump_plus by lia. by rewrite slice_empty.
  - assert (ahi = alo) as -> by lia. assert (bhi = blo) as -> by lia.
    eexists. split; [done|]. by rewrite !slice_empty.
Qed.

Lemma fancyReplace_sides fuel alo ahi blo bhi :
  0 ≤ alo → alo < ahi → ahi ≤ len A → 0 ≤ blo → blo < bhi → bhi ≤ len B →
  ahi - alo + (bhi - blo) ≤ Z.of_nat fuel →
  sides alo ahi blo bhi (_fancyReplace fuel d A alo ahi B blo bhi).
Proof.
  revert alo ahi blo bhi.
  induction fuel as [|fuel IH]; intros alo ahi blo bhi Ha0 Ha1 Ha2 Hb0 Hb1 Hb2 Hsz;
    [lia|].
  cbn [_fancyReplace].
  destruct (search_ok_all A B alo ahi blo bhi ltac:(lia) ltac:(lia) (charjunk d))
    as (st & -> & Hidx & [Hbest Heq Hratio]); [done|lia|lia|].
  cbn [mbind result_bind].
  set (synch := if Qlt_bool (bestRatio st) (75 # 100)%Q
                then match eqij st with None => None | Some e => Some (e, true) end
                else match best st with None => None | Some p => Some (p, false) end).
  assert (Hsynch :
    match synch with
    | None => Qlt_bool (bestRatio st) (75 # 100)%Q = true
    | Some ((besti, bestj), identical) =>
        alo ≤ besti < ahi ∧ blo ≤ bestj < bhi
        ∧ (identical = true → at_ A besti = at_ B bestj)
    end).
  { subst synch. destruct (Qlt_bool (bestRatio st) (75 # 100)%Q) eqn:E.
    - destruct (eqij st) as [[ei ej]|] eqn:Ee; [|done].
      destruct (Heq _ _ eq_refl) as (?&?&?). done.
    - destruct (best st) as [[bi bj]|] eqn:Eb.
      + destruct (Hbest _ _ eq_refl). done.
      + rewrite (Hratio eq_refl) in E. done. }
  destruct synch as [[[besti bestj] identical]|].
  2:{ rewrite Hsynch. by apply plainReplace_sides. }
  destruct Hsynch as (Hi & Hj & Hid).
  destruct (fancyHelper_sides (_fancyReplace fuel d) alo besti blo bestj)
    as (before & -> & Hb1' & Hb2'); try lia.
  { intros. apply IH; lia. }
  cbn [mbind result_bind].
  destruct (at_Some A besti) as [aelt Haelt]; [lia|].
  destruct (at_Some B bestj) as [belt Hbelt]; [lia|].
  rewrite Haelt, Hbelt. cbn [key_of default from_option id].
  assert (Hmid : sides besti (besti + 1) bestj (bestj + 1)
            (if identical then Ok ["  " +:+ aelt]
             else
               getOpcodes (setSeqs (cruncher st) (Str aelt) (Str belt))
               ≫= λ '(codes, _),
                    let '(atags, btags) := foldl tags_step ("", "") codes in
                    Ok (_qformat aelt belt atags btags))).
  { destruct identical.
    - eexists. split; [done|]. rewrite (slice_one A besti aelt) by done.
      rewrite (slice_one B bestj belt) by done.
      specialize (Hid eq_refl). assert (aelt = belt) as -> by congruence. done.
    - destruct (getOpcodes_ok (setSeqs (cruncher st) (Str aelt) (Str belt)))
        as (codes & c2 & -> & _).
      { apply indexed_setSeq2. left. by apply indexed_setSeq1. }
      cbn [mbind result_bind].
      destruct (foldl tags_step ("", "") codes) as [atags btags].
      eexists. split; [done|].
      rewrite side1_qformat, side2_qformat.
      by rewrite (slice_one A besti aelt), (slice_one B bestj belt). }
  destruct Hmid as (middle & -> & Hm1 & Hm2). cbn [mbind result_bind].
  destruct (fancyHelper_sides (_fancyReplace fuel d) (besti + 1) ahi (bestj + 1) bhi)
    as (after & -> & Ha1' & Ha2'); try lia.
  { intros. apply IH; lia. }
  cbn [mbind result_bind]. eexists. split; [done|].
  rewrite !side1_app, !side2_app, Hb1', Hb2', Hm1, Hm2, Ha1', Ha2'.
  rewrite <- !slice_split by lia. done.
Qed.

Lemma tiles_le i j codes i2 j2 :
  tiles i j codes i2 j2 → Forall op_shape codes → i ≤ i2 ∧ j ≤ j2.
Proof.
  revert i j. induction codes as [|[[[[tag c1] c2] c3] c4] codes IH]; intros i j; simpl.
  - intros [-> ->] _. lia.
  - intros (-> & -> & Ht) Hs. apply Forall_cons in Hs as [Hs Hs'].
    destruct (IH _ _ Ht Hs'). destruct tag; simpl in Hs; lia.
Qed.

Lemma compare_fold codes i j acc :
  tiles i j codes (len A) (len B) → Forall op_shape codes →
  (∀ i1 i2 j1 j2, (equal_, i1, i2, j1, j2) ∈ codes →
     whole_block A B (i1, j1, i2 - i1)) →
  0 ≤ i → 0 ≤ j →
  ∃ lines, foldlM (compare_step d A B) acc codes = Ok (acc ++ lines)
           ∧ side1 lines = slice (elems A) i (len A)
           ∧ side2 lines = slice (elems B) j (len B).
Proof.
  revert i j acc.
  induction codes as [|[[[[tag alo] ahi] blo] bhi] codes IH]; intros i j acc; simpl.
  - intros [-> ->] _ _ _ _. exists []. rewrite app_nil_r, !slice_empty. done.
  - intros (Hi1 & Hj1 & Ht) Hs Heq Hi Hj. subst i j.
    apply Forall_cons in Hs as [Hs Hs'].
    destruct (tiles_le _ _ _ _ _ Ht Hs') as [Hahi Hbhi].
    assert (Hg : sides alo ahi blo bhi
              (match tag with
               | replace_ =>
                   _fancyReplace (Z.to_nat (ahi - alo + (bhi - blo))) d A alo ahi B blo bhi
               | delete_ => Ok (_dump "-" A alo ahi)
               | insert_ => Ok (_dump "+" B blo bhi)
               | equal_ => Ok (_dump " " A alo ahi)
               end)).
    { destruct tag; simpl in Hs.
      - apply fancyReplace_sides; lia.
      - destruct Hs as [? ->]. eexists. split; [done|].
        rewrite side1_dump_minus, side2_dump_minus by lia. by rewrite slice_empty.
      - destruct Hs as [-> ?]. eexists. split; [done|].
        rewrite side1_dump_plus, side2_dump_plus by lia. by rewrite slice_empty.
      - destruct Hs as [? Hlen]. eexists. split; [done|].
        rewrite side1_dump_space, side2_dump_space by lia. split; [done|].
        pose proof (Heq alo ahi blo bhi ltac:(left)) as Hw.
        apply whole_block_slice in Hw.
        replace (alo + (ahi - alo)) with ahi in Hw by lia.
        replace (blo + (ahi - alo)) with bhi in Hw by lia. done. }
    destruct Hg as (g & -> & Hg1 & Hg2). cbn [mbind result_bind].
    destruct (IH ahi bhi (acc ++ g) Ht Hs') as (lines & -> & Hl1 & Hl2).
    + intros i1 i2 j1 j2 Hin. apply (Heq i1 i2 j1 j2). by right.
    + destruct tag; simpl in Hs; lia.
    + destruct tag; simpl in Hs; lia.
    + exists (g ++ lines). rewrite app_assoc. split; [done|].
      rewrite side1_app, side2_app, Hg1, Hg2, Hl1, Hl2.
      rewrite <- !slice_split; [done|destruct tag; simpl in Hs; lia..].
Qed.
End fancy.

(** ** A matcher fresh from its constructor *)

Lemma chainB_fields m :
  a (_chainB m) = a m ∧ b (_chainB m) = b m
  ∧ matchingBlocks (_chainB m) = matchingBlocks m ∧ opcodes (_chainB m) = opcodes m
  ∧ fullbcount (_chainB m) = fullbcount m
  ∧ isjunk (_chainB m) = isjunk m ∧ autojunk (_chainB m) = autojunk m.
Proof.
  unfold _chainB.
  destruct (match isjunk m with Some f => _ | None => _ end) as [junk t1].
  destruct (if autojunk m && _ then _ else _) as [popular t2]. done.
Qed.

Lemma strict_eq_refl_empty x : strict_eq x (Str "") = true → x = Str "".
Proof.
  destruct x as [s|r l]; simpl; [|done]. intros H.
  apply bool_decide_eq_true in H. by subst.
Qed.

Lemma new_SequenceMatcher_spec junk A B auto :
  let m := new_SequenceMatcher junk (Some A) (Some B) auto in
  a m = A ∧ b m = B ∧ matchingBlocks m = None ∧ opcodes m = None
  ∧ (B ≠ Str "" → indexed m).
Proof.
  unfold new_SequenceMatcher, setSeqs. cbn [default from_option id].
  set (this := mkSequenceMatcher _ _ _ _ _ _ _ _ _ _).
  set (m1 := setSeq1 this A).
  assert (a m1 = A ∧ b m1 = Str "" ∧ matchingBlocks m1 = None ∧ opcodes m1 = None)
    as (H1 & H2 & H3 & H4).
  { subst m1. unfold setSeq1. destruct (strict_eq A (a this)) eqn:E; [|done].
    apply strict_eq_refl_empty in E. by subst A. }
  unfold setSeq2. rewrite H2. destruct (strict_eq B (Str "")) eqn:E.
  - apply strict_eq_refl_empty in E. subst B. done.
  - set (m2 := with_fullbcount _ _).
    destruct (chainB_fields m2) as (E1 & E2 & E3 & E4 & _).
    rewrite E1, E2, E3, E4. split_and!; try done. intros _. apply chainB_indexed.
Qed.

(** ** Supporting theorems for the matcher *)

(** X3: for every pair of sequences whose second one is not the empty string
    (every junk test, every [autojunk]), [getMatchingBlocks] on the new
    matcher returns the canonical list. *)
Theorem getMatchingBlocks_canonical junk A B auto :
  B ≠ Str "" →
  ∃ blocks m',
    getMatchingBlocks (new_SequenceMatcher junk (Some A) (Some B) auto) = Ok (blocks, m')
    ∧ canonical A B blocks.
Proof.
  intros HB.
  destruct (new_SequenceMatcher_spec junk A B auto) as (Ha & Hb & Hmb & Hop & Hidx).
  destruct (getMatchingBlocks_indexed _ (Hidx HB) Hmb) as (body & -> & Ht).
  eexists _, _. split; [done|]. rewrite Ha, Hb in *. by apply tidy_canonical.
Qed.

(** Under the same condition [getOpcodes] returns a tiling. *)
Theorem getOpcodes_tiling junk A B auto :
  B ≠ Str "" →
  ∃ codes m',
    getOpcodes (new_SequenceMatcher junk (Some A) (Some B) auto) = Ok (codes, m')
    ∧ opcodes_ok A B codes.
Proof.
  intros HB.
  destruct (new_SequenceMatcher_spec junk A B auto) as (Ha & Hb & Hmb & Hop & Hidx).
  destruct (getOpcodes_indexed _ (Hidx HB) Hmb Hop) as (codes & m' & -> & Hok).
  eexists _, _. split; [done|]. by rewrite Ha, Hb in *.
Qed.

(** ** ndiff and restore *)

Lemma compare_arrays d ra la rb lb :
  Forall (λ s, s ≠ "") lb →
  ∃ delta, compare d (Arr ra la) (Arr rb lb) = Ok delta
           ∧ side1 delta = la ∧ side2 delta = lb.
Proof.
  intros Hne. unfold compare.
  destruct (getOpcodes_tiling (linejunk d) (Arr ra la) (Arr rb lb) None)
    as (codes & m' & -> & [Ht Hs He _]); [done|].
  cbn [mbind result_bind].
  destruct (compare_fold d (Arr ra la) (Arr rb lb)) with (codes := codes) (i := 0) (j := 0)
    (acc := @nil string) as (lines & -> & H1 & H2); try done.
  - intros j x Hx. rewrite Forall_forall in Hne. apply Hne.
    unfold at_ in Hx. destruct (decide (0 ≤ j)); [|done].
    by apply list_elem_of_lookup_2 in Hx.
  - exists lines. split; [done|]. unfold len in *. simpl in *.
    by rewrite slice_all in H1, H2.
Qed.

(** C4: for arrays [A] and [B] of single lines that end with a newline,
    [ndiff(A, B)] with its default [linejunk] and [charjunk] returns a
    delta from which [restore(delta, 1)] gives back [A] and
    [restore(delta, 2)] gives back [B]. *)
Theorem restore_ndiff (ra rb : positive) (la lb : list string) :
  Forall (λ s, is_line s = true) la → Forall (λ s, is_line s = true) lb →
  ∃ delta,
    ndiff (Arr ra la) (Arr rb lb) None None = Ok delta
    ∧ restore delta 1 = Ok la ∧ restore delta 2 = Ok lb.
Proof.
  intros _ Hlb. unfold ndiff.
  destruct (compare_arrays (mkDiffer None (Some IS_CHARACTER_JUNK)) ra la rb lb)
    as (delta & -> & H1 & H2).
  - eapply Forall_impl; [exact Hlb|]. by intros [|??].
  - exists delta. split; [done|]. rewrite restore_1, restore_2.
    fold (side1 delta). fold (side2 delta). by rewrite H1, H2.
Qed.

Lemma restore_ndiff_witness :
  let A := ["one" +:+ newline; "two" +:+ newline; "three" +:+ newline] in
  let B := ["ore" +:+ newline; "tree" +:+ newline; "emu" +:+ newline] in
  Forall (λ s, is_line s = true) A ∧ Forall (λ s, is_line s = true) B
  ∧ ∃ delta, ndiff (Arr 1 A) (Arr 2 B) None None = Ok delta
             ∧ restore delta 1 = Ok A ∧ restore delta 2 = Ok B.
Proof.
  intros A B.
  assert (HA : Forall (λ s, is_line s = true) A) by (repeat constructor).
  assert (HB : Forall (λ s, is_line s = true) B) by (repeat constructor).
  split; [exact HA|]. split; [exact HB|].
  exact (restore_ndiff 1 2 A B HA HB).
Defined.

(** ** The selection of the specification *)

Lemma seqZ_sorted m n : StronglySorted Z.lt (seqZ m n).
Proof.
  destruct (decide (0 ≤ n)) as [Hn|Hn]; [|rewrite seqZ_nil by lia; constructor].
  rewrite <- (Z2Nat.id n) by done. generalize (Z.to_nat n). clear. intros k.
  revert m. induction k as [|k IH]; intros m.
  - rewrite seqZ_nil by lia. constructor.
  - rewrite seqZ_cons by lia. constructor.
    + replace (Z.pred (Z.of_nat (S k))) with (Z.of_nat k) by lia. apply IH.
    + apply Forall_seqZ. lia.
Qed.

Lemma StronglySorted_bind {X Y} (R1 : relation X) (R2 : relation Y)
    (f : X → list Y) (l : list X) :
  StronglySorted R1 l →
  (∀ x, x ∈ l → StronglySorted R2 (f x)) →
  (∀ x1 x2 y1 y2, R1 x1 x2 → y1 ∈ f x1 → y2 ∈ f x2 → R2 y1 y2) →
  StronglySorted R2 (l ≫= f).
Proof.
  intros Hs Hf Hc. induction Hs as [|x l Hs IH Hall]; csimpl; [constructor|].
  apply StronglySorted_app. split_and!.
  - intros y1 y2 Hy1 Hy2. apply list_elem_of_bind in Hy2 as (x2 & Hy2 & Hx2).
    rewrite Forall_forall in Hall. eapply Hc; [by apply Hall|done|done].
  - apply Hf. left.
  - apply IH. intros. apply Hf. by right.
Qed.

Lemma window_triples_sorted alo ahi blo bhi :
  StronglySorted pref (window_triples alo ahi blo bhi).
Proof.
  unfold window_triples.
  eapply (StronglySorted_bind (λ k1 k2, k2 < k1)).
  - eapply StronglySorted_fmap; [|apply seqZ_sorted]. intros; simpl; lia.
  - intros k _. eapply (StronglySorted_bind Z.lt).
    + apply seqZ_sorted.
    + intros i _. eapply StronglySorted_fmap; [|apply seqZ_sorted].
      intros j1 j2 Hj. right. split; [done|]. right. done.
    + intros i1 i2 y1 y2 Hi Hy1 Hy2.
      apply list_elem_of_fmap in Hy1 as (j1 & -> & _).
      apply list_elem_of_fmap in Hy2 as (j2 & -> & _).
      right. split; [done|]. by left.
  - intros k1 k2 y1 y2 Hk Hy1 Hy2.
    apply list_elem_of_bind in Hy1 as (i1 & Hy1 & _).
    apply list_elem_of_bind in Hy2 as (i2 & Hy2 & _).
    apply list_elem_of_fmap in Hy1 as (j1 & -> & _).
    apply list_elem_of_fmap in Hy2 as (j2 & -> & _).
    left. done.
Qed.

Lemma elem_of_window_triples alo ahi blo bhi i j k :
  (i, j, k) ∈ window_triples alo ahi blo bhi ↔
  alo ≤ i ∧ blo ≤ j ∧ 0 ≤ k ∧ i + k ≤ ahi ∧ j + k ≤ bhi.
Proof.
  unfold window_triples. rewrite list_elem_of_bind. split.
  - intros (k' & Hx & Hk). apply list_elem_of_fmap in Hk as (dk & -> & Hd).
    apply elem_of_seqZ in Hd.
    apply list_elem_of_bind in Hx as (i' & Hx & Hi). apply elem_of_seqZ in Hi.
    apply list_elem_of_fmap in Hx as (j' & [= -> -> ->] & Hj). apply elem_of_seqZ in Hj.
    lia.
  - intros (?&?&?&?&?). exists k. split.
    + apply list_elem_of_bind. exists i. split; [|apply elem_of_seqZ; lia].
      apply list_elem_of_fmap. exists j. split; [done|]. apply elem_of_seqZ. lia.
    + apply list_elem_of_fmap. exists (Z.min (ahi - alo) (bhi - blo) - k).
      split; [lia|]. apply elem_of_seqZ. lia.
Qed.

Lemma hit_b_spec good A B i j :
  hit_b good A B i j = true ↔ hit A B (λ y, good y = true) i j.
Proof.
  unfold hit_b, hit. destruct (at_ A i) as [x|], (at_ B j) as [y|].
  - rewrite andb_true_iff, bool_decide_eq_true. split.
    + intros [-> ?]. eauto.
    + intros (z & [= ->] & [= ->] & ?). done.
  - split; [done|]. intros (z & _ & [=] & _).
  - split; [done|]. intros (z & [=] & _).
  - split; [done|]. intros (z & [=] & _).
Qed.

Lemma cand_b_spec good A B alo ahi blo bhi i j k :
  cand A B (λ y, good y = true) alo ahi blo bhi i j k ↔
  (i, j, k) ∈ window_triples alo ahi blo bhi ∧ cand_b good A B (i, j, k) = true.
Proof.
  rewrite elem_of_window_triples. unfold cand, cand_b. simpl.
  rewrite forallb_forall. setoid_rewrite <- list_elem_of_In.
  setoid_rewrite elem_of_seqZ. setoid_rewrite hit_b_spec.
  split.
  - intros (?&?&?&?&?&Hall). split; [lia|]. intros s Hs. apply Hall. lia.
  - intros [(?&?&?&?&?) Hall]. split_and!; try done.
Qed.

Lemma spec_select_selected good A B alo ahi blo bhi :
  alo ≤ ahi → blo ≤ bhi →
  selected A B (λ y, good y = true) alo ahi blo bhi
    (spec_select good A B alo ahi blo bhi).
Proof.
  intros Ha Hb. unfold spec_select.
  destruct (list_find _ _) as [[p [[i j] k]]|] eqn:E.
  - apply list_find_Some in E as (Hp & HP & Hmin).
    split; [apply cand_b_spec; split; [by eapply list_elem_of_lookup_2|done]|].
    intros i2 j2 k2 Hc. apply cand_b_spec in Hc as [Hin HP2].
    apply list_elem_of_lookup in Hin as [q Hq].
    destruct (decide (q < p)%nat) as [Hlt|Hge]; [by destruct (Hmin _ _ Hq Hlt)|].
    destruct (decide (q = p)) as [->|Hne].
    + assert (Some (i2, j2, k2) = Some (i, j, k)) as Heq by (etrans; [symmetry; exact Hq|exact Hp]).
      injection Heq as -> -> ->. split; [lia|]. intros _. right. lia.
    + assert ((i2, j2, k2) ∈ drop (S p) (window_triples alo ahi blo bhi)) as Hin.
      { apply list_elem_of_lookup. exists (q - S p)%nat. rewrite lookup_drop.
        replace (S p + (q - S p))%nat with q by lia. done. }
      pose proof (window_triples_sorted alo ahi blo bhi) as Hs.
      rewrite <- (take_drop_middle _ _ _ Hp) in Hs.
      apply StronglySorted_app_1_r in Hs. apply StronglySorted_cons in Hs as [Hs _].
      rewrite Forall_forall in Hs.
      destruct (Hs _ Hin) as [?|[? Hl]]; simpl in *; [lia|].
      split; [lia|]. intros _. unfold lex_lt, lex_le in *. lia.
  - exfalso. eapply (list_find_None (λ x, cand_b good A B x = true)) in E.
    rewrite Forall_forall in E. apply (E (alo, blo, 0)).
    + apply elem_of_window_triples. lia.
    + done.
Qed.

Lemma hit_ext A B (good1 good2 : string → Prop) i j :
  (∀ y, y ∈ elems B → good1 y ↔ good2 y) → hit A B good1 i j ↔ hit A B good2 i j.
Proof.
  intros Hg. unfold hit. split; intros (x & Hx & Hy & Hgx); exists x; split_and!;
    try done; apply Hg; try done; unfold at_ in Hy;
    (destruct (decide (0 ≤ j)); [by eapply list_elem_of_lookup_2|done]).
Qed.

Lemma cand_ext A B (good1 good2 : string → Prop) alo ahi blo bhi i j k :
  (∀ y, y ∈ elems B → good1 y ↔ good2 y) →
  cand A B good1 alo ahi blo bhi i j k ↔ cand A B good2 alo ahi blo bhi i j k.
Proof.
  intros Hg. unfold cand. by setoid_rewrite (hit_ext A B good1 good2 _ _ Hg).
Qed.

Lemma selected_ext A B (good1 good2 : string → Prop) alo ahi blo bhi x :
  (∀ y, y ∈ elems B → good1 y ↔ good2 y) →
  selected A B good1 alo ahi blo bhi x → selected A B good2 alo ahi blo bhi x.
Proof.
  intros Hg. destruct x as [[i j] k]. unfold selected.
  by setoid_rewrite (cand_ext A B good1 good2 alo ahi blo bhi _ _ _ Hg).
Qed.

(** *** findLongestMatch against the selection rule *)

(** C2, as the specification words it, fails when the second sequence has
    popular elements: the search leaves them out like junk.  Here
    ["pp"] is the longest match without junk, and the source returns the
    ["a"] at the end. *)
Lemma findLongestMatch_popular :
  findLongestMatch matcher_popular 0 4 0 200 = Ok (3, 199, 1)
  ∧ spec_longest (λ y, negb (is_bjunk matcher_popular y)) (is_bjunk matcher_popular)
      (a matcher_popular) (b matcher_popular) 0 4 0 200 = (0, 0, 2).
Proof. split; vm_compute; reflexivity. Qed.

(** C2, amended: on a matcher whose index has been built for a second
    sequence without the element [__proto__], and for window bounds
    [0 <= alo <= ahi <= len(A)], [0 <= blo <= bhi <= len(B)],
    [findLongestMatch] returns the triple obtained by taking, among the
    triples of the window with [A[i..i+k] == B[j..j+k]] and no position
    of the matched range of [B] being junk or popular, the one that
    maximizes [k], then minimizes [i], then minimizes [j], and by
    extending it at both ends, first through equal elements that are not
    junk in [B], then through equal elements that are. *)
Theorem findLongestMatch_refines m alo ahi blo bhi :
  indexed m → "__proto__" ∉ elems (b m) →
  0 ≤ alo ≤ ahi ∧ ahi ≤ len (a m) → 0 ≤ blo ≤ bhi ∧ bhi ≤ len (b m) →
  findLongestMatch m alo ahi blo bhi
  = Ok (spec_longest (λ y, negb (is_bjunk m y) && negb (is_bpopular m y))
          (is_bjunk m) (a m) (b m) alo ahi blo bhi).
Proof.
  intros Hidx Hproto Ha Hb.
  destruct (findLongestMatch_indexed m alo ahi blo bhi Hidx) as (core & Hsel & ->);
    [unfold valid_window; lia|].
  unfold spec_longest. do 3 f_equal.
  eapply selected_unique; [|apply spec_select_selected; lia].
  eapply selected_ext; [|exact Hsel].
  destruct (indexed_index m Hidx) as (t & junk & popular & Ht & Hj & Hp & [_ Hkeys]).
  intros y Hy. unfold indexed_key, is_bjunk, is_bpopular. rewrite Ht, Hj, Hp.
  rewrite andb_true_iff, !negb_true_iff, !bool_decide_eq_false.
  split.
  - intros (? & [= <-] & Hin). apply Hkeys in Hin. tauto.
  - intros [??]. eexists. split; [done|]. apply Hkeys. split_and!; try done.
    intros ->. done.
Qed.

Lemma findLongestMatch_refines_witness :
  let m := new_SequenceMatcher (Some isSpace) (Some (Str " abcd")) (Some (Str "abcd abcd")) None in
  indexed m ∧ ("__proto__" ∉ elems (b m))
  ∧ (0 ≤ 0 ≤ 5 ∧ 5 ≤ len (a m)) ∧ (0 ≤ 0 ≤ 9 ∧ 9 ≤ len (b m))
  ∧ findLongestMatch m 0 5 0 9 = Ok (1, 0, 4).
Proof.
  intros m.
  assert (H1 : indexed m).
  { by apply (new_SequenceMatcher_spec (Some isSpace) (Str " abcd") (Str "abcd abcd") None). }
  assert (H2 : "__proto__" ∉ elems (b m)).
  { intros Hin. apply (bool_decide_pack _) in Hin. vm_compute in Hin. exact Hin. }
  assert (H3 : 0 ≤ 0 ≤ 5 ∧ 5 ≤ len (a m)) by (vm_compute; intuition discriminate).
  assert (H4 : 0 ≤ 0 ≤ 9 ∧ 9 ≤ len (b m)) by (vm_compute; intuition discriminate).
  split; [exact H1|]. split; [exact H2|]. split; [exact H3|]. split; [exact H4|].
  exact (eq_trans (findLongestMatch_refines m 0 5 0 9 H1 H2 H3 H4) eq_refl).
Defined.

(** ** The ratios *)

Lemma calculateRatio_bounds matches length :
  0 ≤ 2 * matches ≤ length → (0 <= _calculateRatio matches length <= 1)%Q.
Proof.
  intros H. unfold _calculateRatio. destruct (Z.eqb_spec length 0) as [|Hne].
  - split; [discriminate|apply Qle_refl].
  - assert (0 < inject_Z length)%Q as Hpos by (rewrite <- (Zlt_Qlt 0); lia).
    split.
    + apply Qle_shift_div_l; [done|]. rewrite Qmult_0_l, <- (Zle_Qle 0). lia.
    + apply Qle_shift_div_r; [done|]. rewrite Qmult_1_l, <- Zle_Qle. lia.
Qed.

Lemma calculateRatio_mono m1 m2 length :
  0 ≤ length → m1 ≤ m2 →
  (_calculateRatio m1 length <= _calculateRatio m2 length)%Q.
Proof.
  intros Hl Hm. unfold _calculateRatio. destruct (Z.eqb_spec length 0) as [|Hne].
  - apply Qle_refl.
  - assert (0 < inject_Z length)%Q as Hpos by (rewrite <- (Zlt_Qlt 0); lia).
    apply Qle_shift_div_r; [done|]. rewrite Qmult_comm, Qmult_div_r.
    + rewrite <- Zle_Qle. lia.
    + intros Heq. rewrite Heq in Hpos. by apply Qlt_irrefl in Hpos.
Qed.

Lemma matches_of_app l1 l2 : matches_of (l1 ++ l2) = matches_of l1 + matches_of l2.
Proof.
  unfold matches_of. rewrite foldl_app. generalize (foldl (λ acc (x : triple), acc + x.2) 0 l1).
  induction l2 as [|x l2 IH] using rev_ind; intros z; simpl; [lia|].
  rewrite !foldl_app. simpl. rewrite IH. lia.
Qed.

Lemma matches_of_cons x l : matches_of (x :: l) = x.2 + matches_of l.
Proof. change (x :: l) with ([x] ++ l). by rewrite matches_of_app. Qed.

(** Blocks that follow each other fit side by side in both sequences. *)
Lemma matches_of_sorted A B body lo1 lo2 :
  StronglySorted follows body → Forall (found_block A B) body →
  Forall (λ x : triple, lo1 ≤ x.1.1 ∧ lo2 ≤ x.1.2) body →
  0 ≤ matches_of body
  ∧ (body ≠ [] → matches_of body ≤ len A - lo1 ∧ matches_of body ≤ len B - lo2).
Proof.
  intros Hs. revert lo1 lo2. induction Hs as [|x body Hs IH Hall]; intros lo1 lo2 Hf Hlo.
  - done.
  - apply Forall_cons in Hf as [[Hx Hb] Hf]. apply Forall_cons in Hlo as [Hx1 Hlo].
    destruct x as [[i j] k]. simpl in *. rewrite matches_of_cons. simpl.
    destruct (IH (i + k) (j + k) Hf) as [H0 Hle].
    { eapply Forall_impl; [exact Hall|]. intros [[i' j'] k'] [? ?]. simpl in *. lia. }
    split; [lia|]. intros _.
    destruct Hb as (?&?&?&?&?&_).
    destruct body as [|y body]; [unfold matches_of; simpl; lia|].
    destruct Hle as [? ?]; [done|]. lia.
Qed.

Lemma tidy_matches A B body :
  tidy A B body →
  0 ≤ matches_of (body ++ [(len A, len B, 0)]) ≤ Z.min (len A) (len B).
Proof.
  intros (Hf & Hs & _). rewrite matches_of_app.
  replace (matches_of [(len A, len B, 0)]) with 0 by done.
  destruct (matches_of_sorted A B body 0 0 Hs Hf) as [H0 Hle].
  { eapply Forall_impl; [exact Hf|]. intros [[i j] k] [_ (?&?&_)]. simpl. lia. }
  destruct body as [|x body].
  - unfold matches_of, len. simpl. lia.
  - destruct Hle as [? ?]; [done|]. lia.
Qed.

(** [realQuickRatio] lies in [[0, 1]] on every matcher. *)
Lemma realQuickRatio_bounds m : (0 <= realQuickRatio m <= 1)%Q.
Proof.
  unfold realQuickRatio. apply calculateRatio_bounds. unfold len. lia.
Qed.

(** X15: on a new matcher whose second sequence is not the empty string,
    [ratio] returns a value of [[0, 1]] that [realQuickRatio] bounds. *)
Theorem ratio_bounds junk A B auto :
  B ≠ Str "" →
  let m := new_SequenceMatcher junk (Some A) (Some B) auto in
  ∃ r m', ratio m = Ok (r, m')
          ∧ (0 <= r <= 1)%Q ∧ (r <= realQuickRatio m)%Q.
Proof.
  intros HB m.
  destruct (new_SequenceMatcher_spec junk A B auto) as (Ha & Hb & Hmb & Hop & Hidx).
  fold m in Ha, Hb, Hmb, Hidx.
  destruct (getMatchingBlocks_indexed m (Hidx HB) Hmb) as (body & Hget & Ht).
  apply tidy_matches in Ht. unfold ratio. simpl in Hget. rewrite Hget. simpl.
  fold (matches_of (body ++ [(len (a m), len (b m), 0)])).
  eexists _, _. split; [done|].
  set (n := matches_of _) in *. clearbody n. clear Hget Hop Hidx. clearbody m. split.
  - apply calculateRatio_bounds. lia.
  - unfold realQuickRatio. apply calculateRatio_mono; [unfold len|]; lia.
Qed.

(** X18: with two empty sequences each of the three ratios is 1, also when the
    second one is the empty string. *)
Lemma ratios_of_empty junk A B auto :
  len A = 0 → len B = 0 →
  let m := new_SequenceMatcher junk (Some A) (Some B) auto in
  (∃ m', ratio m = Ok (1%Q, m'))
  ∧ (quickRatio m).1 = 1%Q ∧ realQuickRatio m = 1%Q.
Proof.
  intros HA HB m.
  destruct (new_SequenceMatcher_spec junk A B auto) as (Ha & Hb & Hmb & Hop & _).
  fold m in Ha, Hb, Hmb. split; [|split].
  - unfold ratio, getMatchingBlocks. rewrite Hmb, Ha, Hb, HA, HB. simpl.
    unfold findLongestMatch. simpl. eauto.
  - unfold quickRatio. simpl. rewrite Ha, Hb, HA, HB.
    assert (elems A = []) as -> by (unfold len in HA; destruct (elems A); simpl in *; [done|lia]).
    done.
  - unfold realQuickRatio. by rewrite Ha, Hb, HA, HB.
Qed.

(** ** quickRatio as a count of common elements *)

Lemma occ_nil x : occ x [] = 0%nat.
Proof. done. Qed.

Lemma occ_app x l1 l2 : occ x (l1 ++ l2) = (occ x l1 + occ x l2)%nat.
Proof. unfold occ. by rewrite filter_app, length_app. Qed.

Lemma occ_cons x y l :
  occ x (y :: l) = ((if decide (y = x) then 1 else 0) + occ x l)%nat.
Proof.
  unfold occ. rewrite filter_cons. by destruct (decide (y = x)).
Qed.

Lemma occ_snoc x y l :
  occ x (l ++ [y]) = (occ x l + (if decide (y = x) then 1 else 0))%nat.
Proof. rewrite occ_app, occ_cons, occ_nil. lia. Qed.

Lemma occ_perm x l1 l2 : l1 ≡ₚ l2 → occ x l1 = occ x l2.
Proof. intros H. unfold occ. by rewrite H. Qed.

Lemma occ_pos x l : (0 < occ x l)%nat → x ∈ l.
Proof.
  induction l as [|y l IH]; [rewrite occ_nil; lia|].
  rewrite occ_cons. destruct (decide (y = x)) as [->|]; [left|right; apply IH; lia].
Qed.

Lemma occ_not_elem x l : x ∉ l → occ x l = 0%nat.
Proof.
  intros Hx. destruct (occ x l) eqn:E; [done|].
  destruct Hx. apply occ_pos. lia.
Qed.

(** A list with no more occurrences of any element is no longer. *)
Lemma occ_le_length l1 l2 :
  (∀ x, (occ x l1 ≤ occ x l2)%nat) → (length l1 ≤ length l2)%nat.
Proof.
  revert l2. induction l1 as [|y l1 IH]; intros l2 H; simpl; [lia|].
  assert (y ∈ l2) as Hy.
  { apply occ_pos. specialize (H y). rewrite occ_cons in H.
    destruct (decide (y = y)); [lia|done]. }
  apply elem_of_Permutation in Hy as [l2' Hp].
  rewrite Hp. simpl. apply le_n_S, IH. intros x.
  specialize (H x). rewrite (occ_perm x _ _ Hp), !occ_cons in H. lia.
Qed.

Lemma counts_of_nil : counts_of [] ∅.
Proof.
  intros x. destruct (decide _); [by left|]. by rewrite lookup_empty.
Qed.

Lemma counts_of_step l f elt :
  counts_of l f →
  counts_of (l ++ [elt]) (js_set f elt (js_add1 (or_zero (js_get f elt)))).
Proof.
  intros Hf x. pose proof (Hf x) as Hx. pose proof (Hf elt) as He.
  unfold js_set, js_get in *.
  destruct (decide (x ∈ object_prototype_keys)) as [Hp|Hp].
  - destruct (decide (elt = "__proto__")); [done|].
    destruct (decide (x = elt)) as [->|Hne].
    + rewrite lookup_insert_eq. right.
      destruct (decide (elt ∈ object_prototype_keys)); [|done].
      rewrite bool_decide_eq_true_2 by done.
      destruct He as [-> | ->]; done.
    + by rewrite lookup_insert_ne.
  - rewrite occ_snoc.
    destruct (decide (elt = x)) as [->|Hne].
    + destruct (decide (x ∈ object_prototype_keys)); [done|].
      destruct (decide (x = "__proto__")) as [->|]; [by destruct Hp; vm_compute; set_solver|].
      rewrite lookup_insert_eq, bool_decide_eq_false_2 by done.
      rewrite Hx. replace (occ x l + 1)%nat with (S (occ x l)) by lia.
      destruct (occ x l); simpl; do 2 f_equal; lia.
    + rewrite Nat.add_0_r.
      destruct (decide (elt = "__proto__")); [done|].
      by rewrite lookup_insert_ne.
Qed.

Lemma count_elements_spec l : counts_of l (count_elements l).
Proof.
  unfold count_elements. induction l as [|x l IH] using rev_ind.
  - apply counts_of_nil.
  - rewrite foldl_app. simpl. by apply counts_of_step.
Qed.

Lemma avail_inv_nil l : avail_inv l [] (∅, 0).
Proof.
  split.
  - intros x. simpl. rewrite lookup_empty. destruct (decide _); [by left|done].
  - exists []. split; [done|]. intros x. rewrite !occ_nil. by destruct (decide _).
Qed.

Lemma avail_inv_step l f p st elt :
  counts_of l f → avail_inv l p st → avail_inv l (p ++ [elt]) (avail_step f st elt).
Proof.
  intros Hf [Hav (chosen & Hm & Hch)]. destruct st as [avail matches]. simpl in *.
  pose proof (Hf elt) as Hfe. pose proof (Hav elt) as Hae.
  unfold avail_step, js_set, js_get.
  destruct (decide (elt ∈ object_prototype_keys)) as [Hp|Hp].
  - (* the element names an inherited property: never a match *)
    rewrite bool_decide_eq_true_2 by done.
    assert (∃ numb, match avail !! elt with
                    | Some v => v
                    | None => or_zero match f !! elt with
                                      | Some v => Some v
                                      | None => Some VObject
                                      end
                    end = numb ∧ js_gt0 numb = false ∧ js_sub1 numb = VNaN)
      as (numb & -> & -> & ->).
    { destruct Hae as [-> | ->]; [|by eexists].
      destruct Hfe as [-> | ->]; by eexists. }
    split; simpl.
    + intros x. pose proof (Hav x) as Hx. rewrite occ_snoc.
      destruct (decide (elt = "__proto__")).
      * destruct (decide (x ∈ object_prototype_keys)); [done|].
        destruct (decide (elt = x)) as [->|]; [done|]. by rewrite Nat.add_0_r.
      * destruct (decide (elt = x)) as [->|Hne].
        -- rewrite lookup_insert_eq. destruct (decide _); [by right|done].
        -- rewrite lookup_insert_ne by done. by rewrite Nat.add_0_r.
    + exists chosen. split; [done|]. intros x. rewrite Hch, occ_snoc.
      destruct (decide (x ∈ object_prototype_keys)); [done|].
      destruct (decide (elt = x)) as [->|]; [done|]. by rewrite Nat.add_0_r.
  - rewrite bool_decide_eq_false_2 by done.
    assert (elt ≠ "__proto__") as Hne
      by (intros ->; apply Hp; vm_compute; set_solver).
    destruct (decide (elt = "__proto__")); [done|].
    assert (match avail !! elt with
            | Some v => v
            | None => or_zero match f !! elt with
                              | Some v => Some v
                              | None => None
                              end
            end = VNum (Z.of_nat (occ elt l) - Z.of_nat (occ elt p))) as ->.
    { rewrite Hae. destruct (occ elt p); [|done].
      rewrite Hfe. destruct (occ elt l); simpl; f_equal; lia. }
    split; simpl.
    + intros x. pose proof (Hav x) as Hx. rewrite occ_snoc.
      destruct (decide (elt = x)) as [->|Hnx].
      * rewrite lookup_insert_eq. destruct (decide _); [done|].
        replace (occ x p + 1)%nat with (S (occ x p)) by lia. do 2 f_equal. lia.
      * rewrite lookup_insert_ne by done. by rewrite Nat.add_0_r.
    + destruct (Z.ltb_spec 0 (Z.of_nat (occ elt l) - Z.of_nat (occ elt p))) as [Hlt|Hge].
      * exists (chosen ++ [elt]). split; [rewrite length_app; simpl; lia|].
        intros x. rewrite !occ_snoc, Hch.
        destruct (decide (x ∈ object_prototype_keys)).
        -- destruct (decide (elt = x)) as [->|]; [done|lia].
        -- destruct (decide (elt = x)) as [->|]; lia.
      * exists chosen. split; [done|]. intros x. rewrite occ_snoc, Hch.
        destruct (decide (x ∈ object_prototype_keys)); [done|].
        destruct (decide (elt = x)) as [->|]; lia.
Qed.

Lemma avail_inv_fold l f p st q :
  counts_of l f → avail_inv l p st →
  avail_inv l (p ++ q) (foldl (avail_step f) st q).
Proof.
  intros Hf. revert p st. induction q as [|x q IH]; intros p st Hst; simpl.
  - by rewrite app_nil_r.
  - replace (p ++ x :: q) with ((p ++ [x]) ++ q) by (by rewrite <- app_assoc).
    apply IH. by apply avail_inv_step.
Qed.

(** The count of [quickRatio]: what the loop counts is a list of elements
    of which each occurs as often as in the sequence where it is rarer,
    the names of inherited properties left out. *)
Lemma quickRatio_count m :
  fullbcount m = None →
  ∃ chosen,
    (quickRatio m).1
    = _calculateRatio (Z.of_nat (length chosen)) (len (a m) + len (b m))
    ∧ ∀ x, occ x chosen =
           if decide (x ∈ object_prototype_keys) then O
           else Nat.min (occ x (elems (a m))) (occ x (elems (b m))).
Proof.
  intros Hnone. unfold quickRatio. rewrite Hnone. simpl.
  destruct (avail_inv_fold (elems (b m)) (count_elements (elems (b m))) []
              (∅, 0) (elems (a m))) as [_ (chosen & -> & Hch)].
  - apply count_elements_spec.
  - apply avail_inv_nil.
  - exists chosen. done.
Qed.

(** *** The elements that the blocks cover *)

Lemma length_slice {T} (l : list T) i n :
  0 ≤ i → 0 ≤ n → i + n ≤ Z.of_nat (length l) →
  Z.of_nat (length (slice l i (i + n))) = n.
Proof.
  intros. unfold slice. rewrite length_take, length_drop. lia.
Qed.

Lemma matched_cons A x body :
  matched A (x :: body) = slice (elems A) x.1.1 (x.1.1 + x.2) ++ matched A body.
Proof. done. Qed.

Lemma matched_length A B body :
  Forall (found_block A B) body →
  Z.of_nat (length (matched A body)) = matches_of body.
Proof.
  induction 1 as [|[[i j] k] body [Hk Hb] _ IH]; [done|].
  rewrite matched_cons, matches_of_cons, length_app, Nat2Z.inj_add, IH. simpl.
  destruct Hb as (?&?&?&?&?&_). unfold len in *. rewrite length_slice; lia.
Qed.

Lemma matched_occ A B body lo1 lo2 x :
  StronglySorted follows body → Forall (found_block A B) body →
  Forall (λ y : triple, lo1 ≤ y.1.1 ∧ lo2 ≤ y.1.2) body →
  0 ≤ lo1 ≤ len A → 0 ≤ lo2 ≤ len B →
  (occ x (matched A body) ≤ occ x (slice (elems A) lo1 (len A)))%nat
  ∧ (occ x (matched A body) ≤ occ x (slice (elems B) lo2 (len B)))%nat.
Proof.
  intros Hs. revert lo1 lo2.
  induction Hs as [|[[i j] k] body Hs IH Hall]; intros lo1 lo2 Hf Hlo H1 H2.
  - unfold matched. simpl. rewrite occ_nil. lia.
  - apply Forall_cons in Hf as [[Hk Hb] Hf]. apply Forall_cons in Hlo as [[Hi Hj] _].
    simpl in *. pose proof (whole_block_slice A B i j k Hb) as Heq.
    destruct Hb as (?&?&?&?&?&_).
    destruct (IH (i + k) (j + k) Hf) as [IH1 IH2]; [|lia|lia|].
    { eapply Forall_impl; [exact Hall|]. intros [[i' j'] k'] [? ?]. simpl in *. lia. }
    rewrite occ_app. split.
    + rewrite (slice_split (elems A) lo1 i (len A)) by lia.
      rewrite (slice_split (elems A) i (i + k) (len A)) by lia.
      rewrite !occ_app. lia.
    + rewrite Heq.
      rewrite (slice_split (elems B) lo2 j (len B)) by lia.
      rewrite (slice_split (elems B) j (j + k) (len B)) by lia.
      rewrite !occ_app. lia.
Qed.

Lemma tidy_matched A B body x :
  tidy A B body →
  (occ x (matched A body) ≤ Nat.min (occ x (elems A)) (occ x (elems B)))%nat.
Proof.
  intros (Hf & Hs & _).
  destruct (matched_occ A B body 0 0 x Hs Hf) as [H1 H2].
  - eapply Forall_impl; [exact Hf|]. intros [[i j] k] [_ (?&?&_)]. simpl. lia.
  - unfold len. lia.
  - unfold len. lia.
  - unfold len in H1, H2. rewrite !slice_all in H1, H2. lia.
Qed.

Lemma new_SequenceMatcher_fullbcount junk A B auto :
  fullbcount (new_SequenceMatcher junk A B auto) = None.
Proof.
  unfold new_SequenceMatcher, setSeqs.
  set (this := mkSequenceMatcher _ _ _ _ _ _ _ _ _ _).
  assert (fullbcount (setSeq1 this (default (Str "") A)) = None) as H1.
  { unfold setSeq1. by destruct (strict_eq _ _). }
  unfold setSeq2. destruct (strict_eq _ _); [done|].
  by destruct (chainB_fields (with_fullbcount
    (with_opcodes (with_matchingBlocks
       (with_b (setSeq1 this (default (Str "") A)) (default (Str "") B)) None) None) None))
    as (_ & _ & _ & _ & -> & _).
Qed.

(** On every new matcher [quickRatio] lies in [[0, 1]] and below
    [realQuickRatio]. *)
Theorem quickRatio_bounds junk A B auto :
  let m := new_SequenceMatcher junk A B auto in
  (0 <= (quickRatio m).1 <= 1)%Q ∧ ((quickRatio m).1 <= realQuickRatio m)%Q.
Proof.
  intros m.
  destruct (quickRatio_count m) as (chosen & -> & Hch);
    [apply new_SequenceMatcher_fullbcount|].
  assert (length chosen ≤ length (elems (a m)))%nat as H1.
  { apply occ_le_length. intros x. rewrite Hch. destruct (decide _); lia. }
  assert (length chosen ≤ length (elems (b m)))%nat as H2.
  { apply occ_le_length. intros x. rewrite Hch. destruct (decide _); lia. }
  split.
  - apply calculateRatio_bounds. unfold len. lia.
  - unfold realQuickRatio. apply calculateRatio_mono; unfold len; lia.
Qed.

(** X17: the three ratios are ordered on a new matcher for two arrays
    the second of which holds no name of a property of
    [Object.prototype]. *)
Theorem ratio_ordering junk ra la rb lb auto :
  Forall (λ x, x ∉ object_prototype_keys) lb →
  let m := new_SequenceMatcher junk (Some (Arr ra la)) (Some (Arr rb lb)) auto in
  ∃ r m', ratio m = Ok (r, m')
          ∧ (r <= (quickRatio m).1)%Q
          ∧ ((quickRatio m).1 <= realQuickRatio m)%Q
          ∧ (quickRatio m').1 = (quickRatio m).1
          ∧ realQuickRatio m' = realQuickRatio m.
Proof.
  set (A := Arr ra la). set (B := Arr rb lb). intros Hproto.
  assert (HB : B ≠ Str "") by done.
  change (Forall (λ x, x ∉ object_prototype_keys) (elems B)) in Hproto.
  clearbody A B. intros m.
  destruct (new_SequenceMatcher_spec junk A B auto) as (Ha & Hb & Hmb & Hop & Hidx).
  fold m in Ha, Hb, Hmb, Hidx.
  destruct (getMatchingBlocks_indexed m (Hidx HB) Hmb) as (body & Hget & Ht).
  simpl in Hget.
  destruct (quickRatio_count m) as (chosen & Hq & Hch);
    [apply new_SequenceMatcher_fullbcount|].
  pose proof (quickRatio_bounds junk (Some A) (Some B) auto) as [_ Hqr]. fold m in Hqr.
  exists (_calculateRatio (matches_of (body ++ [(len (a m), len (b m), 0)]))
            (len (a m) + len (b m))),
    (with_matchingBlocks m (Some (body ++ [(len (a m), len (b m), 0)]))).
  split; [unfold ratio; by rewrite Hget|].
  split; [|split; [exact Hqr|done]].
  rewrite Hq. apply calculateRatio_mono; [unfold len; lia|].
  rewrite matches_of_app. replace (matches_of [(len (a m), len (b m), 0)]) with 0 by done.
  rewrite Z.add_0_r, <- (matched_length (a m) (b m)) by apply Ht.
  apply inj_le, occ_le_length. intros x.
  pose proof (tidy_matched _ _ _ x Ht) as Hle. rewrite Hch.
  destruct (decide (x ∈ object_prototype_keys)) as [Hp|]; [|done].
  rewrite Hb in Hle. rewrite (occ_not_elem x (elems B)) in Hle; [lia|].
  intros Hin. rewrite Forall_forall in Hproto. by apply (Hproto x).
Qed.

(** ** Arguments and frame conditions *)

(** C7: when the argument of [setSeq1] is not the current first sequence,
    the call stores it, sets the two caches [matchingBlocks] and [opcodes]
    to null and leaves every other field as it was: the second sequence,
    [b2j], [isbjunk], [isbpopular], [fullbcount], [isjunk] and
    [autojunk]. *)
Theorem setSeq1_frame (m : SequenceMatcher) (A' : seq) :
  strict_eq A' (a m) = false →
  let m' := setSeq1 m A' in
  a m' = A' ∧ matchingBlocks m' = None ∧ opcodes m' = None
  ∧ b m' = b m ∧ b2j m' = b2j m ∧ isbjunk m' = isbjunk m
  ∧ isbpopular m' = isbpopular m ∧ fullbcount m' = fullbcount m
  ∧ isjunk m' = isjunk m ∧ autojunk m' = autojunk m.
Proof.
  intros Hne. unfold setSeq1. rewrite Hne. cbn. repeat split.
Qed.

Lemma setSeq1_frame_witness :
  strict_eq (Str "bcde") (a matcher_abcd_bcde) = false
  ∧ is_Some (matchingBlocks matcher_abcd_bcde)
  ∧ is_Some (opcodes matcher_abcd_bcde)
  ∧ is_Some (fullbcount matcher_abcd_bcde)
  ∧ matchingBlocks (setSeq1 matcher_abcd_bcde (Str "bcde")) = None
  ∧ b2j (setSeq1 matcher_abcd_bcde (Str "bcde")) = b2j matcher_abcd_bcde.
Proof.
  split; [reflexivity|].
  split; [vm_compute; eauto|].
  split; [vm_compute; eauto|].
  split; [vm_compute; eauto|].
  pose proof (setSeq1_frame matcher_abcd_bcde (Str "bcde") eq_refl) as H.
  split; [apply H | apply H].
Defined.

(** ** Range formatters *)

(** C8, as the specification words it, fails on an empty range: the
    source keeps the [",0"] of the general case. *)
Lemma formatRangeUnified_empty_range :
  _formatRangeUnified 3 3 = "3,0"
  ∧ _formatRangeUnified 3 3 ≠ string_of_Z (3 + 1 - 1).
Proof. split; [reflexivity | discriminate]. Qed.

(** C8, amended: for [0 <= start <= stop < 2^53], with
    [beginning = start + 1] and [length = stop - start],
    [_formatRangeUnified] returns the decimal of [beginning] when
    [length = 1], the decimal of [beginning - 1] followed by [",0"] when
    [length = 0], and the decimals of [beginning] and [length] separated
    by a comma otherwise.  Below [2^53] the sum, the difference and the
    decimals are those of the source, which computes in double
    precision. *)
Theorem formatRangeUnified_spec (start stop : Z) :
  0 ≤ start ≤ stop → stop < 2 ^ 53 →
  let beginning := start + 1 in
  let length := stop - start in
  _formatRangeUnified start stop =
    if decide (length = 1) then string_of_Z beginning
    else if decide (length = 0) then string_of_Z (beginning - 1) +:+ ",0"
    else string_of_Z beginning +:+ "," +:+ string_of_Z length.
Proof.
  intros _ _ beginning length. unfold _formatRangeUnified.
  fold beginning. fold length.
  destruct (decide (length = 1)) as [->|H1]; [reflexivity|].
  destruct (Z.eqb_spec length 1); [contradiction|].
  destruct (decide (length = 0)) as [->|H0]; [reflexivity|].
  destruct (Z.eqb_spec length 0); [contradiction|]. reflexivity.
Qed.

Lemma formatRangeUnified_spec_witness :
  0 ≤ 1 ≤ 3 ∧ 3 < 2 ^ 53 ∧ _formatRangeUnified 1 3 = "2,2".
Proof.
  split; [lia|]. split; [lia|].
  exact (formatRangeUnified_spec 1 3 ltac:(lia) ltac:(lia)).
Defined.

(** ** A matcher whose second sequence is the empty string

    The field initialisers set [a] and [b] to [''] before the constructor
    calls [setSeqs]; [setSeq2('')] then finds [b === this.b] and returns
    without calling [_chainB], so [b2j] and [isbjunk] stay undefined.  The
    first iteration of the loop of [findLongestMatch] then throws. *)

Lemma empty_string_b_not_indexed :
  b2j matcher_a_empty = None ∧ isbjunk matcher_a_empty = None.
Proof. split; reflexivity. Qed.

(** C1 at [new SequenceMatcher(null, 'a', '')]: [getMatchingBlocks] throws
    a TypeError instead of returning [[[1, 0, 0]]]. *)
Theorem getMatchingBlocks_empty_string_b :
  getMatchingBlocks matcher_a_empty = Throw TypeError.
Proof. reflexivity. Qed.

(** C3 at [new SequenceMatcher(null, 'a', '')]: [getOpcodes] throws a
    TypeError instead of returning [[['delete', 0, 1, 0, 0]]]. *)
Theorem getOpcodes_empty_string_b :
  getOpcodes matcher_a_empty = Throw TypeError.
Proof. reflexivity. Qed.

(** C10 at [new SequenceMatcher(null, 'a', '')]: [ratio] throws a
    TypeError, while [quickRatio] and [realQuickRatio] return 0. *)
Theorem ratio_empty_string_b :
  ratio matcher_a_empty = Throw TypeError
  ∧ (quickRatio matcher_a_empty).1 = (0 # 1)%Q
  ∧ realQuickRatio matcher_a_empty = (0 # 1)%Q.
Proof. repeat split. Qed.

(** C9 at [getCloseMatches('', ['a'], 3, 0.0)]: the arguments are valid
    ([n > 0], [cutoff] in [[0, 1]]), and the call throws a TypeError: the
    matcher of [getCloseMatches] is built with the empty strings, and
    [setSeq2('')] leaves it without its index. *)
Theorem getCloseMatches_empty_word :
  getCloseMatches "" ["a"] (Some 3) (Some 0%Q) = Throw TypeError.
Proof. reflexivity. Qed.

(** The argument checks themselves are as documented. *)
Lemma getCloseMatches_rejects_n word possibilities n cutoff :
  n ≤ 0 →
  getCloseMatches word possibilities (Some n) cutoff
  = Throw (Error ("n must be > 0: (" +:+ string_of_Z n +:+ ")")).
Proof.
  intros Hn. unfold getCloseMatches. cbv [default from_option id].
  destruct (Z.ltb_spec 0 n); [lia|]. reflexivity.
Qed.

Lemma getCloseMatches_rejects_cutoff word possibilities n cutoff :
  0 < n → ¬ (0 <= cutoff <= 1)%Q →
  getCloseMatches word possibilities (Some n) (Some cutoff)
  = Throw (Error "cutoff must be in [0.0, 1.0]: (").
Proof.
  intros Hn Hc. unfold getCloseMatches. cbv [default from_option id].
  destruct (Z.ltb_spec 0 n); [|lia]. cbn [negb].
  destruct (Qle_bool 0 cutoff && Qle_bool cutoff 1) eqn:E; [|reflexivity].
  apply andb_prop in E as [E1 E2].
  apply Qle_bool_iff in E1, E2. tauto.
Qed.

Lemma restore_throws_iff delta which :
  (∃ msg, restore delta which = Throw (Error msg)) ↔ which ≠ 1 ∧ which ≠ 2.
Proof.
  unfold restore.
  destruct (Z.eqb_spec which 1) as [->|H1].
  - split; [intros [msg H]; discriminate | intros [? _]; contradiction].
  - destruct (Z.eqb_spec which 2) as [->|H2].
    + split; [intros [msg H]; discriminate | intros [_ ?]; contradiction].
    + split; [done | eauto].
Qed.

(** ** quickRatio and inherited properties

    [quickRatio] reads [fullbcount[elt]] without [_has]; for an element
    that names a property of [Object.prototype] the read yields that
    property, not a count. *)

(** C5 at [new SequenceMatcher(null, ['constructor'], ['constructor'])]:
    [ratio] is 1 and [quickRatio] is 0, so [quickRatio] is not an upper
    bound of [ratio]. *)
Theorem quickRatio_below_ratio :
  ∃ r m', ratio matcher_constructor = Ok (r, m')
          ∧ (r == 1)%Q
          ∧ ((quickRatio matcher_constructor).1 == 0)%Q
          ∧ ((quickRatio matcher_constructor).1 < r)%Q.
Proof.
  eexists _, _. split; [reflexivity|]. repeat split.
Qed.

(** ** contextDiff and the groups after the first *)

(** C6 at two nine-line files that differ in their first and last lines:
    [getGroupedOpcodes] returns two groups, and [contextDiff] emits the
    body of the first one only (one separator line, nothing for the
    second group). *)
Theorem contextDiff_second_group_missing :
  ∃ groups m' lines,
    getGroupedOpcodes
      (new_SequenceMatcher None (Some nine_lines_a) (Some nine_lines_b) None) None
    = Ok (groups, m')
    ∧ length groups = 2%nat
    ∧ contextDiff nine_lines_a nine_lines_b None = Ok lines
    ∧ count_separators lines = 1%nat
    ∧ lines = [ "*** " +:+ newline; "--- " +:+ newline;
                "***************" +:+ newline;
                "*** 1,4 ****" +:+ newline; "! x"; "  1"; "  2"; "  3";
                "--- 1,4 ----" +:+ newline; "! X"; "  1"; "  2"; "  3" ].
Proof.
  eexists _, _, _. split; [vm_compute; reflexivity|].
  split; [reflexivity|]. split; [vm_compute; reflexivity|].
  split; reflexivity.
Qed.

(** ** getCloseMatches with a word that is not empty *)

Lemma close_step_ok cutoff st x :
  indexed st.1 → ∃ st2, close_step cutoff st x = Ok st2 ∧ indexed st2.1.
Proof.
  destruct st as [s result]. intros Hidx. change (indexed s) in Hidx.
  unfold close_step.
  apply (indexed_setSeq1 _ (Str x)) in Hidx. revert Hidx.
  generalize (setSeq1 s (Str x)). clear s. intros s Hidx.
  destruct (Qle_bool cutoff (realQuickRatio s)); [|by eexists].
  pose proof (indexed_quickRatio s Hidx) as Hq. revert Hq.
  generalize (quickRatio s). intros [q s1] Hq. cbn [snd] in Hq.
  destruct (Qle_bool cutoff q); [|by eexists].
  destruct (ratio_ok s1 Hq) as (r & s2 & -> & Hs2). cbn -[ratio].
  destruct (Qle_bool cutoff r); [|by eexists].
  destruct (ratio_ok s2 Hs2) as (r' & s3 & -> & Hs3). cbn. by eexists.
Qed.

(** X19: for a word other than the empty string, [getCloseMatches] returns
    exactly when its arguments are valid. *)
Theorem getCloseMatches_returns_iff word possibilities n cutoff :
  word ≠ "" →
  is_Ok (getCloseMatches word possibilities (Some n) (Some cutoff))
  ↔ 0 < n ∧ (0 <= cutoff <= 1)%Q.
Proof.
  intros Hw. split.
  - intros [res Hres]. destruct (decide (0 < n)) as [Hn|Hn].
    + split; [done|].
      destruct (Qle_bool 0 cutoff && Qle_bool cutoff 1) eqn:E.
      * apply andb_prop in E as [E1 E2]. by apply Qle_bool_iff in E1, E2.
      * rewrite getCloseMatches_rejects_cutoff in Hres; [done|done|].
        intros [H1 H2]. apply Qle_bool_iff in H1, H2. by rewrite H1, H2 in E.
    + rewrite getCloseMatches_rejects_n in Hres; [done|lia].
  - intros [Hn [H1 H2]]. unfold getCloseMatches. cbv [default from_option id].
    destruct (Z.ltb_spec 0 n); [|lia]. cbn [negb].
    apply Qle_bool_iff in H1, H2. rewrite H1, H2. cbn [andb negb].
    set (s := setSeq2 _ _).
    destruct (foldlM_inv (close_step cutoff) (λ st, indexed st.1) (λ _, True)
                possibilities (s, [])) as ([s' result] & -> & _).
    + intros st x Hst _. by apply close_step_ok.
    + by apply Forall_true.
    + apply indexed_setSeq2. right. simpl.
      destruct word; [done|]. done.
    + simpl. by eexists.
Qed.

(** ** The sets and the index that [_chainB] builds *)

Lemma purge_fold_lookup P keys (st : gset string * gmap string (list Z)) x :
  (foldl (purge_step P) st keys).2 !! x
  = match st.2 !! x with
    | Some l => if P x l && bool_decide (x ∈ keys) then None else Some l
    | None => None
    end.
Proof.
  revert st. induction keys as [|k keys IH]; intros [s t]; simpl.
  - destruct (t !! x); [|done]. by rewrite andb_false_r.
  - rewrite IH. unfold purge_step. simpl.
    destruct (t !! k) as [idxs|] eqn:Ek.
    + destruct (P k idxs) eqn:EP; simpl.
      * destruct (decide (x = k)) as [->|Hne].
        -- rewrite lookup_delete_eq, Ek, EP. simpl.
           rewrite bool_decide_eq_true_2; [done|left].
        -- rewrite lookup_delete_ne by done. destruct (t !! x); [|done].
           destruct (P x l); [|done]. simpl.
           rewrite (bool_decide_ext (x ∈ keys) (x ∈ k :: keys)); [done|].
           set_solver.
      * destruct (t !! x) as [l|] eqn:Ex; [|done].
        destruct (P x l) eqn:EPx; [|done]. simpl.
        rewrite (bool_decide_ext (x ∈ keys) (x ∈ k :: keys)); [done|].
        split; [set_solver|]. intros [->|?]%elem_of_cons; [|done]. congruence.
    + simpl. destruct (t !! x) as [l|] eqn:Ex; [|done].
      destruct (P x l) eqn:EPx; [|done]. simpl.
      rewrite (bool_decide_ext (x ∈ keys) (x ∈ k :: keys)); [done|].
      split; [set_solver|]. intros [->|?]%elem_of_cons; [|done]. congruence.
Qed.

Lemma purge_fold_elem P keys (st : gset string * gmap string (list Z)) x :
  x ∈ (foldl (purge_step P) st keys).1
  ↔ x ∈ st.1 ∨ (x ∈ keys ∧ ∃ l, st.2 !! x = Some l ∧ P x l = true).
Proof.
  revert st. induction keys as [|k keys IH]; intros [s t]; simpl.
  - set_solver.
  - rewrite IH. unfold purge_step. simpl.
    destruct (t !! k) as [idxs|] eqn:Ek.
    + destruct (P k idxs) eqn:EP; simpl.
      * split.
        -- intros [[->%elem_of_singleton|?]%elem_of_union|(Hin & l & Hl & HP)].
           ++ right. split; [left|]. eauto.
           ++ by left.
           ++ right. split; [by right|]. exists l. split; [|done].
              apply lookup_delete_Some in Hl. tauto.
        -- intros [?|(Hin & l & Hl & HP)]; [left; set_solver|].
           destruct (decide (x = k)) as [->|Hne]; [left; set_solver|].
           right. split; [set_solver|]. exists l. split; [|done].
           by rewrite lookup_delete_ne.
      * split.
        -- intros [?|(Hin & l & Hl & HP)]; [by left|]. right. split; [by right|]. eauto.
        -- intros [?|(Hin & l & Hl & HP)]; [by left|]. right.
           split; [|eauto]. apply elem_of_cons in Hin as [->|?]; [congruence|done].
    + simpl. split.
      * intros [?|(Hin & l & Hl & HP)]; [by left|]. right. split; [by right|]. eauto.
      * intros [?|(Hin & l & Hl & HP)]; [by left|]. right.
        split; [|eauto]. apply elem_of_cons in Hin as [->|?]; [congruence|done].
Qed.

Lemma purge_lookup P (t : gmap string (list Z)) x :
  (purge P t).2 !! x
  = match t !! x with
    | Some l => if P x l then None else Some l
    | None => None
    end.
Proof.
  unfold purge. rewrite purge_fold_lookup. simpl. destruct (t !! x) as [l|] eqn:E; [|done].
  rewrite bool_decide_eq_true_2, andb_true_r; [done|].
  apply list_elem_of_fmap. exists (x, l). split; [done|]. by apply elem_of_map_to_list.
Qed.

Lemma purge_elem P (t : gmap string (list Z)) x :
  x ∈ (purge P t).1 ↔ ∃ l, t !! x = Some l ∧ P x l = true.
Proof.
  unfold purge. rewrite purge_fold_elem. simpl. split.
  - intros [?|[_ ?]]; [set_solver|done].
  - intros (l & Hl & HP). right. split; [|eauto].
    apply list_elem_of_fmap. exists (x, l). split; [done|]. by apply elem_of_map_to_list.
Qed.

Lemma length_positions_from i x l : length (positions_from i x l) = occ x l.
Proof.
  revert i. induction l as [|y l IH]; intros i; simpl; [done|].
  rewrite occ_cons, length_app, IH.
  destruct (decide (x = y)) as [->|]; destruct (decide _); simpl; congruence.
Qed.

Lemma chain_index_full l x :
  chain_index ∅ 0 l !! x
  = if decide (x ∈ l ∧ x ≠ "__proto__") then Some (positions_from 0 x l) else None.
Proof.
  rewrite chain_index_lookup, lookup_empty by done.
  destruct (decide (x = "__proto__")) as [->|Hne].
  - rewrite decide_False; [done|]. tauto.
  - destruct (decide (x ∈ l)) as [Hin|Hni].
    + rewrite decide_True by done.
      assert (0 < occ x l)%nat as Hpos.
      { apply list_elem_of_lookup in Hin as [k Hk].
        rewrite <- (length_positions_from 0).
        assert (Z.of_nat k ∈ positions_from 0 x l) as Hj.
        { apply elem_of_positions_from. split; [lia|].
          by rewrite Z.sub_0_r, Nat2Z.id. }
        destruct (positions_from 0 x l); [by apply elem_of_nil in Hj|simpl; lia]. }
      rewrite <- (length_positions_from 0) in Hpos.
      destruct (positions_from 0 x l); [simpl in Hpos; lia|done].
    + rewrite decide_False by tauto.
      pose proof (length_positions_from 0 x l) as Hlen.
      rewrite (occ_not_elem x l Hni) in Hlen.
      by destruct (positions_from 0 x l).
Qed.

(** What [_chainB] leaves in the three fields it computes. *)
Lemma chainB_spec m :
  ∃ t junk popular,
    b2j (_chainB m) = Some t ∧ isbjunk (_chainB m) = Some junk
    ∧ isbpopular (_chainB m) = Some popular
    ∧ (∀ x, x ∈ junk ↔
         x ∈ elems (b m) ∧ x ≠ "__proto__" ∧ is_junk_elt (isjunk m) x = true)
    ∧ (∀ x, x ∈ popular ↔
         x ∈ elems (b m) ∧ x ≠ "__proto__" ∧ is_junk_elt (isjunk m) x = false
         ∧ is_popular_elt (autojunk m) (b m) x = true)
    ∧ (∀ x, t !! x =
         if decide (x ∈ elems (b m) ∧ x ≠ "__proto__"
                    ∧ is_junk_elt (isjunk m) x = false
                    ∧ is_popular_elt (autojunk m) (b m) x = false)
         then Some (positions_from 0 x (elems (b m))) else None).
Proof.
  unfold _chainB.
  set (t0 := chain_index ∅ 0 (elems (b m))).
  assert (Ht0 : ∀ x, t0 !! x = if decide (x ∈ elems (b m) ∧ x ≠ "__proto__")
                               then Some (positions_from 0 x (elems (b m))) else None)
    by (intros x; apply chain_index_full).
  set (r1 := match isjunk m with
             | Some f => purge (λ elt _, f elt) t0
             | None => (∅, t0)
             end).
  assert (H1 : (∀ x, x ∈ r1.1 ↔ ∃ l, t0 !! x = Some l ∧ is_junk_elt (isjunk m) x = true)
               ∧ ∀ x, r1.2 !! x = match t0 !! x with
                                  | Some l => if is_junk_elt (isjunk m) x then None else Some l
                                  | None => None
                                  end).
  { subst r1. unfold is_junk_elt. destruct (isjunk m) as [f|].
    - split; intros x; [apply purge_elem|apply purge_lookup].
    - simpl. split; intros x; [|by destruct (t0 !! x)].
      split; [set_solver|]. by intros (? & _ & ?). }
  destruct r1 as [junk t1]. simpl in H1. destruct H1 as [H1e H1l].
  set (pop := λ (_ : string) (idxs : list Z),
                len (b m) / 100 + 1 <? Z.of_nat (length idxs)).
  set (r2 := if autojunk m && (200 <=? len (b m)) then purge pop t1 else (∅, t1)).
  assert (H2 : (∀ x, x ∈ r2.1 ↔ ∃ l, t1 !! x = Some l
                                      ∧ autojunk m && (200 <=? len (b m)) && pop x l = true)
               ∧ ∀ x, r2.2 !! x = match t1 !! x with
                                  | Some l =>
                                      if autojunk m && (200 <=? len (b m)) && pop x l
                                      then None else Some l
                                  | None => None
                                  end).
  { subst r2. destruct (autojunk m && (200 <=? len (b m))).
    - split; intros x; [apply purge_elem|apply purge_lookup].
    - simpl. split; intros x; [|by destruct (t1 !! x)].
      split; [set_solver|]. by intros (? & _ & ?). }
  destruct r2 as [popular t2]. simpl in H2. destruct H2 as [H2e H2l].
  exists t2, junk, popular. do 3 (split; [done|]).
  assert (Hpop : ∀ x, pop x (positions_from 0 x (elems (b m)))
                      = (len (b m) / 100 + 1 <? Z.of_nat (occ x (elems (b m)))))
    by (intros x; unfold pop; by rewrite length_positions_from).
  split; [|split].
  - intros x. rewrite H1e, Ht0. destruct (decide _) as [[? ?]|Hn].
    + split; [intros (? & _ & ?); done|]. intros (_ & _ & ?). eauto.
    + split; [by intros (? & ? & _)|]. intros (? & ? & _). tauto.
  - intros x. rewrite H2e. unfold is_popular_elt. split.
    + intros (l & Hl & HP). rewrite H1l, Ht0 in Hl.
      destruct (decide _) as [[? ?]|]; [|done].
      destruct (is_junk_elt (isjunk m) x); [done|]. injection Hl as <-.
      rewrite Hpop in HP. done.
    + intros (? & ? & Hj & HP). exists (positions_from 0 x (elems (b m))).
      rewrite H1l, Ht0, decide_True, Hj, Hpop by done. done.
  - intros x. rewrite H2l, H1l, Ht0. unfold is_popular_elt.
    destruct (decide (x ∈ elems (b m) ∧ x ≠ "__proto__")) as [[? ?]|Hn].
    + destruct (is_junk_elt (isjunk m) x) eqn:Ej.
      * rewrite decide_False; [done|]. intros (_ & _ & ? & _). done.
      * rewrite Hpop.
        destruct (autojunk m && (200 <=? len (b m)) && _) eqn:Ep.
        -- rewrite decide_False; [done|]. intros (_ & _ & _ & ?). done.
        -- by rewrite decide_True.
    + rewrite decide_False; [done|]. tauto.
Qed.

Lemma new_SequenceMatcher_fields junk A B auto :
  isjunk (new_SequenceMatcher junk A B auto) = junk
  ∧ autojunk (new_SequenceMatcher junk A B auto) = default true auto.
Proof.
  unfold new_SequenceMatcher, setSeqs.
  set (this := mkSequenceMatcher _ _ _ _ _ _ _ _ _ _).
  assert (isjunk (setSeq1 this (default (Str "") A)) = junk
          ∧ autojunk (setSeq1 this (default (Str "") A)) = default true auto) as [H1 H2].
  { unfold setSeq1. by destruct (strict_eq _ _). }
  unfold setSeq2. destruct (strict_eq _ _); [done|].
  by destruct (chainB_fields (with_fullbcount
    (with_opcodes (with_matchingBlocks
       (with_b (setSeq1 this (default (Str "") A)) (default (Str "") B)) None) None) None))
    as (_ & _ & _ & _ & _ & -> & ->).
Qed.

(** X1: the index of a new matcher whose second sequence is not the empty
    string: the junk set holds the elements of [b] that satisfy the junk
    test, the popular set the other elements that occur more than
    [floor(n / 100) + 1] times when [autojunk] is set and [b] has at least
    200 elements, and [b2j] maps every remaining element to the ascending
    list of all of its positions in [b].  The element [__proto__] is in
    neither set and is no key of [b2j]. *)
Theorem constructor_index junk A B auto :
  B ≠ Str "" →
  let m := new_SequenceMatcher junk (Some A) (Some B) auto in
  ∃ t junkset popular,
    b2j m = Some t ∧ isbjunk m = Some junkset ∧ isbpopular m = Some popular
    ∧ (∀ x, x ∈ junkset ↔
         x ∈ elems B ∧ x ≠ "__proto__" ∧ is_junk_elt junk x = true)
    ∧ (∀ x, x ∈ popular ↔
         x ∈ elems B ∧ x ≠ "__proto__" ∧ is_junk_elt junk x = false
         ∧ is_popular_elt (default true auto) B x = true)
    ∧ (∀ x, x ∈ dom t ↔
         x ∈ elems B ∧ x ≠ "__proto__" ∧ (x ∉ junkset) ∧ (x ∉ popular))
    ∧ (∀ x l, t !! x = Some l →
         StronglySorted Z.lt l ∧ ∀ j, j ∈ l ↔ at_ B j = Some x).
Proof.
  intros HB m.
  destruct (new_SequenceMatcher_spec junk A B auto) as (_ & Hb & _ & _ & Hidx).
  destruct (new_SequenceMatcher_fields junk (Some A) (Some B) auto) as [Hj Ha].
  fold m in Hb, Hidx, Hj, Ha. destruct (Hidx HB) as (E1 & E2 & E3).
  destruct (chainB_spec m) as (t & junkset & popular & H1 & H2 & H3 & Hjs & Hps & Ht).
  rewrite Hb, Hj in Hjs. rewrite Hb, Hj, Ha in Hps. rewrite Hb, Hj, Ha in Ht.
  exists t, junkset, popular. rewrite E1, E2, E3. do 3 (split; [done|]).
  split; [done|]. split; [done|]. split.
  - intros x. rewrite elem_of_dom, Ht, Hjs, Hps. destruct (decide _) as [(?&?&?&?)|Hn].
    + split; [intros _|done]. split_and!; try done.
      * intros (_ & _ & ?). congruence.
      * intros (_ & _ & _ & ?). congruence.
    + split; [by intros [? ?]|]. intros (? & ? & Hnj & Hnp). destruct Hn.
      split_and!; try done.
      * destruct (is_junk_elt junk x) eqn:E; [|done]. by destruct Hnj.
      * destruct (is_popular_elt _ B x) eqn:E; [|done]. destruct Hnp.
        split_and!; try done.
        destruct (is_junk_elt junk x) eqn:E'; [|done]. by destruct Hnj.
  - intros x l Hl. rewrite Ht in Hl. destruct (decide _); [|done]. injection Hl as <-.
    split; [apply positions_from_sorted|]. intros j.
    rewrite elem_of_positions_from. unfold at_. rewrite Z.sub_0_r.
    destruct (decide (0 ≤ j)); [tauto|]. split; [lia|done].
Qed.

Lemma constructor_index_witness :
  Str "abcab" ≠ Str ""
  ∧ ∃ t, b2j (new_SequenceMatcher None (Some (Str "xyz")) (Some (Str "abcab")) None) = Some t
         ∧ ∀ l, t !! "b" = Some l → ∀ j, j ∈ l ↔ at_ (Str "abcab") j = Some "b".
Proof.
  assert (H : Str "abcab" ≠ Str "") by discriminate.
  split; [exact H|].
  destruct (constructor_index None (Str "xyz") (Str "abcab") None H)
    as (t & junkset & popular & Ht & _ & _ & _ & _ & _ & Hl).
  exists t. split; [exact Ht|]. intros l El. exact (proj2 (Hl "b" l El)).
Defined.

(** ** Matching blocks and opcodes of a new matcher *)

Lemma getMatchingBlocks_canonical_witness :
  Str "bcde" ≠ Str ""
  ∧ ∃ blocks m',
      getMatchingBlocks (new_SequenceMatcher None (Some (Str "abcd")) (Some (Str "bcde")) None)
      = Ok (blocks, m')
      ∧ canonical (Str "abcd") (Str "bcde") blocks.
Proof.
  assert (H : Str "bcde" ≠ Str "") by discriminate.
  split; [exact H|].
  exact (getMatchingBlocks_canonical None (Str "abcd") (Str "bcde") None H).
Defined.

Lemma replay_cons A B c codes :
  replay A B (c :: codes) = replay A B [c] ++ replay A B codes.
Proof. unfold replay. simpl. by rewrite app_nil_r. Qed.

Lemma replay_tiles A B codes i j :
  tiles i j codes (len A) (len B) → Forall op_shape codes →
  (∀ i1 i2 j1 j2, (equal_, i1, i2, j1, j2) ∈ codes →
     whole_block A B (i1, j1, i2 - i1)) →
  0 ≤ j →
  replay A B codes = slice (elems B) j (len B).
Proof.
  revert i j. induction codes as [|[[[[tag i1] i2] j1] j2] codes IH];
    intros i j Ht Hs He Hj.
  - destruct Ht as [_ ->]. by rewrite slice_empty.
  - destruct Ht as (-> & -> & Ht). apply Forall_cons in Hs as [Hs Hs'].
    destruct (tiles_le _ _ _ _ _ Ht Hs') as [_ Hle].
    rewrite replay_cons.
    rewrite (IH i2 j2 Ht Hs'); cycle 1.
    { intros a1 a2 b1 b2 Hin. apply (He a1 a2 b1 b2). by right. }
    { destruct tag; simpl in Hs; lia. }
    unfold replay. simpl. rewrite app_nil_r.
    destruct tag; simpl in Hs.
    + by rewrite <- slice_split by lia.
    + destruct Hs as [_ ->]. done.
    + by rewrite <- slice_split by lia.
    + pose proof (whole_block_slice A B i j (i2 - i) (He i i2 j j2 ltac:(left))) as Heq.
      replace (i + (i2 - i)) with i2 in Heq by lia.
      replace (j + (i2 - i)) with j2 in Heq by lia.
      rewrite Heq. by rewrite <- slice_split by lia.
Qed.

(** X4: the opcodes of a new matcher whose second sequence is not the empty
    string tile both sequences in step from [(0, 0)] to
    [(len(a), len(b))], have the ranges that their tags require, never
    put two [equal] opcodes side by side, and describe the second
    sequence: copying [a[i1:i2]] for [equal], taking [b[j1:j2]] for
    [replace] and [insert] and nothing for [delete] gives [b]. *)
Theorem getOpcodes_replay junk A B auto :
  B ≠ Str "" →
  ∃ codes m',
    getOpcodes (new_SequenceMatcher junk (Some A) (Some B) auto) = Ok (codes, m')
    ∧ opcodes_ok A B codes
    ∧ replay A B codes = elems B.
Proof.
  intros HB.
  destruct (new_SequenceMatcher_spec junk A B auto) as (Ha & Hb & Hmb & Hop & Hidx).
  destruct (getOpcodes_indexed _ (Hidx HB) Hmb Hop) as (codes & m' & -> & Hok).
  rewrite Ha, Hb in Hok. eexists _, _. split; [done|]. split; [done|].
  destruct Hok as [Ht Hs He _].
  rewrite (replay_tiles A B codes 0 0 Ht Hs He) by lia.
  unfold len. by rewrite slice_all.
Qed.

Lemma getOpcodes_replay_witness :
  Str "bcde" ≠ Str ""
  ∧ ∃ codes m',
      getOpcodes (new_SequenceMatcher None (Some (Str "abcd")) (Some (Str "bcde")) None)
      = Ok (codes, m')
      ∧ opcodes_ok (Str "abcd") (Str "bcde") codes
      ∧ replay (Str "abcd") (Str "bcde") codes = ["b"; "c"; "d"; "e"].
Proof.
  assert (H : Str "bcde" ≠ Str "") by discriminate.
  split; [exact H|].
  exact (getOpcodes_replay None (Str "abcd") (Str "bcde") None H).
Defined.

(** ** The caches *)

Lemma getMatchingBlocks_fields m blocks m' :
  getMatchingBlocks m = Ok (blocks, m') →
  matchingBlocks m' = Some blocks
  ∧ a m' = a m ∧ b m' = b m ∧ b2j m' = b2j m ∧ fullbcount m' = fullbcount m
  ∧ opcodes m' = opcodes m ∧ isjunk m' = isjunk m ∧ isbjunk m' = isbjunk m
  ∧ isbpopular m' = isbpopular m ∧ autojunk m' = autojunk m.
Proof.
  unfold getMatchingBlocks. destruct (matchingBlocks m) as [cached|] eqn:E.
  - intros [= <- <-]. by rewrite E.
  - destruct (matching_loop _ _ _ _); simpl; [|done]. intros [= <- <-]. done.
Qed.

Lemma getOpcodes_fields m codes m' :
  getOpcodes m = Ok (codes, m') →
  opcodes m' = Some codes
  ∧ a m' = a m ∧ b m' = b m ∧ b2j m' = b2j m ∧ fullbcount m' = fullbcount m
  ∧ isjunk m' = isjunk m ∧ isbjunk m' = isbjunk m
  ∧ isbpopular m' = isbpopular m ∧ autojunk m' = autojunk m.
Proof.
  unfold getOpcodes. destruct (opcodes m) as [cached|] eqn:E.
  - intros [= <- <-]. by rewrite E.
  - destruct (getMatchingBlocks m) as [[blocks m1]|] eqn:E1; simpl; [|done].
    intros [= <- <-]. apply getMatchingBlocks_fields in E1.
    simpl. tauto.
Qed.

(** X5: a second call of [getMatchingBlocks], [getOpcodes] or [ratio] returns
    what the first one returned and leaves the matcher as the first call
    left it. *)
Theorem cached_results m :
  (∀ blocks m', getMatchingBlocks m = Ok (blocks, m') →
     getMatchingBlocks m' = Ok (blocks, m'))
  ∧ (∀ codes m', getOpcodes m = Ok (codes, m') → getOpcodes m' = Ok (codes, m'))
  ∧ (∀ r m', ratio m = Ok (r, m') → ratio m' = Ok (r, m')).
Proof.
  split; [|split].
  - intros blocks m' H. apply getMatchingBlocks_fields in H as [H _].
    unfold getMatchingBlocks. by rewrite H.
  - intros codes m' H. apply getOpcodes_fields in H as [H _].
    unfold getOpcodes. by rewrite H.
  - intros r m'. unfold ratio.
    destruct (getMatchingBlocks m) as [[blocks m1]|] eqn:E; simpl; [|done].
    intros [= <- <-]. pose proof (getMatchingBlocks_fields _ _ _ E) as (H & Ha & Hb & _).
    unfold getMatchingBlocks. rewrite H. simpl. by rewrite Ha, Hb.
Qed.

(** *** Matchers with the same sequences and the same index *)

Lemma findLongestMatch_same m1 m2 alo ahi blo bhi :
  same_inputs m1 m2 →
  findLongestMatch m1 alo ahi blo bhi = findLongestMatch m2 alo ahi blo bhi.
Proof.
  intros (Ha & Hb & Ht & Hj). unfold findLongestMatch. by rewrite Ha, Hb, Ht, Hj.
Qed.

Lemma matching_loop_same m1 m2 fuel queue acc :
  same_inputs m1 m2 →
  matching_loop m1 fuel queue acc = matching_loop m2 fuel queue acc.
Proof.
  intros Hs. revert queue acc.
  induction fuel as [|fuel IH]; intros [|[[[alo ahi] blo] bhi] queue] acc; simpl; try done.
  rewrite (findLongestMatch_same m1 m2) by done.
  destruct (findLongestMatch m2 alo ahi blo bhi) as [[[i j] k]|]; simpl; [|done].
  destruct (k =? 0); apply IH.
Qed.

Lemma getMatchingBlocks_same m1 m2 :
  same_inputs m1 m2 → matchingBlocks m1 = None → matchingBlocks m2 = None →
  match getMatchingBlocks m1, getMatchingBlocks m2 with
  | Ok (blocks1, _), Ok (blocks2, _) => blocks1 = blocks2
  | Throw e1, Throw e2 => e1 = e2
  | _, _ => False
  end.
Proof.
  intros Hs H1 H2. unfold getMatchingBlocks. rewrite H1, H2.
  rewrite (matching_loop_same m1 m2) by done. destruct Hs as (-> & -> & _).
  by destruct (matching_loop _ _ _ _).
Qed.

Lemma getOpcodes_same m1 m2 :
  same_inputs m1 m2 → matchingBlocks m1 = None → matchingBlocks m2 = None →
  opcodes m1 = None → opcodes m2 = None →
  match getOpcodes m1, getOpcodes m2 with
  | Ok (codes1, _), Ok (codes2, _) => codes1 = codes2
  | Throw e1, Throw e2 => e1 = e2
  | _, _ => False
  end.
Proof.
  intros Hs H1 H2 H3 H4. unfold getOpcodes. rewrite H3, H4.
  pose proof (getMatchingBlocks_same m1 m2 Hs H1 H2) as H.
  destruct (getMatchingBlocks m1) as [[blocks1 ?]|], (getMatchingBlocks m2) as [[blocks2 ?]|];
    simpl; try done. by subst.
Qed.

Lemma indexed_same_index m1 m2 :
  indexed m1 → indexed m2 →
  b m1 = b m2 → isjunk m1 = isjunk m2 → autojunk m1 = autojunk m2 →
  b2j m1 = b2j m2 ∧ isbjunk m1 = isbjunk m2 ∧ isbpopular m1 = isbpopular m2.
Proof.
  intros (E1 & E2 & E3) (F1 & F2 & F3) Hb Hj Ha.
  destruct (chainB_depends m1 m2 Hb Hj Ha) as (G1 & G2 & G3).
  rewrite E1, E2, E3, F1, F2, F3. done.
Qed.

Lemma setSeq1_fields m x :
  b (setSeq1 m x) = b m ∧ b2j (setSeq1 m x) = b2j m
  ∧ isjunk (setSeq1 m x) = isjunk m ∧ isbjunk (setSeq1 m x) = isbjunk m
  ∧ isbpopular (setSeq1 m x) = isbpopular m ∧ autojunk (setSeq1 m x) = autojunk m
  ∧ fullbcount (setSeq1 m x) = fullbcount m.
Proof. unfold setSeq1. by destruct (strict_eq x (a m)). Qed.

Lemma setSeq2_fields m x :
  strict_eq x (b m) = false →
  a (setSeq2 m x) = a m ∧ b (setSeq2 m x) = x
  ∧ matchingBlocks (setSeq2 m x) = None ∧ opcodes (setSeq2 m x) = None
  ∧ fullbcount (setSeq2 m x) = None
  ∧ isjunk (setSeq2 m x) = isjunk m ∧ autojunk (setSeq2 m x) = autojunk m.
Proof.
  intros Hne. unfold setSeq2. rewrite Hne.
  destruct (chainB_fields (with_fullbcount
    (with_opcodes (with_matchingBlocks (with_b m x) None) None) None))
    as (-> & -> & -> & -> & -> & -> & ->). done.
Qed.

(** X6: after [getOpcodes] has filled the caches of a new matcher, replacing
    the first sequence by a different one gives a matcher that returns
    the same opcodes as a new matcher for the new pair of sequences: the
    caches are emptied and the index of the second sequence is the one a
    new matcher would build. *)
Theorem setSeq1_reuses_index junk A B auto A' codes0 m1 :
  B ≠ Str "" → strict_eq A' A = false →
  getOpcodes (new_SequenceMatcher junk (Some A) (Some B) auto) = Ok (codes0, m1) →
  ∃ codes m2 m3,
    getOpcodes (setSeq1 m1 A') = Ok (codes, m2)
    ∧ getOpcodes (new_SequenceMatcher junk (Some A') (Some B) auto) = Ok (codes, m3)
    ∧ opcodes_ok A' B codes.
Proof.
  intros HB Hne H0.
  set (m0 := new_SequenceMatcher junk (Some A) (Some B) auto) in *.
  set (mf := new_SequenceMatcher junk (Some A') (Some B) auto).
  destruct (new_SequenceMatcher_spec junk A B auto) as (Ha & Hb & _ & _ & Hidx).
  destruct (new_SequenceMatcher_fields junk (Some A) (Some B) auto) as [Hj Hau].
  destruct (new_SequenceMatcher_spec junk A' B auto) as (Ha' & Hb' & Hmb' & Hop' & Hidx').
  destruct (new_SequenceMatcher_fields junk (Some A') (Some B) auto) as [Hj' Hau'].
  fold m0 in Ha, Hb, Hidx, Hj, Hau. fold mf in Ha', Hb', Hmb', Hop', Hidx', Hj', Hau'.
  specialize (Hidx HB). specialize (Hidx' HB).
  pose proof (getOpcodes_fields _ _ _ H0) as (_ & Ea & Eb & Et & _ & Ej & Ebj & Ebp & Eau).
  assert (indexed m1) as Hidx1.
  { eapply (indexed_ext m0); try done. }
  set (m2 := setSeq1 m1 A').
  assert (a m2 = A' ∧ matchingBlocks m2 = None ∧ opcodes m2 = None) as (Fa & Fmb & Fop).
  { subst m2. unfold setSeq1. rewrite Ea, Ha, Hne. done. }
  destruct (setSeq1_fields m1 A') as (Fb & Ft & Fj & Fbj & Fbp & Fau & _). fold m2 in Fb, Ft, Fj, Fbj, Fbp, Fau.
  assert (indexed m2) as Hidx2 by (by apply indexed_setSeq1).
  destruct (indexed_same_index m2 mf Hidx2 Hidx') as (Gt & Gbj & _); [congruence..|].
  assert (same_inputs m2 mf) as Hs by (unfold same_inputs; split_and!; congruence).
  pose proof (getOpcodes_same m2 mf Hs Fmb Hmb' Fop Hop') as Hsame.
  destruct (getOpcodes_indexed mf Hidx' Hmb' Hop') as (codes & m3 & E3 & Hok).
  rewrite E3 in Hsame. destruct (getOpcodes m2) as [[codes2 m2']|]; [|done]. subst codes2.
  exists codes, m2', m3. rewrite Ha', Hb' in Hok. done.
Qed.

Lemma setSeq1_reuses_index_witness :
  let m0 := new_SequenceMatcher None (Some (Str "abcd")) (Some (Str "bcde")) None in
  Str "bcde" ≠ Str "" ∧ strict_eq (Str "bcdf") (Str "abcd") = false
  ∧ ∃ codes0 m1, getOpcodes m0 = Ok (codes0, m1)
    ∧ ∃ codes m2 m3,
        getOpcodes (setSeq1 m1 (Str "bcdf")) = Ok (codes, m2)
        ∧ getOpcodes (new_SequenceMatcher None (Some (Str "bcdf")) (Some (Str "bcde")) None)
          = Ok (codes, m3)
        ∧ opcodes_ok (Str "bcdf") (Str "bcde") codes.
Proof.
  intros m0.
  assert (H1 : Str "bcde" ≠ Str "") by discriminate.
  assert (H2 : strict_eq (Str "bcdf") (Str "abcd") = false) by reflexivity.
  split; [exact H1|]. split; [exact H2|].
  destruct (getOpcodes m0) as [[codes0 m1]|e] eqn:E; [|vm_compute in E; discriminate].
  exists codes0, m1. split; [reflexivity|].
  exact (setSeq1_reuses_index None (Str "abcd") (Str "bcde") None (Str "bcdf") codes0 m1 H1 H2 E).
Defined.

(** X7: replacing the second sequence of any matcher by a different one that
    is not the empty string gives a matcher that returns the same opcodes
    as a new matcher for the new pair of sequences, with the same junk
    test and flag. *)
Theorem setSeq2_rebuilds_index m B' :
  B' ≠ Str "" → strict_eq B' (b m) = false →
  ∃ codes m2 m3,
    getOpcodes (setSeq2 m B') = Ok (codes, m2)
    ∧ getOpcodes (new_SequenceMatcher (isjunk m) (Some (a m)) (Some B') (Some (autojunk m)))
      = Ok (codes, m3)
    ∧ opcodes_ok (a m) B' codes.
Proof.
  intros HB Hne.
  set (mf := new_SequenceMatcher (isjunk m) (Some (a m)) (Some B') (Some (autojunk m))).
  destruct (new_SequenceMatcher_spec (isjunk m) (a m) B' (Some (autojunk m)))
    as (Ha' & Hb' & Hmb' & Hop' & Hidx').
  destruct (new_SequenceMatcher_fields (isjunk m) (Some (a m)) (Some B') (Some (autojunk m)))
    as [Hj' Hau'].
  fold mf in Ha', Hb', Hmb', Hop', Hidx', Hj', Hau'. specialize (Hidx' HB).
  set (m2 := setSeq2 m B').
  destruct (setSeq2_fields m B' Hne) as (Fa & Fb & Fmb & Fop & _ & Fj & Fau).
  fold m2 in Fa, Fb, Fmb, Fop, Fj, Fau.
  assert (indexed m2) as Hidx2 by (apply indexed_setSeq2; by right).
  simpl in Hau'.
  destruct (indexed_same_index m2 mf Hidx2 Hidx') as (Gt & Gbj & _); [congruence..|].
  assert (same_inputs m2 mf) as Hs by (unfold same_inputs; split_and!; congruence).
  pose proof (getOpcodes_same m2 mf Hs Fmb Hmb' Fop Hop') as Hsame.
  destruct (getOpcodes_indexed mf Hidx' Hmb' Hop') as (codes & m3 & E3 & Hok).
  rewrite E3 in Hsame. destruct (getOpcodes m2) as [[codes2 m2']|]; [|done]. subst codes2.
  exists codes, m2', m3. rewrite Ha', Hb' in Hok. done.
Qed.

Lemma setSeq2_rebuilds_index_witness :
  let m := new_SequenceMatcher None (Some (Str "abcd")) (Some (Str "bcde")) None in
  Str "abxd" ≠ Str "" ∧ strict_eq (Str "abxd") (b m) = false
  ∧ ∃ codes m2 m3,
      getOpcodes (setSeq2 m (Str "abxd")) = Ok (codes, m2)
      ∧ getOpcodes (new_SequenceMatcher (isjunk m) (Some (a m)) (Some (Str "abxd"))
                      (Some (autojunk m))) = Ok (codes, m3)
      ∧ opcodes_ok (a m) (Str "abxd") codes.
Proof.
  intros m.
  assert (H1 : Str "abxd" ≠ Str "") by discriminate.
  assert (H2 : strict_eq (Str "abxd") (b m) = false) by reflexivity.
  split; [exact H1|]. split; [exact H2|].
  exact (setSeq2_rebuilds_index m (Str "abxd") H1 H2).
Defined.

(** ** Sequences without a common element *)

Lemma selected_empty A B good alo ahi blo bhi x :
  alo ≤ ahi → blo ≤ bhi →
  selected A B good alo ahi blo bhi x → x.2 = 0 → x = (alo, blo, 0).
Proof.
  destruct x as [[i j] k]. simpl. intros Ha Hb [Hc Hmin] ->.
  destruct Hc as (?&?&_).
  destruct (Hmin alo blo 0) as [_ Hlex].
  { repeat split; try lia. }
  specialize (Hlex eq_refl). unfold lex_le in Hlex.
  assert (i = alo) by lia. assert (j = blo) by lia. by subst.
Qed.

Lemma grow_unequal P A B alo ahi blo bhi :
  (alo < ahi → blo < bhi → at_ A alo ≠ at_ B blo) →
  grow P A B alo ahi blo bhi (alo, blo, 0) = (alo, blo, 0).
Proof.
  intros Hne. unfold grow. simpl. rewrite Z.sub_diag. simpl. rewrite !Z.add_0_r.
  destruct (Z.to_nat (ahi - alo)) as [|n] eqn:E; simpl; [done|]. rewrite !Z.add_0_r.
  destruct (Z.ltb_spec alo ahi); simpl; [|done].
  destruct (Z.ltb_spec blo bhi); simpl; [|done].
  rewrite (bool_decide_eq_false_2 (at_ A alo = at_ B blo)) by auto.
  by rewrite andb_false_r.
Qed.

Lemma findLongestMatch_disjoint m alo ahi blo bhi :
  indexed m → valid_window m (alo, ahi, blo, bhi) →
  (∀ x, x ∈ elems (a m) → x ∉ elems (b m)) →
  findLongestMatch m alo ahi blo bhi = Ok (alo, blo, 0).
Proof.
  intros Hidx Hw Hdis.
  assert (Hat : ∀ i j x, at_ (a m) i = Some x → at_ (b m) j ≠ Some x).
  { intros i j x Hi Hj. unfold at_ in Hi, Hj.
    destruct (decide (0 ≤ i)), (decide (0 ≤ j)); try done.
    apply list_elem_of_lookup_2 in Hi, Hj. by apply (Hdis x). }
  destruct (findLongestMatch_indexed m alo ahi blo bhi Hidx Hw) as (core & Hsel & ->).
  destruct Hw as (?&?&?&?&?&?).
  assert (core = (alo, blo, 0)) as ->.
  { eapply selected_empty; [| |exact Hsel|]; [lia|lia|].
    destruct core as [[i j] k]. destruct Hsel as [Hc _]. simpl.
    destruct Hc as (?&?&?&?&?&Hhit).
    destruct (decide (k = 0)) as [|Hk]; [done|].
    destruct (Hhit 0 ltac:(lia)) as (x & Hx & Hy & _). by destruct (Hat _ _ _ Hx Hy). }
  assert (Hne : alo < ahi → blo < bhi → at_ (a m) alo ≠ at_ (b m) blo).
  { intros ? ? Heq. destruct (at_Some (a m) alo) as [x Hx]; [lia|].
    rewrite Hx in Heq. by destruct (Hat _ blo _ Hx). }
  by rewrite !grow_unequal.
Qed.

Lemma calculateRatio_zero length : length ≠ 0 → (_calculateRatio 0 length == 0)%Q.
Proof.
  intros Hne. unfold _calculateRatio. destruct (Z.eqb_spec length 0); [done|].
  simpl. unfold Qdiv. by rewrite Qmult_0_l.
Qed.

(** X8: when no element of the first sequence occurs in the second one and
    neither of them is empty, the matching blocks are the sentinel alone,
    the opcodes are one [replace] of everything, and the ratio is 0. *)
Theorem disjoint_sequences junk A B auto :
  0 < len A → 0 < len B →
  Forall (λ x, x ∉ elems B) (elems A) →
  let m := new_SequenceMatcher junk (Some A) (Some B) auto in
  ∃ m1 m2 r m3,
    getMatchingBlocks m = Ok ([(len A, len B, 0)], m1)
    ∧ getOpcodes m = Ok ([(replace_, 0, len A, 0, len B)], m2)
    ∧ ratio m = Ok (r, m3) ∧ (r == 0)%Q.
Proof.
  intros HA HB Hdis m. rewrite Forall_forall in Hdis.
  assert (B ≠ Str "") as HB' by (intros ->; by vm_compute in HB).
  destruct (new_SequenceMatcher_spec junk A B auto) as (Ha & Hb & Hmb & Hop & Hidx).
  fold m in Ha, Hb, Hmb, Hop, Hidx. specialize (Hidx HB').
  assert (getMatchingBlocks m
          = Ok ([(len A, len B, 0)], with_matchingBlocks m (Some [(len A, len B, 0)])))
    as Hget.
  { unfold getMatchingBlocks. rewrite Hmb, Ha, Hb.
    destruct (Z.to_nat (len A + len B + 1)) as [|fuel] eqn:E; [lia|].
    cbn [matching_loop]. rewrite findLongestMatch_disjoint; try done.
    - simpl. by destruct fuel.
    - unfold valid_window. rewrite Ha, Hb. lia.
    - by rewrite Ha, Hb. }
  eexists _, _, _, _. split; [exact Hget|]. split; [|split].
  - unfold getOpcodes. rewrite Hop, Hget. cbn [mbind result_bind].
    rewrite opcodes_of_ops_from. simpl. unfold edit.
    destruct (Z.ltb_spec 0 (len A)); [|lia]. destruct (Z.ltb_spec 0 (len B)); [|lia].
    simpl. done.
  - unfold ratio. rewrite Hget. cbn [mbind result_bind]. done.
  - simpl. rewrite Ha, Hb. apply calculateRatio_zero. lia.
Qed.

Lemma disjoint_sequences_witness :
  0 < len (Str "abc") ∧ 0 < len (Str "xy")
  ∧ Forall (λ x, x ∉ elems (Str "xy")) (elems (Str "abc"))
  ∧ ∃ m2, getOpcodes (new_SequenceMatcher None (Some (Str "abc")) (Some (Str "xy")) None)
          = Ok ([(replace_, 0, 3, 0, 2)], m2).
Proof.
  assert (H1 : 0 < len (Str "abc")) by reflexivity.
  assert (H2 : 0 < len (Str "xy")) by reflexivity.
  assert (H3 : Forall (λ x, x ∉ elems (Str "xy")) (elems (Str "abc")))
    by (apply (bool_decide_unpack _); vm_compute; exact I).
  split; [exact H1|]. split; [exact H2|]. split; [exact H3|].
  destruct (disjoint_sequences None (Str "abc") (Str "xy") None H1 H2 H3)
    as (m1 & m2 & r & m3 & _ & Hop & _).
  exists m2. exact Hop.
Defined.

(** ** Sequences with the same elements *)

Lemma at_same A B i : elems A = elems B → at_ A i = at_ B i.
Proof. intros H. unfold at_. by rewrite H. Qed.

Lemma grow_left_diagonal P A B alo blo n x :
  diagonal x → diagonal (grow_left P A B alo blo n x).
Proof.
  revert x. induction n as [|n IH]; intros [[i j] k] Hd; simpl; [done|].
  destruct (_ && _); [|done]. apply IH. unfold diagonal in *. simpl in *. lia.
Qed.

Lemma grow_right_diagonal P A B ahi bhi n x :
  diagonal x → diagonal (grow_right P A B ahi bhi n x).
Proof.
  revert x. induction n as [|n IH]; intros [[i j] k] Hd; simpl; [done|].
  destruct (_ && _); [|done]. by apply IH.
Qed.

Lemma grow_diagonal P A B alo ahi blo bhi x :
  diagonal x → diagonal (grow P A B alo ahi blo bhi x).
Proof. intros. by apply grow_right_diagonal, grow_left_diagonal. Qed.

(** From an empty match at the corner of a window that starts with a
    pair of equal elements, the extension takes at least that pair when
    the element passes the test. *)
Lemma grow_corner P A B lo hi :
  lo < hi → at_ A lo = at_ B lo → P (key_of (at_ B lo)) = true →
  1 ≤ (grow P A B lo hi lo hi (lo, lo, 0)).2.
Proof.
  intros Hlt Heq HP. unfold grow. simpl. rewrite Z.sub_diag. simpl. rewrite !Z.add_0_r.
  destruct (Z.to_nat (hi - lo)) as [|n] eqn:E; [lia|]. simpl. rewrite !Z.add_0_r.
  destruct (Z.ltb_spec lo hi); [|lia]. simpl. rewrite HP.
  rewrite bool_decide_eq_true_2 by done. simpl.
  etrans; [|apply grow_right_size]. done.
Qed.

Lemma selected_diagonal A B good lo hi core :
  elems A = elems B → lo ≤ hi →
  selected A B good lo hi lo hi core → diagonal core.
Proof.
  intros Hsame Hle Hsel. destruct core as [[i j] k]. unfold diagonal. simpl.
  pose proof Hsel as [Hc Hmin]. destruct Hc as (?&?&?&?&?&Hhit).
  destruct (Hmin i i k) as [_ Hx1].
  { repeat split; try lia. intros s Hs. destruct (Hhit s Hs) as (x & Hx & Hy & Hg).
    exists x. split_and!; [done| |done]. by rewrite <- (at_same A B). }
  destruct (Hmin j j k) as [_ Hx2].
  { repeat split; try lia. intros s Hs. destruct (Hhit s Hs) as (x & Hx & Hy & Hg).
    exists x. split_and!; [|done|done]. by rewrite (at_same A B). }
  specialize (Hx1 eq_refl). specialize (Hx2 eq_refl). unfold lex_le in *. lia.
Qed.

Lemma findLongestMatch_diagonal m lo hi :
  indexed m → elems (a m) = elems (b m) →
  0 ≤ lo → lo < hi → hi ≤ len (a m) →
  ∃ i k, findLongestMatch m lo hi lo hi = Ok (i, i, k)
         ∧ 1 ≤ k ∧ lo ≤ i ∧ i + k ≤ hi.
Proof.
  intros Hidx Hsame Hlo Hlt Hhi.
  assert (len (b m) = len (a m)) as Hlen by (unfold len; by rewrite Hsame).
  assert (valid_window m (lo, hi, lo, hi)) as Hw by (unfold valid_window; lia).
  destruct (findLongestMatch_indexed m lo hi lo hi Hidx Hw) as (core & Hsel & ->).
  set (c1 := grow (λ y, negb (is_bjunk m y)) (a m) (b m) lo hi lo hi core).
  set (res := grow (is_bjunk m) (a m) (b m) lo hi lo hi c1).
  assert (diagonal res) as Hd.
  { apply grow_diagonal, grow_diagonal. eapply selected_diagonal; [done| |exact Hsel]. lia. }
  assert (block (a m) (b m) lo hi lo hi res) as Hb.
  { do 2 apply grow_block. destruct core as [[i j] k]. destruct Hsel as [Hc _].
    by eapply cand_block. }
  assert (1 ≤ res.2) as Hk.
  { destruct (decide (1 ≤ core.2)) as [H1|H0].
    - etrans; [exact H1|]. etrans; [apply grow_size|apply grow_size].
    - assert (core = (lo, lo, 0)) as Hcore.
      { eapply selected_empty; [| |exact Hsel|]; [lia|lia|].
        destruct core as [[i j] k]. destruct Hsel as [(_&_&?&_) _]. simpl in *. lia. }
      subst res c1. rewrite Hcore.
      destruct (is_bjunk m (key_of (at_ (b m) lo))) eqn:Ej.
      + assert (grow (λ y, negb (is_bjunk m y)) (a m) (b m) lo hi lo hi (lo, lo, 0)
                = (lo, lo, 0)) as ->.
        { unfold grow. simpl. rewrite Z.sub_diag. simpl. rewrite !Z.add_0_r.
          destruct (Z.to_nat (hi - lo)); [done|]. simpl. rewrite !Z.add_0_r, Ej.
          simpl. by rewrite andb_false_r. }
        apply grow_corner; [done|by apply at_same|done].
      + etrans; [|apply grow_size]. apply grow_corner; [done|by apply at_same|].
        by rewrite Ej. }
  destruct res as [[i j] k]. unfold diagonal in Hd. simpl in *. subst j.
  destruct Hb as (?&?&?&?&?&_). exists i, k. done.
Qed.

Lemma queue_measure_app l1 l2 :
  queue_measure (l1 ++ l2) = queue_measure l1 + queue_measure l2.
Proof. induction l1 as [|w l1 IH]; simpl; [done|]. rewrite IH. lia. Qed.

Lemma queue_width_app l1 l2 : queue_width (l1 ++ l2) = queue_width l1 + queue_width l2.
Proof. induction l1 as [|w l1 IH]; simpl; [done|]. rewrite IH. lia. Qed.

(** On sequences with the same elements the loop of [getMatchingBlocks]
    finds blocks on the diagonal, and they cover every position of its
    windows. *)
Lemma matching_loop_diagonal m fuel queue acc :
  indexed m → elems (a m) = elems (b m) →
  Forall (diagonal_window (len (a m))) queue →
  queue_measure queue ≤ Z.of_nat fuel →
  ∃ found, matching_loop m fuel queue acc = Ok found
           ∧ (Forall diagonal acc → Forall diagonal found)
           ∧ matches_of found = matches_of acc + queue_width queue.
Proof.
  intros Hidx Hsame. revert queue acc.
  assert (len (b m) = len (a m)) as Hlen by (unfold len; by rewrite Hsame).
  assert (Hnn : ∀ q, Forall (diagonal_window (len (a m))) q → 0 ≤ queue_measure q).
  { induction 1 as [|[[[alo ahi] blo] bhi] q (?&?&?&?&?) _ IH]; simpl in *; lia. }
  induction fuel as [|fuel IH]; intros queue acc Hq Hm;
    (destruct queue as [|[[[alo ahi] blo] bhi] queue]; simpl;
     [exists acc; split; [done|]; split; [done|lia]|]);
    apply Forall_cons in Hq as [Hw Hq]; pose proof (Hnn _ Hq);
    pose proof Hw as (Hd1 & Hd2 & ? & ? & ?); simpl in Hd1, Hd2, Hm; subst blo bhi;
    simpl in *; [lia|].
  destruct (decide (alo = ahi)) as [->|Hne].
  - (* an empty window *)
    destruct (findLongestMatch_block m ahi ahi ahi ahi Hidx) as ([[i j] k] & -> & Hb);
      [unfold valid_window; lia|].
    destruct Hb as (?&?&?&?&?&_). assert (k = 0) as -> by lia. simpl.
    destruct (IH queue acc Hq) as (found & -> & ? & Hsum); [lia|].
    exists found. split; [done|]. split; [done|lia].
  - destruct (findLongestMatch_diagonal m alo ahi Hidx Hsame) as (i & k & -> & ? & ? & ?);
      [lia..|].
    simpl. destruct (Z.eqb_spec k 0); [lia|].
    set (pushl := if (alo <? i) && (alo <? i) then [(alo, i, alo, i)] else []).
    set (pushr := if (i + k <? ahi) && (i + k <? ahi)
                  then [(i + k, ahi, i + k, ahi)] else []).
    match goal with |- ∃ _, matching_loop _ _ ?q _ = _ ∧ _ =>
      assert (q = pushr ++ pushl ++ queue) as ->
    end.
    { subst pushl pushr. by destruct ((alo <? i) && (alo <? i)),
        ((i + k <? ahi) && (i + k <? ahi)). }
    assert (Forall (diagonal_window (len (a m))) pushl
            ∧ queue_measure pushl ≤ 2 * (i - alo) + 1
            ∧ queue_width pushl = i - alo) as (Hl1 & Hl2 & Hl3).
    { subst pushl. destruct (Z.ltb_spec alo i); simpl.
      - split_and!; [|lia|lia]. repeat constructor; simpl; lia.
      - split_and!; [constructor|lia|lia]. }
    assert (Forall (diagonal_window (len (a m))) pushr
            ∧ queue_measure pushr ≤ 2 * (ahi - (i + k)) + 1
            ∧ queue_width pushr = ahi - (i + k)) as (Hr1 & Hr2 & Hr3).
    { subst pushr. destruct (Z.ltb_spec (i + k) ahi); simpl.
      - split_and!; [|lia|lia]. repeat constructor; simpl; lia.
      - split_and!; [constructor|lia|lia]. }
    destruct (IH (pushr ++ pushl ++ queue) (acc ++ [(i, i, k)])) as (found & -> & Hfd & Hsum).
    + repeat (apply Forall_app; split); done.
    + rewrite !queue_measure_app. lia.
    + exists found. split; [done|]. split.
      * intros Hacc. apply Hfd, Forall_app. split; [done|]. by repeat constructor.
      * rewrite Hsum, !queue_width_app, matches_of_app, Hl3, Hr3.
        unfold matches_of at 2. simpl. lia.
Qed.

Lemma matches_of_perm l1 l2 : l1 ≡ₚ l2 → matches_of l1 = matches_of l2.
Proof.
  induction 1 as [|x l l' _ IH|x y l|l l' l'' _ IH1 _ IH2].
  - done.
  - by rewrite !matches_of_cons, IH.
  - rewrite !matches_of_cons. lia.
  - congruence.
Qed.

Lemma collapse_fold_sum st rest :
  matches_of (settled (foldl collapse_step st rest))
  = matches_of (settled st) + matches_of rest.
Proof.
  revert st. induction rest as [|[[i2 j2] k2] rest IH]; intros [[[i1 j1] k1] acc].
  - unfold matches_of at 3. simpl. lia.
  - cbn [foldl]. rewrite IH, matches_of_cons. unfold collapse_step, settled.
    cbn -[Z.eqb Z.add].
    destruct ((i1 + k1 =? i2) && (j1 + k1 =? j2)); cbn -[Z.eqb Z.add].
    + destruct (Z.eqb_spec (k1 + k2) 0), (Z.eqb_spec k1 0);
        rewrite ?matches_of_app; unfold matches_of; simpl; lia.
    + destruct (Z.eqb_spec k2 0), (Z.eqb_spec k1 0);
        rewrite ?matches_of_app; unfold matches_of; simpl; lia.
Qed.

Lemma collapse_settled l : collapse l = settled (foldl collapse_step ((0, 0, 0), []) l).
Proof.
  unfold collapse, settled. by destruct (foldl _ _ _) as [[[i1 j1] k1] acc].
Qed.

Lemma collapse_sum l : matches_of (collapse l) = matches_of l.
Proof. rewrite collapse_settled, collapse_fold_sum. unfold settled. simpl. done. Qed.

Lemma collapse_fold_diagonal st rest :
  diagonal st.1 → Forall diagonal st.2 → Forall diagonal rest →
  Forall diagonal (settled (foldl collapse_step st rest)).
Proof.
  revert st. induction rest as [|[[i2 j2] k2] rest IH]; intros [[[i1 j1] k1] acc] H1 H2 H3.
  - unfold settled. simpl in *. destruct (k1 =? 0); [done|].
    apply Forall_app. split; [done|]. by repeat constructor.
  - apply Forall_cons in H3 as [Hx H3]. cbn [foldl]. apply IH; [| |done];
      unfold collapse_step; simpl in *;
      destruct ((i1 + k1 =? i2) && (j1 + k1 =? j2)); simpl; try done.
    destruct (k1 =? 0); [done|]. apply Forall_app. split; [done|]. by repeat constructor.
Qed.

Lemma collapse_diagonal l : Forall diagonal l → Forall diagonal (collapse l).
Proof.
  intros H. rewrite collapse_settled. apply collapse_fold_diagonal; [done|constructor|done].
Qed.

(** Blocks on the diagonal that follow each other without touching
    cover all of the positions from [lo] on only when there is one block
    at most. *)
Lemma diagonal_cover A B body lo :
  StronglySorted follows body → Forall (found_block A B) body →
  Forall diagonal body → (∀ x y, adjacent body x y → ¬ touching x y) →
  Forall (λ x : triple, lo ≤ x.1.1) body →
  matches_of body = len A - lo →
  body = [] ∨ ∃ k, body = [(lo, lo, k)].
Proof.
  intros Hs. revert lo. induction Hs as [|[[i j] k] body Hs IH Hall];
    intros lo Hf Hd Hnt Hlo Hsum; [by left|].
  right. apply Forall_cons in Hf as [[Hk Hb] Hf]. apply Forall_cons in Hd as [Hij Hd].
  apply Forall_cons in Hlo as [Hi _]. unfold diagonal in Hij. simpl in *. subst j.
  destruct Hb as (?&?&?&?&?&_).
  assert (Forall (λ x : triple, i + k ≤ x.1.1 ∧ i + k ≤ x.1.2) body) as Hlo'.
  { eapply Forall_impl; [exact Hall|]. intros [[i' j'] k'] [? ?]. simpl in *. lia. }
  destruct (matches_of_sorted A B body (i + k) (i + k) Hs Hf Hlo') as [Hge Hle].
  rewrite matches_of_cons in Hsum. simpl in Hsum.
  destruct body as [|y body].
  - unfold matches_of in Hsum. simpl in Hsum. exists k. do 3 f_equal; lia.
  - destruct Hle as [Hle _]; [done|]. exfalso.
    destruct (IH (i + k)) as [?|[k' Heq]]; try done.
    + intros u v (l1 & l2 & Hl). apply Hnt. exists ((i, i, k) :: l1), l2. by rewrite Hl.
    + eapply Forall_impl; [exact Hlo'|]. by intros ? [? _].
    + lia.
    + injection Heq as -> ->. apply (Hnt (i, i, k) (i + k, i + k, k')).
      * by exists [], [].
      * done.
Qed.

Lemma calculateRatio_one n : 0 < n → (_calculateRatio n (n + n) == 1)%Q.
Proof.
  intros Hn. unfold _calculateRatio. destruct (Z.eqb_spec (n + n) 0); [lia|].
  replace (2 * n) with (n + n) by lia. apply Qmult_inv_r.
  intros Heq. unfold Qeq in Heq. simpl in Heq. lia.
Qed.

Lemma getMatchingBlocks_same_elements m :
  indexed m → matchingBlocks m = None →
  elems (a m) = elems (b m) → 0 < len (a m) →
  getMatchingBlocks m
  = Ok ([(0, 0, len (a m)); (len (a m), len (a m), 0)],
        with_matchingBlocks m (Some [(0, 0, len (a m)); (len (a m), len (a m), 0)])).
Proof.
  intros Hidx Hnone Hsame Hn.
  assert (len (b m) = len (a m)) as Hlen by (unfold len; by rewrite Hsame).
  unfold getMatchingBlocks. rewrite Hnone, Hlen.
  set (n := len (a m)) in *.
  destruct (matching_loop_spec m (Z.to_nat (n + n + 1)) [(0, n, 0, n)] [])
    as (found & E & Hf & Hap); try done.
  { repeat constructor; unfold n; lia. }
  { simpl. lia. }
  destruct (matching_loop_diagonal m (Z.to_nat (n + n + 1)) [(0, n, 0, n)] [] Hidx Hsame)
    as (found' & E' & Hd & Hsum).
  { repeat constructor; simpl; fold n; lia. }
  { simpl. lia. }
  rewrite E in E'. injection E' as <-. rewrite E. cbn [mbind result_bind].
  set (body := collapse (js_sort triple_cmp found)).
  assert (tidy (a m) (b m) body) as Ht.
  { apply collapse_tidy.
    - by rewrite js_sort_perm.
    - eapply sorted_apart_follows.
      + by rewrite js_sort_perm.
      + apply js_sort_sorted.
      + eapply all_apart_perm; [|exact Hap]. apply fmap_Permutation.
        symmetry. apply js_sort_perm. }
  assert (Forall diagonal body) as Hdb.
  { apply collapse_diagonal. rewrite js_sort_perm. apply Hd. constructor. }
  assert (matches_of body = n) as Hsb.
  { unfold body. rewrite collapse_sum, (matches_of_perm _ _ (js_sort_perm _ _)), Hsum.
    unfold matches_of. simpl. lia. }
  destruct Ht as (Hfb & Hs & Hnt).
  destruct (diagonal_cover (a m) (b m) body 0 Hs Hfb Hdb Hnt) as [Hnil|[k Hk]].
  - eapply Forall_impl; [exact Hfb|]. intros [[i j] k] [_ (?&_)]. done.
  - fold n. lia.
  - rewrite Hnil in Hsb. unfold matches_of in Hsb. simpl in Hsb. lia.
  - rewrite Hk in Hsb. unfold matches_of in Hsb. simpl in Hsb.
    assert (k = n) as -> by lia. by rewrite Hk.
Qed.

Lemma getOpcodes_all_equal m :
  indexed m → matchingBlocks m = None → opcodes m = None →
  elems (a m) = elems (b m) → 0 < len (a m) →
  ∃ m', getOpcodes m = Ok ([(equal_, 0, len (a m), 0, len (a m))], m').
Proof.
  intros Hidx Hmb Hop Hsame Hn.
  pose proof (getMatchingBlocks_same_elements m Hidx Hmb Hsame Hn) as Hget.
  eexists. unfold getOpcodes. rewrite Hop, Hget. cbn [mbind result_bind].
  rewrite opcodes_of_ops_from. simpl. unfold edit.
  rewrite Z.ltb_irrefl. simpl.
  destruct (Z.eqb_spec (len (a m)) 0); [lia|]. simpl.
  rewrite ?Z.add_0_l, ?Z.ltb_irrefl. done.
Qed.

(** X9: when both sequences hold the same elements (and at least one), the
    matching blocks are one block over everything and the sentinel, the
    opcodes are one [equal], and the ratio is 1: for every junk test and
    every [autojunk]. *)
Theorem same_elements junk A B auto :
  elems A = elems B → 0 < len A →
  let m := new_SequenceMatcher junk (Some A) (Some B) auto in
  ∃ m1 m2 r m3,
    getMatchingBlocks m = Ok ([(0, 0, len A); (len A, len A, 0)], m1)
    ∧ getOpcodes m = Ok ([(equal_, 0, len A, 0, len A)], m2)
    ∧ ratio m = Ok (r, m3) ∧ (r == 1)%Q.
Proof.
  intros Hsame Hn m.
  assert (len B = len A) as Hlen by (unfold len; by rewrite Hsame).
  assert (B ≠ Str "") as HB.
  { intros ->. rewrite <- Hlen in Hn. by vm_compute in Hn. }
  destruct (new_SequenceMatcher_spec junk A B auto) as (Ha & Hb & Hmb & Hop & Hidx).
  fold m in Ha, Hb, Hmb, Hop, Hidx. specialize (Hidx HB).
  pose proof (getMatchingBlocks_same_elements m Hidx Hmb) as Hget.
  rewrite Ha, Hb in Hget. specialize (Hget Hsame Hn).
  eexists _, _, _, _. split; [exact Hget|]. split; [|split].
  - unfold getOpcodes. rewrite Hop, Hget. cbn [mbind result_bind].
    rewrite opcodes_of_ops_from. simpl. unfold edit.
    rewrite Z.ltb_irrefl. simpl.
    destruct (Z.eqb_spec (len A) 0); [lia|]. simpl.
    rewrite ?Z.add_0_l, ?Z.ltb_irrefl. done.
  - unfold ratio. rewrite Hget. cbn [mbind result_bind]. done.
  - simpl. rewrite Ha, Hb, Hlen. rewrite Z.add_0_r. by apply calculateRatio_one.
Qed.

Lemma same_elements_witness :
  elems (Str "a b") = elems (Arr 1 ["a"; " "; "b"]) ∧ 0 < len (Str "a b")
  ∧ ∃ m2, getOpcodes (new_SequenceMatcher (Some isSpace) (Some (Str "a b"))
                        (Some (Arr 1 ["a"; " "; "b"])) None)
          = Ok ([(equal_, 0, 3, 0, 3)], m2).
Proof.
  assert (H1 : elems (Str "a b") = elems (Arr 1 ["a"; " "; "b"])) by reflexivity.
  assert (H2 : 0 < len (Str "a b")) by reflexivity.
  split; [exact H1|]. split; [exact H2|].
  destruct (same_elements (Some isSpace) (Str "a b") (Arr 1 ["a"; " "; "b"]) None H1 H2)
    as (m1 & m2 & r & m3 & _ & Hop & _).
  exists m2. exact Hop.
Defined.

(** ** getGroupedOpcodes *)

Lemma is_equal_change c : is_equal c = true ↔ ¬ is_change c.
Proof.
  unfold is_equal, is_change, tag_of. rewrite bool_decide_eq_true.
  destruct (decide (c.1.1.1.1 = equal_)); tauto.
Qed.

Lemma filter_change_equal c l :
  is_equal c = true → filter is_change (c :: l) = filter is_change l.
Proof. intros H. rewrite filter_cons_False; [done|]. by apply is_equal_change. Qed.

Lemma group_step_flat n st c :
  filter is_change (flat (group_step n st c))
  = filter is_change (flat st) ++ filter is_change [c].
Proof.
  destruct st as [groups group], c as [[[[tag i1] i2] j1] j2]. unfold group_step, flat.
  destruct (is_equal (tag, i1, i2, j1, j2) && _) eqn:E; simpl.
  - apply andb_prop in E as [E _].
    rewrite concat_app, !filter_app. simpl. rewrite !filter_app.
    rewrite !(filter_change_equal (tag, _, _, _, _)) by done.
    rewrite !filter_nil. by rewrite !app_nil_r.
  - by rewrite app_assoc, !filter_app.
Qed.

Lemma group_fold_flat n codes st :
  filter is_change (flat (foldl (group_step n) st codes))
  = filter is_change (flat st) ++ filter is_change codes.
Proof.
  revert st. induction codes as [|c codes IH]; intros st; simpl.
  - by rewrite filter_nil, app_nil_r.
  - rewrite IH, group_step_flat, <- app_assoc. f_equal.
    by rewrite <- filter_app.
Qed.

Lemma group_codes_changes n codes :
  filter is_change (concat (group_codes n codes)) = filter is_change codes.
Proof.
  pose proof (group_fold_flat n codes ([], [])) as H. unfold group_codes.
  destruct (foldl (group_step n) ([], []) codes) as [groups group].
  unfold flat in H. simpl in H. rewrite <- H. clear H.
  destruct group as [|c [|c' group]].
  - by rewrite app_nil_r.
  - destruct (is_equal c) eqn:E.
    + rewrite filter_app, filter_change_equal, filter_nil, app_nil_r; done.
    + rewrite concat_app. simpl. by rewrite ?app_nil_r.
  - rewrite concat_app. simpl. by rewrite ?app_nil_r.
Qed.

Lemma clip_first_changes n codes :
  filter is_change (clip_first n codes) = filter is_change codes.
Proof.
  destruct codes as [|[[[[tag i1] i2] j1] j2] rest]; simpl; [done|].
  destruct (is_equal (tag, i1, i2, j1, j2)) eqn:E; [|done].
  rewrite !filter_change_equal; done.
Qed.

Lemma last_snoc_removelast {T} (l : list T) x :
  last l = Some x → l = removelast l ++ [x].
Proof.
  intros H. destruct l as [|y l] using rev_ind; [done|].
  rewrite last_snoc in H. injection H as ->. by rewrite removelast_last.
Qed.

Lemma clip_last_changes n codes :
  filter is_change (clip_last n codes) = filter is_change codes.
Proof.
  unfold clip_last. destruct (last codes) as [[[[[tag i1] i2] j1] j2]|] eqn:E; [|done].
  destruct (is_equal (tag, i1, i2, j1, j2)) eqn:Eq; [|done].
  rewrite (last_snoc_removelast codes _ E) at 2.
  rewrite !filter_app. f_equal. rewrite !filter_change_equal; done.
Qed.

(** *** Every group holds a change *)

Lemma alternating_tags prev codes1 codes2 :
  is_equal <$> codes1 = is_equal <$> codes2 →
  alternating prev codes1 → alternating prev codes2.
Proof.
  revert prev codes2. induction codes1 as [|c codes1 IH]; intros prev [|c' codes2] H;
    try done. simpl in *. injection H as Hc H. rewrite Hc. intros [? ?]. split; [done|].
  by apply IH.
Qed.

Lemma clip_first_tags n codes : is_equal <$> clip_first n codes = is_equal <$> codes.
Proof.
  destruct codes as [|[[[[tag i1] i2] j1] j2] rest]; simpl; [done|].
  destruct (is_equal (tag, i1, i2, j1, j2)) eqn:E; simpl; f_equal; exact E.
Qed.

Lemma clip_last_tags n codes : is_equal <$> clip_last n codes = is_equal <$> codes.
Proof.
  unfold clip_last. destruct (last codes) as [[[[[tag i1] i2] j1] j2]|] eqn:E; [|done].
  destruct (is_equal (tag, i1, i2, j1, j2)) eqn:Eq; [|done].
  rewrite (last_snoc_removelast codes _ E) at 2. rewrite !fmap_app. f_equal.
Qed.

Lemma adjacent_alternating codes :
  (∀ x y, adjacent codes x y → ¬ (tag_of x = equal_ ∧ tag_of y = equal_)) →
  alternating false codes.
Proof.
  assert (H : ∀ prev codes,
    (∀ x y, adjacent (prev :: codes) x y → ¬ (tag_of x = equal_ ∧ tag_of y = equal_)) →
    alternating (is_equal prev) codes).
  { intros prev l. revert prev. induction l as [|c l IH]; intros prev Hadj; [done|].
    split.
    - intros [H1 H2]. apply (Hadj prev c); [by exists [], l|].
      unfold is_equal, tag_of in *. by apply bool_decide_eq_true in H1, H2.
    - apply IH. intros x y (l1 & l2 & Hl). apply Hadj. exists (prev :: l1), l2.
      by rewrite Hl. }
  destruct codes as [|c codes]; intros Hadj; [done|]. split; [by intros [? _]|].
  by apply H.
Qed.

Lemma group_step_inv n prev st c :
  group_inv prev st →
  ¬ (prev = Some true ∧ is_equal c = true) →
  (prev = None → is_equal c = true → span c ≤ n + n) →
  group_inv (Some (is_equal c)) (group_step n st c).
Proof.
  destruct st as [groups group], c as [[[[tag i1] i2] j1] j2].
  intros (Hg & Hnone & Hchg & Hlen) Halt Hfirst. simpl in *.
  unfold group_step, span in *. simpl in *.
  destruct (is_equal (tag, i1, i2, j1, j2)) eqn:E; simpl.
  - assert (prev = None ∨ prev = Some false) as Hprev.
    { destruct prev as [[|]|]; [destruct Halt|right|left]; done. }
    destruct (Z.ltb_spec (n + n) (i2 - i1)) as [Hlong|Hshort]; simpl.
    + (* a long equal range: the group is closed *)
      destruct Hprev as [Hp|Hp]; subst prev; [specialize (Hfirst eq_refl eq_refl); lia|].
      unfold group_inv; cbn [fst snd]; split_and!; try done.
      * apply Forall_app. split; [done|]. constructor; [|constructor].
        apply Exists_app. left. by apply Hchg.
      * simpl. lia.
    + unfold group_inv; cbn [fst snd]; split_and!; try done.
      rewrite length_app. simpl. intros Hl. apply Exists_app. left.
      destruct Hprev as [Hp|Hp]; subst prev; [|by apply Hchg].
      rewrite (Hnone eq_refl) in Hl. simpl in Hl. lia.
  - assert (is_change (tag, i1, i2, j1, j2)) as Hc.
    { intros Heq. unfold is_equal, tag_of in *. simpl in *.
      by rewrite bool_decide_eq_true_2 in E. }
    unfold group_inv; cbn [fst snd]; split_and!; try done; intros _; apply Exists_app; right; by constructor.
Qed.

Lemma group_fold_inv n codes prev st :
  group_inv prev st →
  alternating (default false prev) codes →
  (prev = None → match codes with
                 | c :: _ => is_equal c = true → span c ≤ n + n
                 | [] => True
                 end) →
  ∃ prev', group_inv prev' (foldl (group_step n) st codes).
Proof.
  revert prev st. induction codes as [|c codes IH]; intros prev st Hinv Halt Hfirst.
  - by exists prev.
  - simpl. destruct Halt as [Halt1 Halt2]. apply (IH (Some (is_equal c))).
    + apply (group_step_inv n prev); [done| |done].
      intros [Hp ?]. subst prev. by apply Halt1.
    + done.
    + done.
Qed.

Lemma group_codes_inv n codes :
  alternating false codes →
  match codes with
  | c :: _ => is_equal c = true → span c ≤ n + n
  | [] => True
  end →
  Forall (Exists is_change) (group_codes n codes).
Proof.
  intros Halt Hfirst.
  destruct (group_fold_inv n codes None ([], [])) as (prev & Hg & _ & _ & Hlen);
    [unfold group_inv; simpl; split_and!; [constructor|done|done|lia]|done|done|].
  unfold group_codes. destruct (foldl (group_step n) ([], []) codes) as [groups group].
  simpl in *. destruct group as [|c [|c' group]]; [done| |].
  - destruct (is_equal c) eqn:E; [done|]. apply Forall_app. split; [done|].
    constructor; [|constructor]. constructor. intros Heq.
    unfold is_equal, tag_of in *. by rewrite bool_decide_eq_true_2 in E.
  - apply Forall_app. split; [done|]. constructor; [|constructor].
    apply Hlen. simpl. lia.
Qed.

Lemma clip_head_short n codes :
  0 ≤ n →
  match clip_last n (clip_first n codes) with
  | c :: _ => is_equal c = true → span c ≤ n + n
  | [] => True
  end.
Proof.
  intros Hn.
  assert (H1 : match clip_first n codes with
               | c :: _ => is_equal c = true → span c ≤ n
               | [] => True
               end).
  { destruct codes as [|[[[[tag i1] i2] j1] j2] rest]; simpl; [done|].
    destruct (is_equal (tag, i1, i2, j1, j2)) eqn:E; [|by rewrite E].
    intros _. unfold span. simpl. lia. }
  generalize dependent (clip_first n codes). clear codes. intros codes H1.
  unfold clip_last. destruct (last codes) as [[[[[tag i1] i2] j1] j2]|] eqn:E.
  - destruct (is_equal (tag, i1, i2, j1, j2)) eqn:Eq.
    + destruct codes as [|c [|c' rest]]; [done| |].
      * simpl in E. injection E as ->. simpl. intros _.
        specialize (H1 Eq). unfold span in *. simpl in *. lia.
      * change (removelast (c :: c' :: rest)) with (c :: removelast (c' :: rest)).
        simpl. intros Hc. specialize (H1 Hc). lia.
    + destruct codes as [|c rest]; [done|]. intros Hc. specialize (H1 Hc). lia.
  - destruct codes as [|c rest]; [done|]. intros Hc. specialize (H1 Hc). lia.
Qed.

Lemma getGroupedOpcodes_indexed m n :
  indexed m → matchingBlocks m = None → opcodes m = None → 0 ≤ default 3 n →
  ∃ codes m1 groups m2,
    getOpcodes m = Ok (codes, m1)
    ∧ opcodes_ok (a m) (b m) codes
    ∧ getGroupedOpcodes m n = Ok (groups, m2)
    ∧ Forall (Exists is_change) groups
    ∧ filter is_change (concat groups) = filter is_change codes.
Proof.
  intros Hidx Hmb Hop Hn.
  destruct (getOpcodes_indexed m Hidx Hmb Hop) as (codes & m1 & E & Hok).
  unfold getGroupedOpcodes. rewrite E. cbn [mbind result_bind].
  set (k := default 3 n) in *.
  set (codes0 := match codes with [] => [(equal_, 0, 1, 0, 1)] | _ => codes end).
  assert (alternating false codes0) as Halt.
  { subst codes0. destruct Hok as [_ _ _ Hadj].
    destruct codes as [|c rest]; [simpl; split; [by intros [? _]|done]|].
    by apply adjacent_alternating. }
  assert (filter is_change codes0 = filter is_change codes) as Hfil.
  { subst codes0. by destruct codes. }
  assert (Forall (Exists is_change) (group_codes k (clip_last k (clip_first k codes0)))
          ∧ filter is_change (concat (group_codes k (clip_last k (clip_first k codes0))))
            = filter is_change codes) as [H1 H2].
  { split.
    - apply group_codes_inv; [|by apply clip_head_short].
      eapply alternating_tags; [|exact Halt].
      by rewrite clip_last_tags, clip_first_tags.
    - by rewrite group_codes_changes, clip_last_changes, clip_first_changes. }
  exists codes, m1. subst codes0. destruct codes as [|c rest]; eexists _, _; done.
Qed.

(** X10: the groups of a new matcher whose second sequence is not the empty
    string, for a context of [n >= 0] lines: every group holds an opcode
    that is not [equal], and the opcodes that are not [equal] are those
    of [getOpcodes], in the same order. *)
Theorem getGroupedOpcodes_changes junk A B auto n :
  B ≠ Str "" → 0 ≤ default 3 n →
  let m := new_SequenceMatcher junk (Some A) (Some B) auto in
  ∃ codes m1 groups m2,
    getOpcodes m = Ok (codes, m1)
    ∧ getGroupedOpcodes m n = Ok (groups, m2)
    ∧ Forall (Exists is_change) groups
    ∧ filter is_change (concat groups) = filter is_change codes.
Proof.
  intros HB Hn m.
  destruct (new_SequenceMatcher_spec junk A B auto) as (_ & _ & Hmb & Hop & Hidx).
  destruct (getGroupedOpcodes_indexed m n (Hidx HB) Hmb Hop Hn)
    as (codes & m1 & groups & m2 & E & _ & Eg & Hchg & Hfil).
  by exists codes, m1, groups, m2.
Qed.

Lemma getGroupedOpcodes_changes_witness :
  Arr 2 ["X"; "1"; "2"; "3"; "4"; "5"; "6"; "7"; "Y"] ≠ Str "" ∧ 0 ≤ default 3 (Some 1)
  ∧ ∃ groups m2,
      getGroupedOpcodes (new_SequenceMatcher None (Some nine_lines_a) (Some nine_lines_b) None)
        (Some 1) = Ok (groups, m2)
      ∧ Forall (Exists is_change) groups.
Proof.
  assert (H1 : Arr 2 ["X"; "1"; "2"; "3"; "4"; "5"; "6"; "7"; "Y"] ≠ Str "") by discriminate.
  assert (H2 : 0 ≤ default 3 (Some 1)) by (simpl; lia).
  split; [exact H1|]. split; [exact H2|].
  destruct (getGroupedOpcodes_changes None nine_lines_a nine_lines_b None (Some 1) H1 H2)
    as (codes & m1 & groups & m2 & _ & Hg & Hc & _).
  exists groups, m2. split; [exact Hg|exact Hc].
Defined.

(** ** The groups of getGroupedOpcodes as patches *)

Lemma tiles_app_inv i j l1 l2 i2 j2 :
  tiles i j (l1 ++ l2) i2 j2 → ∃ i1 j1, tiles i j l1 i1 j1 ∧ tiles i1 j1 l2 i2 j2.
Proof.
  revert i j. induction l1 as [|[[[[? ?] ?] ?] ?] l1 IH]; intros i j; simpl.
  - intros H. by exists i, j.
  - intros (-> & -> & H). destruct (IH _ _ H) as (i1 & j1 & ? & ?). by exists i1, j1.
Qed.

Lemma tiles_wf_le A B i j g i' j' :
  tiles i j g i' j' → Forall (wf_op A B) g → i ≤ i' ∧ j ≤ j'.
Proof.
  revert i j. induction g as [|[[[[tag i1] i2] j1] j2] g IH]; intros i j; simpl.
  - intros [-> ->] _. lia.
  - intros (-> & -> & Ht) Hw. apply Forall_cons in Hw as [(?&?&?&?&?&?&_) Hw].
    destruct (IH _ _ Ht Hw). lia.
Qed.

Lemma tiles_ends i j g i' j' :
  g ≠ [] → tiles i j g i' j' →
  ∃ first last_, head g = Some first ∧ last g = Some last_
    ∧ first.1.1.1.2 = i ∧ first.1.2 = j ∧ last_.1.1.2 = i' ∧ last_.2 = j'.
Proof.
  revert i j. induction g as [|[[[[tag i1] i2] j1] j2] g IH]; intros i j Hne; [done|].
  simpl. intros (-> & -> & Ht). destruct g as [|c g].
  - destruct Ht as [-> ->]. by eexists _, _.
  - destruct (IH _ _ ltac:(done) Ht) as (first & last_ & _ & Hl & _ & _ & ? & ?).
    eexists _, last_. split_and!; try done.
Qed.

Lemma tiles_chained A B i j g i' j' :
  g ≠ [] → tiles i j g i' j' → Forall (wf_op A B) g → chained A B g.
Proof.
  intros Hne Ht Hw. split; [done|].
  destruct (tiles_ends _ _ _ _ _ Hne Ht) as (first & last_ & ? & ? & <- & <- & <- & <-).
  by exists first, last_.
Qed.

Lemma wf_equal_part A B i1 i2 j1 j2 d e :
  wf_op A B (equal_, i1, i2, j1, j2) → 0 ≤ d → d ≤ e → e ≤ i2 - i1 →
  wf_op A B (equal_, i1 + d, i1 + e, j1 + d, j1 + e).
Proof.
  intros (?&?&?&?&?&?&?&Heq) ???. repeat split; try lia.
  intros s Hs. replace (i1 + d + s) with (i1 + (d + s)) by lia.
  replace (j1 + d + s) with (j1 + (d + s)) by lia. apply Heq. lia.
Qed.

Lemma opcodes_ok_wf A B codes : opcodes_ok A B codes → Forall (wf_op A B) codes.
Proof.
  intros [Ht Hs He _].
  assert (H : ∀ i j, tiles i j codes (len A) (len B) → 0 ≤ i → 0 ≤ j →
              Forall (wf_op A B) codes).
  { clear Ht. induction codes as [|[[[[tag i1] i2] j1] j2] codes IH]; intros i j Ht Hi Hj;
      [constructor|].
    destruct Ht as (-> & -> & Ht). apply Forall_cons in Hs as [Hs Hs'].
    destruct (tiles_le _ _ _ _ _ Ht Hs') as [? ?].
    constructor.
    - destruct tag; simpl in Hs; repeat split; try lia.
      intros s Hs1. destruct (He i i2 j j2 ltac:(left)) as (_&_&_&_&_&Heq).
      apply Heq. lia.
    - eapply IH; [exact Hs'| |exact Ht| |].
      + intros a1 a2 b1 b2 Hin. apply (He a1 a2 b1 b2). by right.
      + destruct tag; simpl in Hs; lia.
      + destruct tag; simpl in Hs; lia. }
  by apply (H 0 0).
Qed.

Lemma clip_first_tiles A B n codes i j i' j' :
  0 ≤ n → tiles i j codes i' j' → Forall (wf_op A B) codes →
  ∃ i0 j0, tiles i0 j0 (clip_first n codes) i' j'
           ∧ Forall (wf_op A B) (clip_first n codes).
Proof.
  intros Hn Ht Hw. destruct codes as [|[[[[tag i1] i2] j1] j2] rest]; simpl.
  { by exists i, j. }
  destruct Ht as (-> & -> & Ht). apply Forall_cons in Hw as [Hc Hw].
  destruct (is_equal (tag, i, i2, j, j2)) eqn:E.
  - unfold is_equal in E. simpl in E. apply bool_decide_eq_true in E. subst tag.
    exists (Z.max i (i2 - n)), (Z.max j (j2 - n)). split; [done|].
    constructor; [|done].
    pose proof Hc as (?&?&?&?&?&?&?&_).
    pose proof (wf_equal_part A B i i2 j j2 (Z.max 0 (i2 - i - n)) (i2 - i) Hc) as Hp.
    replace (i + Z.max 0 (i2 - i - n)) with (Z.max i (i2 - n)) in Hp by lia.
    replace (j + Z.max 0 (i2 - i - n)) with (Z.max j (j2 - n)) in Hp by lia.
    replace (i + (i2 - i)) with i2 in Hp by lia.
    replace (j + (i2 - i)) with j2 in Hp by lia. apply Hp; lia.
  - exists i, j. split; [done|]. by constructor.
Qed.

Lemma clip_last_tiles A B n codes i j i' j' :
  0 ≤ n → tiles i j codes i' j' → Forall (wf_op A B) codes →
  ∃ i0 j0, tiles i j (clip_last n codes) i0 j0
           ∧ Forall (wf_op A B) (clip_last n codes).
Proof.
  intros Hn Ht Hw. unfold clip_last.
  destruct (last codes) as [[[[[tag i1] i2] j1] j2]|] eqn:E; [|by exists i', j'].
  destruct (is_equal (tag, i1, i2, j1, j2)) eqn:Eq; [|by exists i', j'].
  unfold is_equal in Eq. simpl in Eq. apply bool_decide_eq_true in Eq. subst tag.
  rewrite (last_snoc_removelast codes _ E) in Ht, Hw.
  apply tiles_app_inv in Ht as (m1 & m2 & Ht1 & Ht2).
  apply Forall_app in Hw as [Hw1 Hw2]. apply Forall_cons in Hw2 as [Hc _].
  destruct Ht2 as (Hi1 & Hj1 & _). subst m1 m2.
  exists (Z.min i2 (i1 + n)), (Z.min j2 (j1 + n)). split.
  - eapply tiles_app; [exact Ht1|]. done.
  - apply Forall_app. split; [done|]. constructor; [|constructor].
    pose proof Hc as (?&?&?&?&?&?&?&_).
    pose proof (wf_equal_part A B i1 i2 j1 j2 0 (Z.min (i2 - i1) n) Hc) as Hp.
    rewrite !Z.add_0_r in Hp.
    replace (i1 + Z.min (i2 - i1) n) with (Z.min i2 (i1 + n)) in Hp by lia.
    replace (j1 + Z.min (i2 - i1) n) with (Z.min j2 (j1 + n)) in Hp by lia.
    apply Hp; lia.
Qed.

Lemma group_fold_chained A B n codes st ci cj ei ej :
  0 ≤ n →
  Forall (chained A B) st.1 →
  Forall (wf_op A B) st.2 → (st.2 = [] ∨ ∃ i j, tiles i j st.2 ci cj) →
  tiles ci cj codes ei ej → Forall (wf_op A B) codes →
  Forall (chained A B) (foldl (group_step n) st codes).1
  ∧ Forall (wf_op A B) (foldl (group_step n) st codes).2
  ∧ ((foldl (group_step n) st codes).2 = []
     ∨ ∃ i j, tiles i j (foldl (group_step n) st codes).2 ei ej).
Proof.
  intros Hn. revert st ci cj.
  induction codes as [|[[[[tag i1] i2] j1] j2] codes IH];
    intros [groups group] ci cj Hg Hw Hgt Ht Hc; simpl in *.
  - destruct Ht as [-> ->]. done.
  - destruct Ht as (-> & -> & Ht). apply Forall_cons in Hc as [Hc Hcs].
    assert (Happ : ∀ c e f, tiles ci cj [c] e f →
              group ++ [c] = [] ∨ ∃ i j, tiles i j (group ++ [c]) e f).
    { intros c e f Hcef. right. destruct Hgt as [->|(i & j & Hgt)].
      - by exists ci, cj.
      - exists i, j. by eapply tiles_app. }
    destruct (is_equal (tag, ci, i2, cj, j2) && (n + n <? i2 - ci)) eqn:E.
    + apply andb_prop in E as [E1 E2]. apply Z.ltb_lt in E2.
      unfold is_equal in E1. simpl in E1. apply bool_decide_eq_true in E1. subst tag.
      pose proof Hc as (?&?&?&?&?&?&?&_).
      assert (wf_op A B (equal_, ci, Z.min i2 (ci + n), cj, Z.min j2 (cj + n))) as Hh.
      { pose proof (wf_equal_part A B ci i2 cj j2 0 n Hc) as Hp.
        rewrite !Z.add_0_r in Hp.
        replace (Z.min i2 (ci + n)) with (ci + n) by lia.
        replace (Z.min j2 (cj + n)) with (cj + n) by lia. apply Hp; lia. }
      assert (wf_op A B (equal_, Z.max ci (i2 - n), i2, Z.max cj (j2 - n), j2)) as Htl.
      { pose proof (wf_equal_part A B ci i2 cj j2 (i2 - ci - n) (i2 - ci) Hc) as Hp.
        replace (ci + (i2 - ci - n)) with (Z.max ci (i2 - n)) in Hp by lia.
        replace (cj + (i2 - ci - n)) with (Z.max cj (j2 - n)) in Hp by lia.
        replace (ci + (i2 - ci)) with i2 in Hp by lia.
        replace (cj + (i2 - ci)) with j2 in Hp by lia. apply Hp; lia. }
      apply (IH (_, _) i2 j2); simpl; try done.
      * apply Forall_app. split; [done|]. constructor; [|constructor].
        destruct (Happ (equal_, ci, Z.min i2 (ci + n), cj, Z.min j2 (cj + n))
                    (Z.min i2 (ci + n)) (Z.min j2 (cj + n))) as [Hnil|(i & j & Hti)];
          [done|by destruct group|].
        eapply tiles_chained; [by destruct group|exact Hti|].
        apply Forall_app. split; [done|]. by constructor.
      * by constructor.
      * right. by eexists _, _.
    + apply (IH (_, _) i2 j2); simpl; try done.
      * apply Forall_app. split; [done|]. by constructor.
      * by apply Happ.
Qed.

Lemma group_codes_chained A B n codes ci cj ei ej :
  0 ≤ n → tiles ci cj codes ei ej → Forall (wf_op A B) codes →
  Forall (chained A B) (group_codes n codes).
Proof.
  intros Hn Ht Hw.
  destruct (group_fold_chained A B n codes ([], []) ci cj ei ej) as (H1 & H2 & H3);
    try done; [by left|].
  unfold group_codes. destruct (foldl (group_step n) ([], []) codes) as [groups group].
  simpl in *.
  assert (group ≠ [] → Forall (chained A B) (groups ++ [group])) as Hpush.
  { intros Hne. apply Forall_app. split; [done|]. constructor; [|constructor].
    destruct H3 as [?|(i & j & Hti)]; [done|]. by eapply tiles_chained. }
  destruct group as [|c [|c' group]]; [done| |by apply Hpush].
  destruct (is_equal c); [done|by apply Hpush].
Qed.

(** Every group that a new matcher returns, for a context of [n >= 0]
    lines, is a run of opcodes without a gap, with ranges inside the
    sequences and equal elements in the ranges of its [equal] opcodes. *)
Lemma getGroupedOpcodes_chained junk A B auto n :
  B ≠ Str "" → 0 ≤ default 3 n →
  ∃ groups m2,
    getGroupedOpcodes (new_SequenceMatcher junk (Some A) (Some B) auto) n = Ok (groups, m2)
    ∧ Forall (chained A B) groups.
Proof.
  intros HB Hn.
  destruct (new_SequenceMatcher_spec junk A B auto) as (Ha & Hb & Hmb & Hop & Hidx).
  destruct (getGroupedOpcodes_indexed _ n (Hidx HB) Hmb Hop Hn)
    as (codes & m1 & groups & m2 & E & Hok & Eg & Hchg & Hfil).
  rewrite Ha, Hb in Hok.
  exists groups, m2. split; [done|].
  unfold getGroupedOpcodes in Eg. rewrite E in Eg. cbn [mbind result_bind] in Eg.
  destruct codes as [|c rest].
  - (* no opcode: no group *)
    injection Eg as <- _. rewrite filter_nil in Hfil.
    destruct (group_codes _ _) as [|g gs]; [constructor|]. exfalso.
    apply Forall_cons in Hchg as [Hg _]. apply Exists_exists in Hg as (x & Hx & Hc).
    assert (x ∈ filter is_change (concat (g :: gs))) as Hin.
    { apply list_elem_of_filter. split; [done|]. simpl. apply elem_of_app. by left. }
    rewrite Hfil in Hin. by apply elem_of_nil in Hin.
  - injection Eg as <- _.
    pose proof (opcodes_ok_wf A B _ Hok) as Hw. destruct Hok as [Ht _ _ _].
    destruct (clip_first_tiles A B (default 3 n) _ _ _ _ _ Hn Ht Hw) as (i0 & j0 & Ht1 & Hw1).
    destruct (clip_last_tiles A B (default 3 n) _ _ _ _ _ Hn Ht1 Hw1) as (i1 & j1 & Ht2 & Hw2).
    by eapply group_codes_chained.
Qed.

(** ** unifiedDiff *)

Lemma wf_equal_slice A B i1 i2 j1 j2 :
  wf_op A B (equal_, i1, i2, j1, j2) →
  slice (elems A) i1 i2 = slice (elems B) j1 j2.
Proof.
  intros (?&?&?&?&?&?&?&Heq).
  pose proof (whole_block_slice A B i1 j1 (i2 - i1)) as Hsl.
  replace (i1 + (i2 - i1)) with i2 in Hsl by lia.
  replace (j1 + (i2 - i1)) with j2 in Hsl by lia.
  apply Hsl. repeat split; try lia. done.
Qed.

Lemma unified_lines_sides A B c :
  wf_op A B c →
  omap (keep_unified "-") (unified_lines A B c) = slice (elems A) c.1.1.1.2 c.1.1.2
  ∧ omap (keep_unified "+") (unified_lines A B c) = slice (elems B) c.1.2 c.2.
Proof.
  destruct c as [[[[tag i1] i2] j1] j2]. intros Hw. simpl.
  destruct tag; simpl.
  - rewrite !omap_app. split.
    + rewrite (omap_fmap_Some (λ line, "-" +:+ line)) by done.
      rewrite (omap_fmap_None (λ line, "+" +:+ line)) by done. by rewrite app_nil_r.
    + rewrite (omap_fmap_None (λ line, "-" +:+ line)) by done.
      by rewrite (omap_fmap_Some (λ line, "+" +:+ line)) by done.
  - destruct Hw as (_&_&_&_&_&_&->). rewrite app_nil_r, slice_empty. split.
    + by rewrite (omap_fmap_Some (λ line, "-" +:+ line)) by done.
    + by rewrite (omap_fmap_None (λ line, "-" +:+ line)) by done.
  - destruct Hw as (_&_&_&_&_&_&->). rewrite slice_empty. simpl. split.
    + by rewrite (omap_fmap_None (λ line, "+" +:+ line)) by done.
    + by rewrite (omap_fmap_Some (λ line, "+" +:+ line)) by done.
  - rewrite <- (wf_equal_slice A B i1 i2 j1 j2 Hw).
    split; by rewrite (omap_fmap_Some (λ line, " " +:+ line)) by done.
Qed.

Lemma group_sides A B g i j i' j' :
  tiles i j g i' j' → Forall (wf_op A B) g → 0 ≤ i → 0 ≤ j →
  omap (keep_unified "-") (concat (unified_lines A B <$> g)) = slice (elems A) i i'
  ∧ omap (keep_unified "+") (concat (unified_lines A B <$> g)) = slice (elems B) j j'.
Proof.
  revert i j. induction g as [|c g IH]; intros i j Ht Hw Hi Hj.
  - destruct Ht as [-> ->]. by rewrite !slice_empty.
  - apply Forall_cons in Hw as [Hc Hw].
    destruct (unified_lines_sides A B c Hc) as [H1 H2].
    destruct c as [[[[tag i1] i2] j1] j2]. destruct Ht as (-> & -> & Ht).
    destruct (tiles_wf_le A B _ _ _ _ _ Ht Hw) as [? ?].
    pose proof Hc as (?&?&?&?&?&?&_).
    destruct (IH i2 j2 Ht Hw) as [IH1 IH2]; [lia|lia|].
    rewrite fmap_cons, concat_cons, !omap_app, H1, H2, IH1, IH2. simpl.
    by rewrite <- !slice_split by lia.
Qed.

Lemma chained_hunk A B lineterm g :
  chained A B g →
  ∃ first last_,
    head g = Some first ∧ last g = Some last_
    ∧ unified_hunk A B lineterm g
        (("@@ -" +:+ _formatRangeUnified first.1.1.1.2 last_.1.1.2
          +:+ " +" +:+ _formatRangeUnified first.1.2 last_.2
          +:+ " @@" +:+ lineterm) :: concat (unified_lines A B <$> g)).
Proof.
  intros (Hw & first & last_ & Hh & Hl & Ht). exists first, last_. do 2 (split; [done|]).
  exists first, last_, (concat (unified_lines A B <$> g)). do 3 (split; [done|]).
  apply (group_sides A B g _ _ _ _ Ht Hw).
  - destruct g as [|c g]; [done|]. injection Hh as ->.
    apply Forall_cons in Hw as [Hc _]. destruct first as [[[[? ?] ?] ?] ?].
    destruct Hc as (?&_). done.
  - destruct g as [|c g]; [done|]. injection Hh as ->.
    apply Forall_cons in Hw as [Hc _]. destruct first as [[[[? ?] ?] ?] ?].
    destruct Hc as (_&_&_&?&_). done.
Qed.

Lemma unified_step_ok A B fromfile tofile fromfiledate tofiledate lineterm
    started lines g first last_ :
  head g = Some first → last g = Some last_ →
  unified_step A B fromfile tofile fromfiledate tofiledate lineterm (started, lines) g
  = Ok (true,
        (lines
         ++ (if started then []
             else ["--- " +:+ fromfile
                     +:+ (if bool_decide (fromfiledate = "") then ""
                          else tab +:+ fromfiledate) +:+ lineterm;
                   "+++ " +:+ tofile
                     +:+ (if bool_decide (tofiledate = "") then ""
                          else tab +:+ tofiledate) +:+ lineterm]))
        ++ ("@@ -" +:+ _formatRangeUnified first.1.1.1.2 last_.1.1.2
            +:+ " +" +:+ _formatRangeUnified first.1.2 last_.2
            +:+ " @@" +:+ lineterm) :: concat (unified_lines A B <$> g)).
Proof.
  intros Hh Hl. destruct g as [|c g]; [done|]. injection Hh as ->.
  unfold unified_step. cbv beta iota zeta. rewrite Hl.
  destruct started; [by rewrite app_nil_r|done].
Qed.

Lemma unified_fold A B fromfile tofile fromfiledate tofiledate lineterm groups :
  Forall (chained A B) groups →
  ∀ started lines,
  ∃ hunks,
    foldlM (unified_step A B fromfile tofile fromfiledate tofiledate lineterm)
      (started, lines) groups
    = Ok (match groups with [] => started | _ => true end,
          lines
          ++ (match groups with
              | [] => []
              | _ =>
                  if started then []
                  else ["--- " +:+ fromfile
                          +:+ (if bool_decide (fromfiledate = "") then ""
                               else tab +:+ fromfiledate) +:+ lineterm;
                        "+++ " +:+ tofile
                          +:+ (if bool_decide (tofiledate = "") then ""
                               else tab +:+ tofiledate) +:+ lineterm]
              end)
          ++ concat hunks)
    ∧ Forall2 (unified_hunk A B lineterm) groups hunks.
Proof.
  induction 1 as [|g groups Hg _ IH]; intros started lines.
  - exists []. split; [|constructor]. simpl. by rewrite !app_nil_r.
  - destruct (chained_hunk A B lineterm g Hg) as (first & last_ & Hh & Hl & Hhunk).
    cbn [foldlM].
    rewrite (unified_step_ok _ _ _ _ _ _ _ _ _ _ first last_ Hh Hl).
    cbn [mbind result_bind].
    match goal with |- ∃ _, foldlM _ (true, ?l) _ = _ ∧ _ =>
      destruct (IH true l) as (hunks & -> & Hall)
    end.
    eexists (_ :: hunks). split; [|constructor; [exact Hhunk|exact Hall]].
    f_equal. f_equal; [by destruct groups|].
    rewrite concat_cons. destruct groups; simpl;
      rewrite <- ?app_assoc; simpl; rewrite ?app_nil_r; done.
Qed.

(** X11: for every pair of arrays of lines, [unifiedDiff] returns the two
    header lines when there is a group, followed by one hunk for every
    group of [getGroupedOpcodes()]:
    a range line for the ranges the group spans, then a body in which the
    lines that begin with a space or [-] are that range of the first
    sequence and the lines that begin with a space or [+] are that range
    of the second one. *)
Theorem unifiedDiff_hunks ra la rb lb param :
  let A := Arr ra la in
  let B := Arr rb lb in
  ∃ groups m' hunks,
    getGroupedOpcodes (new_SequenceMatcher None (Some A) (Some B) None) None
    = Ok (groups, m')
    ∧ unifiedDiff A B param = Ok (unified_header param groups ++ concat hunks)
    ∧ Forall2
        (unified_hunk A B
           (default newline
              (lineterm (default (mkDiffParam None None None None None None) param))))
        groups hunks.
Proof.
  intros A B. assert (HB : B ≠ Str "") by done.
  destruct (getGroupedOpcodes_chained None A B None None HB) as (groups & m' & E & Hc);
    [simpl; lia|].
  unfold unifiedDiff. rewrite E. cbn [mbind result_bind].
  set (p := default (mkDiffParam None None None None None None) param).
  destruct (unified_fold A B (default "" (fromfile p)) (default "" (tofile p))
              (default "" (fromfiledate p)) (default "" (tofiledate p))
              (default newline (lineterm p)) groups Hc false [])
    as (hunks & -> & Hall).
  exists groups, m', hunks. split; [done|]. split; [|done].
  cbn [mbind result_bind]. unfold unified_header. fold p. by destruct groups.
Qed.

(** ** The diffs of sequences with the same elements *)

Lemma chars_nil s : chars s = [] → s = "".
Proof. by destruct s. Qed.

Lemma empty_string_or_not (B : seq) : B = Str "" ∨ B ≠ Str "".
Proof. destruct B as [[|c s]|r l]; [by left|by right..]. Qed.

Lemma opcodes_ok_empty A B codes :
  opcodes_ok A B codes → len A = 0 → len B = 0 → codes = [].
Proof.
  intros [Ht Hs _ _] HA HB. destruct codes as [|[[[[tag i1] i2] j1] j2] codes]; [done|].
  exfalso. destruct Ht as (-> & -> & Ht). apply Forall_cons in Hs as [Hs Hs'].
  destruct (tiles_le _ _ _ _ _ Ht Hs'). destruct tag; simpl in Hs; lia.
Qed.

Lemma getOpcodes_same_elements junk A B auto :
  elems A = elems B →
  ∃ m', getOpcodes (new_SequenceMatcher junk (Some A) (Some B) auto)
        = Ok (if len A =? 0 then [] else [(equal_, 0, len A, 0, len A)], m').
Proof.
  intros Hsame. destruct (Z.eqb_spec (len A) 0) as [H0|Hne].
  - assert (elems A = []) as HA by (unfold len in H0; by destruct (elems A)).
    assert (len B = 0) as HB0 by (unfold len; by rewrite <- Hsame, HA).
    destruct (empty_string_or_not B) as [HB|HB]; [subst B|].
    + destruct A as [s|r l]; simpl in HA.
      * apply chars_nil in HA. subst s. by eexists.
      * subst l. by eexists.
    + destruct (getOpcodes_tiling junk A B auto HB) as (codes & m' & -> & Hok).
      rewrite (opcodes_ok_empty A B codes Hok H0 HB0). by eexists.
  - assert (B ≠ Str "") as HB.
    { intros ->. destruct (elems A) eqn:E; [|done]. unfold len in Hne. by rewrite E in Hne. }
    destruct (new_SequenceMatcher_spec junk A B auto) as (Ha & Hb & Hmb & Hop & Hidx).
    destruct (getOpcodes_all_equal _ (Hidx HB) Hmb Hop) as (m' & E).
    + by rewrite Ha, Hb.
    + rewrite Ha. unfold len in *. lia.
    + rewrite Ha in E. by exists m'.
Qed.

Lemma getGroupedOpcodes_same_elements junk A B auto n :
  elems A = elems B → 0 ≤ default 3 n →
  ∃ m', getGroupedOpcodes (new_SequenceMatcher junk (Some A) (Some B) auto) n = Ok ([], m').
Proof.
  intros Hsame Hn.
  destruct (getOpcodes_same_elements junk A B auto Hsame) as (m1 & E).
  destruct (empty_string_or_not B) as [HB|HB]; [subst B|].
  - assert (len A = 0) as H0 by (unfold len; by rewrite Hsame).
    rewrite H0 in E. unfold getGroupedOpcodes. rewrite E. cbn [mbind result_bind].
    eexists. f_equal. f_equal.
    set (k := default 3 n) in *. unfold clip_first. simpl.
    unfold clip_last. simpl. unfold group_codes. simpl.
    destruct (Z.ltb_spec (k + k) (Z.min 1 (Z.max 0 (1 - k) + k) - Z.max 0 (1 - k)));
      [lia|done].
  - destruct (new_SequenceMatcher_spec junk A B auto) as (_ & _ & Hmb & Hop & Hidx).
    destruct (getGroupedOpcodes_indexed _ n (Hidx HB) Hmb Hop Hn)
      as (codes & m1' & groups & m2 & E' & _ & -> & Hchg & Hfil).
    rewrite E in E'. injection E' as <- _.
    assert (filter is_change (concat groups) = []) as Hnil.
    { rewrite Hfil. by destruct (len A =? 0). }
    exists m2. do 2 f_equal. destruct groups as [|g gs]; [done|]. exfalso.
    apply Forall_cons in Hchg as [Hg _]. apply Exists_exists in Hg as (x & Hx & Hc).
    assert (x ∈ filter is_change (concat (g :: gs))) as Hin.
    { apply list_elem_of_filter. split; [done|]. simpl. apply elem_of_app. by left. }
    rewrite Hnil in Hin. by apply elem_of_nil in Hin.
Qed.

(** X13: when both sequences hold the same elements, [unifiedDiff] and
    [contextDiff] return no line at all, and [compare] returns every
    element behind two spaces: for all parameters and junk tests, the
    empty string and the empty array included. *)
Theorem same_elements_diffs A B d param :
  elems A = elems B →
  unifiedDiff A B param = Ok []
  ∧ contextDiff A B param = Ok []
  ∧ compare d A B = Ok ((λ x, "  " +:+ x) <$> elems A).
Proof.
  intros Hsame.
  destruct (getGroupedOpcodes_same_elements None A B None None Hsame) as (m' & Eg);
    [simpl; lia|].
  split; [|split].
  - unfold unifiedDiff. by rewrite Eg.
  - unfold contextDiff. by rewrite Eg.
  - unfold compare.
    destruct (getOpcodes_same_elements (linejunk d) A B None Hsame) as (m1 & ->).
    cbn [mbind result_bind]. destruct (Z.eqb_spec (len A) 0) as [H0|Hne].
    + assert (elems A = []) as -> by (unfold len in H0; by destruct (elems A)). done.
    + simpl. rewrite dump_fmap by (unfold len in *; lia).
      unfold len. by rewrite slice_all.
Qed.

Lemma same_elements_diffs_witness :
  elems (Arr 1 ["one"; "two"]) = elems (Arr 2 ["one"; "two"])
  ∧ unifiedDiff (Arr 1 ["one"; "two"]) (Arr 2 ["one"; "two"]) None = Ok []
  ∧ compare (mkDiffer None None) (Arr 1 ["one"; "two"]) (Arr 2 ["one"; "two"])
    = Ok ["  one"; "  two"].
Proof.
  assert (H : elems (Arr 1 ["one"; "two"]) = elems (Arr 2 ["one"; "two"])) by reflexivity.
  split; [exact H|].
  destruct (same_elements_diffs (Arr 1 ["one"; "two"]) (Arr 2 ["one"; "two"])
              (mkDiffer None None) None H) as (H1 & _ & H3).
  split; [exact H1|exact H3].
Defined.

(** ** _arrayCmp *)

Lemma arrayCmp_cons u x v y :
  _arrayCmp (u :: x) (v :: y)
  = if u <? v then -1 else if v <? u then 1 else _arrayCmp x y.
Proof.
  unfold _arrayCmp. simpl. destruct (u <? v); [done|]. destruct (v <? u); [done|].
  destruct (_arrayCmp_loop x y); [done|]. lia.
Qed.

Lemma arrayCmp_nil_l y : _arrayCmp [] y = - Z.of_nat (length y).
Proof. unfold _arrayCmp. simpl. lia. Qed.

Lemma arrayCmp_nil_r x : _arrayCmp x [] = Z.of_nat (length x).
Proof. unfold _arrayCmp. destruct x; simpl; lia. Qed.

(** X20: [_arrayCmp] orders arrays of integers totally: it returns 0 on equal
    arrays only, changes its sign when the arguments are swapped, and is
    transitive. *)
Theorem arrayCmp_order x y z :
  (_arrayCmp x y = 0 ↔ x = y)
  ∧ (_arrayCmp x y < 0 ↔ 0 < _arrayCmp y x)
  ∧ (_arrayCmp x y ≤ 0 → _arrayCmp y z ≤ 0 → _arrayCmp x z ≤ 0).
Proof.
  split; [|split].
  - revert y. induction x as [|u x IH]; intros [|v y].
    + done.
    + rewrite arrayCmp_nil_l. simpl. split; [lia|done].
    + rewrite arrayCmp_nil_r. simpl. split; [lia|done].
    + rewrite arrayCmp_cons.
      destruct (Z.ltb_spec u v); [split; [lia|intros [= -> _]; lia]|].
      destruct (Z.ltb_spec v u); [split; [lia|intros [= -> _]; lia]|].
      assert (u = v) as -> by lia. rewrite IH. split; [by intros ->|by intros [= ->]].
  - revert y. induction x as [|u x IH]; intros [|v y].
    + done.
    + rewrite arrayCmp_nil_l, arrayCmp_nil_r. simpl. lia.
    + rewrite arrayCmp_nil_l, arrayCmp_nil_r. simpl. lia.
    + rewrite !arrayCmp_cons.
      destruct (Z.ltb_spec u v), (Z.ltb_spec v u); try lia. apply IH.
  - revert y z. induction x as [|u x IH]; intros [|v y] [|w z];
      rewrite ?arrayCmp_nil_l, ?arrayCmp_nil_r, ?arrayCmp_cons; simpl; try lia.
    destruct (Z.ltb_spec u v), (Z.ltb_spec v u), (Z.ltb_spec v w), (Z.ltb_spec w v),
      (Z.ltb_spec u w), (Z.ltb_spec w u); try lia. apply IH.
Qed.

(** ** _countLeading *)

Lemma count_leading_spec ch l :
  0 ≤ count_leading ch l ≤ Z.of_nat (length l)
  ∧ (∀ i, (i < Z.to_nat (count_leading ch l))%nat → l !! i = Some ch)
  ∧ l !! Z.to_nat (count_leading ch l) ≠ Some ch.
Proof.
  induction l as [|x l (IH1 & IH2 & IH3)]; simpl.
  - split; [lia|]. split; [intros; lia|done].
  - destruct (bool_decide (x = ch)) eqn:E.
    + apply bool_decide_eq_true in E. subst x. split; [lia|]. split.
      * intros [|i] Hi; [done|]. simpl. apply IH2. lia.
      * replace (Z.to_nat (1 + count_leading ch l))
          with (S (Z.to_nat (count_leading ch l))) by lia. done.
    + apply bool_decide_eq_false in E. split; [lia|]. split; [intros; lia|].
      simpl. congruence.
Qed.

(** X21: [_countLeading(line, ch)] is the length of the longest prefix of
    [line] that consists of the character [ch]: it lies between 0 and the
    length of the line, every character before it is [ch], and the
    character at it, if there is one, is not. *)
Theorem countLeading_spec line ch :
  let r := _countLeading line ch in
  0 ≤ r ≤ len (Str line)
  ∧ (∀ i, 0 ≤ i < r → at_ (Str line) i = Some ch)
  ∧ at_ (Str line) r ≠ Some ch.
Proof.
  unfold _countLeading, len, at_. simpl.
  destruct (count_leading_spec ch (chars line)) as (H1 & H2 & H3).
  split; [done|]. split.
  - intros i Hi. destruct (decide (0 ≤ i)); [|lia]. apply H2. lia.
  - destruct (decide _); [done|lia].
Qed.

(** ** IS_LINE_JUNK *)

Lemma skip_spaces_spec l :
  ∃ u, l = u ++ skip_spaces l ∧ forallb is_space u = true
       ∧ match skip_spaces l with c :: _ => is_space c = false | [] => True end.
Proof.
  induction l as [|c l (u & Hl & Hu & Hr)]; simpl.
  - by exists [].
  - destruct (is_space c) eqn:E.
    + exists (c :: u). simpl. rewrite E, Hu. split; [by f_equal|done].
    + exists []. simpl. by rewrite E.
Qed.

Lemma skip_spaces_app u l :
  forallb is_space u = true → skip_spaces (u ++ l) = skip_spaces l.
Proof.
  induction u as [|c u IH]; simpl; [done|]. intros H.
  apply andb_prop in H as [-> H]. by apply IH.
Qed.

Lemma skip_spaces_all v : forallb is_space v = true → skip_spaces v = [].
Proof.
  induction v as [|c v IH]; simpl; [done|]. intros H.
  apply andb_prop in H as [-> H]. by apply IH.
Qed.

(** X22: [IS_LINE_JUNK(line)] holds exactly when [line] is white space around
    at most one [#]. *)
Theorem IS_LINE_JUNK_spec line :
  IS_LINE_JUNK line = true
  ↔ ∃ u v, forallb is_space u = true ∧ forallb is_space v = true
      ∧ (list_ascii_of_string line = u ++ v
         ∨ list_ascii_of_string line = u ++ "#"%char :: v).
Proof.
  unfold IS_LINE_JUNK. generalize (list_ascii_of_string line). clear line. intros l.
  destruct (skip_spaces_spec l) as (u & Hl & Hu & Hr). split.
  - intros H. destruct (skip_spaces l) as [|c rest] eqn:E.
    + exists u, []. split; [done|]. split; [done|]. left. done.
    + destruct (bool_decide (c = "#"%char)) eqn:Ec.
      * apply bool_decide_eq_true in Ec. subst c. exists u, rest.
        split; [done|]. split; [done|]. by right.
      * simpl in H. rewrite Hr in H. done.
  - intros (u' & v & Hu' & Hv & [Heq|Heq]); rewrite Heq.
    + rewrite skip_spaces_app, skip_spaces_all by done. done.
    + rewrite skip_spaces_app by done. simpl. by rewrite Hv.
Qed.

(** ** The lines of a delta *)

Lemma dump_delta tag X lo hi :
  tag ∈ [" "; "-"; "+"] → Forall delta_line (_dump tag X lo hi).
Proof.
  intros Ht. unfold _dump. apply Forall_fmap, Forall_forall. intros i _.
  unfold delta_line. simpl.
  repeat (apply elem_of_cons in Ht as [Ht|Ht]; [subst tag; simpl; set_solver|]).
  by apply elem_of_nil in Ht.
Qed.

Lemma qformat_delta aline bline atags btags :
  Forall delta_line (_qformat aline bline atags btags).
Proof.
  unfold _qformat.
  repeat match goal with |- context [bool_decide ?P] => destruct (bool_decide P) end;
    simpl; repeat constructor; unfold delta_line; simpl; set_solver.
Qed.

Lemma plainReplace_delta A alo ahi B blo bhi lines :
  _plainReplace A alo ahi B blo bhi = Ok lines → Forall delta_line lines.
Proof.
  unfold _plainReplace. destruct (negb _); [done|].
  destruct (_ <? _); intros [= <-]; apply Forall_app; split; apply dump_delta; set_solver.
Qed.

Lemma fancyHelper_delta rec A alo ahi B blo bhi lines :
  (∀ alo ahi blo bhi lines,
     rec A alo ahi B blo bhi = Ok lines → Forall delta_line lines) →
  _fancyHelper_with rec A alo ahi B blo bhi = Ok lines → Forall delta_line lines.
Proof.
  intros Hrec. unfold _fancyHelper_with.
  destruct (alo <? ahi), (blo <? bhi).
  - apply Hrec.
  - intros [= <-]. apply dump_delta. set_solver.
  - intros [= <-]. apply dump_delta. set_solver.
  - by intros [= <-].
Qed.

Lemma fancyReplace_delta fuel d A B alo ahi blo bhi lines :
  _fancyReplace fuel d A alo ahi B blo bhi = Ok lines → Forall delta_line lines.
Proof.
  revert alo ahi blo bhi lines.
  induction fuel as [|fuel IH]; intros alo ahi blo bhi lines; [done|].
  cbn [_fancyReplace].
  destruct (foldlM _ _ _) as [st|e]; [|done]. cbn [mbind result_bind].
  set (synch := if Qlt_bool _ _ then _ else _). clearbody synch.
  destruct synch as [[[besti bestj] identical]|].
  - destruct (_fancyHelper_with _ A alo besti B blo bestj) as [before|e] eqn:Eb; [|done].
    apply fancyHelper_delta in Eb; [|intros; by eapply IH].
    cbn [mbind result_bind].
    set (mid := if identical then _ else _).
    assert (Hmid : ∀ middle, mid = Ok middle → Forall delta_line middle).
    { intros middle. unfold mid. destruct identical.
      - intros [= <-]. repeat constructor.
      - destruct (getOpcodes _) as [[codes c]|e]; [|done]. cbn [mbind result_bind].
        destruct (foldl tags_step _ codes) as [atags btags]. intros [= <-].
        apply qformat_delta. }
    clearbody mid. destruct mid as [middle|e]; [|done]. cbn [mbind result_bind].
    destruct (_fancyHelper_with _ A (besti + 1) ahi B (bestj + 1) bhi)
      as [after|e] eqn:Ea; [|done].
    apply fancyHelper_delta in Ea; [|intros; by eapply IH].
    cbn [mbind result_bind]. intros [= <-].
    rewrite !Forall_app. split; [done|]. split; [by apply Hmid|done].
  - destruct (Qlt_bool _ _); [|done]. apply plainReplace_delta.
Qed.

Lemma compare_fold_delta d A B codes acc lines :
  foldlM (compare_step d A B) acc codes = Ok lines →
  Forall delta_line acc → Forall delta_line lines.
Proof.
  revert acc. induction codes as [|[[[[tag alo] ahi] blo] bhi] codes IH]; intros acc; simpl.
  - by intros [= <-].
  - set (r := match tag with replace_ => _ | _ => _ end).
    assert (Hr : ∀ g, r = Ok g → Forall delta_line g).
    { intros g. unfold r. destruct tag.
      - apply fancyReplace_delta.
      - intros [= <-]. apply dump_delta. set_solver.
      - intros [= <-]. apply dump_delta. set_solver.
      - intros [= <-]. apply dump_delta. set_solver. }
    clearbody r. destruct r as [g|e]; [|done]. cbn [mbind result_bind].
    intros Hfold Hacc. apply (IH _ Hfold). apply Forall_app. split; [done|by apply Hr].
Qed.

(** ** findLongestMatch on a new matcher *)

Lemma new_SequenceMatcher_keys junk A B auto x :
  B ≠ Str "" →
  indexed_key (new_SequenceMatcher junk (Some A) (Some B) auto) x
  ↔ good_elt junk (default true auto) B x.
Proof.
  intros HB. set (m := new_SequenceMatcher junk (Some A) (Some B) auto).
  destruct (new_SequenceMatcher_spec junk A B auto) as (_ & Hb & _ & _ & Hidx).
  destruct (new_SequenceMatcher_fields junk (Some A) (Some B) auto) as [Hj Ha].
  fold m in Hb, Hidx, Hj, Ha. destruct (Hidx HB) as (E1 & _ & _).
  destruct (chainB_spec m) as (t & junkset & popular & H1 & _ & _ & _ & _ & Ht).
  rewrite Hb, Hj, Ha in Ht. unfold indexed_key, good_elt. rewrite E1, H1. split.
  - intros (t' & [= <-] & Hx). apply elem_of_dom in Hx as [l Hl]. rewrite Ht in Hl.
    by destruct (decide _).
  - intros Hx. exists t. split; [done|]. apply elem_of_dom. rewrite Ht.
    by rewrite decide_True.
Qed.

(** X2: on a new matcher whose second sequence is not the empty string, and
    for a window inside the two sequences, [findLongestMatch] returns a
    triple [(i, j, k)] that lies in the window with
    [a[i..i+k] == b[j..j+k]], and that is at least as long as every run
    of the window that consists of equal elements neither junk nor
    popular. *)
Theorem findLongestMatch_sound junk A B auto alo ahi blo bhi :
  B ≠ Str "" →
  0 ≤ alo ∧ alo ≤ ahi ∧ ahi ≤ len A → 0 ≤ blo ∧ blo ≤ bhi ∧ bhi ≤ len B →
  ∃ i j k,
    findLongestMatch (new_SequenceMatcher junk (Some A) (Some B) auto) alo ahi blo bhi
    = Ok (i, j, k)
    ∧ block A B alo ahi blo bhi (i, j, k)
    ∧ ∀ i' j' k',
        cand A B (good_elt junk (default true auto) B) alo ahi blo bhi i' j' k' → k' ≤ k.
Proof.
  intros HB Hwa Hwb. set (m := new_SequenceMatcher junk (Some A) (Some B) auto).
  destruct (new_SequenceMatcher_spec junk A B auto) as (Ha & Hb & _ & _ & Hidx).
  fold m in Ha, Hb, Hidx.
  destruct (findLongestMatch_indexed m alo ahi blo bhi (Hidx HB)) as (core & Hsel & Hf).
  { unfold valid_window. rewrite Ha, Hb. lia. }
  rewrite Ha, Hb in Hsel, Hf.
  set (x := grow _ A B alo ahi blo bhi (grow _ A B alo ahi blo bhi core)) in Hf.
  assert (Hsize : core.2 ≤ x.2).
  { unfold x. etrans; [|apply grow_size]. apply grow_size. }
  assert (Hblock : block A B alo ahi blo bhi x).
  { unfold x. do 2 apply grow_block. destruct core as [[ci cj] ck].
    destruct Hsel as [Hc _]. by eapply cand_block. }
  clearbody x. destruct x as [[i j] k]. exists i, j, k.
  split; [done|]. split; [done|].
  intros i' j' k' Hc. destruct core as [[ci cj] ck]. destruct Hsel as [_ Hmax].
  simpl in Hsize. etrans; [|exact Hsize]. apply (Hmax i' j' k').
  revert Hc. apply cand_ext. intros y _.
  by apply new_SequenceMatcher_keys.
Qed.

Lemma findLongestMatch_sound_witness :
  let A := Str " abcd" in
  let B := Str "abcd abcd" in
  ∃ i j k,
    findLongestMatch (new_SequenceMatcher (Some isSpace) (Some A) (Some B) None) 0 5 0 9
    = Ok (i, j, k)
    ∧ block A B 0 5 0 9 (i, j, k)
    ∧ ∀ i' j' k',
        cand A B (good_elt (Some isSpace) true B) 0 5 0 9 i' j' k' → k' ≤ k.
Proof.
  intros A B.
  apply (findLongestMatch_sound (Some isSpace) A B None 0 5 0 9).
  - discriminate.
  - vm_compute. intuition discriminate.
  - vm_compute. intuition discriminate.
Defined.

(** ** contextDiff *)

Lemma any_fmap {T} (f : T → bool) l : _any (f <$> l) = existsb f l.
Proof. unfold _any. induction l as [|x l IH]; [done|]. rewrite fmap_cons. simpl. by rewrite IH. Qed.

Lemma context_half_app mark l1 l2 b1 b2 :
  context_half mark l1 b1 → context_half mark l2 b2 →
  context_half mark (l1 ++ l2) (b1 ++ b2).
Proof.
  intros [H1 <-] [H2 <-]. split; [by apply Forall_app|]. by rewrite fmap_app.
Qed.

Lemma context_half_prefix mark tag l :
  prefix tag ∈ ["  "; "! "; mark] →
  context_half mark l ((λ line, prefix tag +:+ line) <$> l).
Proof.
  intros Hin. split.
  - apply Forall_fmap, Forall_forall. intros x _. simpl.
    by destruct tag.
  - rewrite <- list_fmap_compose. rewrite <- (list_fmap_id l) at 2.
    apply list_fmap_ext. intros _ x _. simpl. by destruct tag.
Qed.

Lemma side_lines_halves A B g i j i' j' :
  tiles i j g i' j' → Forall (wf_op A B) g → 0 ≤ i → 0 ≤ j →
  context_half "- " (slice (elems A) i i')
    (side_lines A (λ c, (c.1.1.1.2, c.1.1.2)) insert_ g)
  ∧ context_half "+ " (slice (elems B) j j')
      (side_lines B (λ c, (c.1.2, c.2)) delete_ g).
Proof.
  revert i j. induction g as [|c g IH]; intros i j Ht Hw Hi Hj.
  - destruct Ht as [-> ->]. rewrite !slice_empty. by split; split.
  - apply Forall_cons in Hw as [Hc Hw].
    destruct c as [[[[tag i1] i2] j1] j2]. destruct Ht as (-> & -> & Ht).
    destruct (tiles_wf_le A B _ _ _ _ _ Ht Hw) as [? ?].
    pose proof Hc as (?&?&?&?&?&?&Htag).
    destruct (IH i2 j2 Ht Hw) as [IH1 IH2]; [lia|lia|].
    unfold side_lines in *. rewrite !fmap_cons, !concat_cons.
    rewrite (slice_split (elems A) i i2 i'), (slice_split (elems B) j j2 j') by lia.
    split; (apply context_half_app; [|done]); unfold tag_of; cbn [fst snd].
    + destruct tag; simpl.
      * apply (context_half_prefix "- " replace_). set_solver.
      * apply (context_half_prefix "- " delete_). set_solver.
      * subst i2. rewrite slice_empty. by split.
      * apply (context_half_prefix "- " equal_). set_solver.
    + destruct tag; simpl.
      * apply (context_half_prefix "+ " replace_). set_solver.
      * subst j2. rewrite slice_empty. by split.
      * apply (context_half_prefix "+ " insert_). set_solver.
      * apply (context_half_prefix "+ " equal_). set_solver.
Qed.

Lemma context_fold_started A B fromfile tofile fromfiledate tofiledate lineterm groups lines :
  foldlM (context_step A B fromfile tofile fromfiledate tofiledate lineterm)
    (true, lines) groups = Ok (true, lines).
Proof. induction groups as [|g groups IH]; simpl; [done|exact IH]. Qed.

(** X12: for every pair of arrays of lines, [contextDiff] returns no line
    when [getGroupedOpcodes()] has no group, and otherwise the header and
    the hunk of the first group: the groups after the first leave no line
    in the output. *)
Theorem contextDiff_first_group ra la rb lb param :
  let A := Arr ra la in
  let B := Arr rb lb in
  ∃ groups m' lines,
    getGroupedOpcodes (new_SequenceMatcher None (Some A) (Some B) None) None
    = Ok (groups, m')
    ∧ contextDiff A B param = Ok lines
    ∧ match groups with
      | [] => lines = []
      | g :: _ => context_hunk A B param g lines
      end.
Proof.
  intros A B. assert (HB : B ≠ Str "") by done.
  destruct (getGroupedOpcodes_chained None A B None None HB) as (groups & m' & E & Hc);
    [simpl; lia|].
  unfold contextDiff. rewrite E. cbn [mbind result_bind].
  set (p := default (mkDiffParam None None None None None None) param).
  destruct groups as [|g groups].
  - by exists [], m', [].
  - apply Forall_cons in Hc as [(Hw & first & last_ & Hh & Hl & Ht) _].
    cbn [foldlM]. unfold context_step at 2. cbv beta iota zeta.
    destruct g as [|c g]; [done|]. injection Hh as ->. rewrite Hl.
    cbn [mbind result_bind]. rewrite context_fold_started. cbn [mbind result_bind].
    eexists _, m', _. split; [done|]. split; [done|].
    destruct (side_lines_halves A B (first :: g) _ _ _ _ Ht Hw) as [H1 H2].
    { apply Forall_cons in Hw as [Hc _]. destruct first as [[[[? ?] ?] ?] ?].
      by destruct Hc as (?&_). }
    { apply Forall_cons in Hw as [Hc _]. destruct first as [[[[? ?] ?] ?] ?].
      by destruct Hc as (_&_&_&?&_). }
    unfold context_hunk. fold p. cbv zeta.
    eexists first, last_, _, _. split; [done|]. split; [exact Hl|].
    split; [simpl; reflexivity|].
    rewrite !any_fmap. unfold has_tag. split.
    + cbn [existsb]. by destruct (_ || _).
    + cbn [existsb]. by destruct (_ || _).
Qed.


(** ** compare on every pair of sequences *)

Lemma calculateRatio_nonneg matches length :
  0 ≤ matches → 0 ≤ length → (0 <= _calculateRatio matches length)%Q.
Proof.
  intros Hm Hl. unfold _calculateRatio. destruct (Z.eqb_spec length 0) as [|Hne].
  - discriminate.
  - assert (0 < inject_Z length)%Q as Hpos by (rewrite <- (Zlt_Qlt 0); lia).
    apply Qle_shift_div_l; [done|]. rewrite Qmult_0_l, <- (Zle_Qle 0). lia.
Qed.

Lemma ratio_nonneg m :
  indexed m → cache_nonneg m →
  ∃ r m', ratio m = Ok (r, m') ∧ indexed m' ∧ cache_nonneg m'
          ∧ b m' = b m ∧ (0 <= r)%Q.
Proof.
  intros Hidx Hc. unfold ratio.
  assert (0 ≤ len (a m) + len (b m)) as Hlen by (unfold len; lia).
  destruct (matchingBlocks m) as [blocks|] eqn:E.
  - unfold getMatchingBlocks. rewrite E. cbn [mbind result_bind].
    eexists _, m. split; [done|]. do 3 (split; [done|]).
    apply calculateRatio_nonneg; [|done]. by apply Hc.
  - destruct (getMatchingBlocks_indexed m Hidx E) as (body & Hget & Ht).
    simpl in Hget. rewrite Hget. cbn [mbind result_bind].
    apply tidy_matches in Ht. eexists _, _. split; [done|].
    split; [by apply indexed_with_matchingBlocks|]. split; [|split; [done|]].
    + intros blocks [= <-]. apply Ht.
    + apply calculateRatio_nonneg; [|done].
      fold (matches_of (body ++ [(len (a m), len (b m), 0)])). apply Ht.
Qed.

Lemma setSeq1_cache m x : cache_nonneg m → cache_nonneg (setSeq1 m x).
Proof. unfold setSeq1. destruct (strict_eq x (a m)); [done|]. by intros _ blocks. Qed.

Lemma setSeq1_a m x : elems (a (setSeq1 m (Str x))) = chars x.
Proof.
  unfold setSeq1. destruct (strict_eq (Str x) (a m)) eqn:E; [|done].
  destruct (a m) as [s|? ?]; [|done]. simpl in E. apply bool_decide_eq_true in E.
  by subst s.
Qed.

Lemma setSeq2_b m x : b (setSeq2 m (Str x)) = Str x.
Proof.
  unfold setSeq2. destruct (strict_eq (Str x) (b m)) eqn:E.
  - destruct (b m) as [s|? ?]; [|done]. simpl in E. apply bool_decide_eq_true in E.
    by subst s.
  - by destruct (chainB_fields (with_fullbcount
      (with_opcodes (with_matchingBlocks (with_b m (Str x)) None) None) None))
      as (_ & -> & _).
Qed.

Lemma setSeq2_cache m x : cache_nonneg m → cache_nonneg (setSeq2 m x).
Proof.
  unfold setSeq2. destruct (strict_eq x (b m)); [done|]. intros _ blocks.
  by destruct (chainB_fields (with_fullbcount
      (with_opcodes (with_matchingBlocks (with_b m x) None) None) None))
      as (_ & _ & -> & _).
Qed.

Lemma chars_length s : s ≠ "" → 0 < Z.of_nat (length (chars s)).
Proof.
  intros Hne. destruct (chars s) eqn:E; [|simpl; lia].
  by apply chars_nil in E.
Qed.

Lemma realQuickRatio_empty m :
  len (b m) = 0 → 0 < len (a m) → (realQuickRatio m <= 0)%Q.
Proof.
  intros Hb Ha. unfold realQuickRatio, _calculateRatio. rewrite Hb.
  destruct (Z.eqb_spec (len (a m) + 0) 0); [lia|].
  rewrite Z.min_r by lia. by vm_compute.
Qed.

Lemma search_step_gen A B alo ahi blo bhi j bj st i :
  0 ≤ alo ∧ ahi ≤ len A →
  b (cruncher st) = Str bj → (bj ≠ "" → indexed (cruncher st)) →
  searching A B alo ahi blo bhi st →
  alo ≤ i < ahi → blo ≤ j < bhi → at_ B j = Some bj →
  ∃ st2, search_step A j bj st i = Ok st2
         ∧ b (cruncher st2) = Str bj ∧ (bj ≠ "" → indexed (cruncher st2))
         ∧ searching A B alo ahi blo bhi st2.
Proof.
  intros Ha Hb Hidx [[H1 H2 H3] Hr Hcache Hbest] Hi Hj Hbj. unfold search_step.
  destruct (at_Some A i) as [ai Hai]; [lia|]. rewrite Hai.
  destruct (bool_decide (ai = bj)) eqn:E.
  { apply bool_decide_eq_true in E. subst ai.
    eexists. split; [done|]. split; [done|]. split; [done|].
    split; simpl; [|done..]. split; simpl; [done| |done].
    intros i2 j2. destruct (eqij st) as [[ei ej]|] eqn:Ee.
    - intros [= <- <-]. by apply H2.
    - intros [= <- <-]. split_and!; try lia. congruence. }
  apply bool_decide_eq_false in E.
  set (c := setSeq1 (cruncher st) (Str ai)).
  assert (Hcb : b c = Str bj).
  { unfold c, setSeq1. by destruct (strict_eq _ _). }
  assert (Hcc : cache_nonneg c) by by apply setSeq1_cache.
  assert (Hci : bj ≠ "" → indexed c) by (intros; by apply indexed_setSeq1, Hidx).
  assert (Hkeep : ∀ c', b c' = Str bj → (bj ≠ "" → indexed c') → cache_nonneg c' →
            ∃ st2, Ok (mkSearch c' (bestRatio st) (best st) (eqij st)) = Ok st2
                   ∧ b (cruncher st2) = Str bj ∧ (bj ≠ "" → indexed (cruncher st2))
                   ∧ searching A B alo ahi blo bhi st2).
  { intros c' ? ? ?. eexists. split; [done|]. split; [done|]. split; [done|].
    by split. }
  destruct (Qlt_bool (bestRatio st) (realQuickRatio c)) eqn:Eq; [|by apply Hkeep].
  assert (bj ≠ "") as Hne.
  { intros ->. unfold Qlt_bool in Eq. apply negb_true_iff in Eq.
    assert (Qle_bool (realQuickRatio c) (bestRatio st) = true) as Hle; [|congruence].
    apply Qle_bool_iff. eapply Qle_trans; [|exact Hr]. apply realQuickRatio_empty.
    - by rewrite Hcb.
    - unfold len, c. rewrite setSeq1_a. apply chars_length. congruence. }
  specialize (Hci Hne).
  pose proof (indexed_quickRatio c Hci) as Hq.
  assert (b (quickRatio c).2 = Str bj) as Hqb by done.
  assert (cache_nonneg (quickRatio c).2) as Hqc by done.
  destruct (quickRatio c) as [q c1]. cbn [snd] in Hq, Hqb, Hqc.
  destruct (Qlt_bool (bestRatio st) q); [|by apply Hkeep].
  destruct (ratio_nonneg c1 Hq Hqc) as (r & c2 & -> & Hc2 & Hc2c & Hc2b & _).
  cbn [mbind result_bind]. rewrite Hqb in Hc2b.
  destruct (Qlt_bool (bestRatio st) r); [|by apply Hkeep].
  destruct (ratio_nonneg c2 Hc2 Hc2c) as (r2 & c3 & -> & Hc3 & Hc3c & Hc3b & Hr2).
  cbn [mbind result_bind]. rewrite Hc2b in Hc3b.
  eexists. split; [done|]. split; [done|]. split; [done|].
  split; simpl; [|done|done|].
  - split; simpl; [|done|done]. intros i2 j2 [= <- <-]. lia.
  - intros i2 j2 [= <- <-]. rewrite Hbj. congruence.
Qed.

Lemma search_row_gen A B alo ahi blo bhi st j :
  0 ≤ alo ∧ ahi ≤ len A → 0 ≤ blo ∧ bhi ≤ len B →
  indexed (cruncher st) ∨ b (cruncher st) = Str "" →
  searching A B alo ahi blo bhi st → alo ≤ ahi → blo ≤ j < bhi →
  ∃ st2, search_row A B alo ahi st j = Ok st2
         ∧ (indexed (cruncher st2) ∨ b (cruncher st2) = Str "")
         ∧ searching A B alo ahi blo bhi st2.
Proof.
  intros Ha Hb Hready Hs Hle Hj. unfold search_row.
  destruct (at_Some B j) as [bj Hbj]; [lia|]. rewrite Hbj.
  set (c := setSeq2 (cruncher st) (Str bj)).
  assert (Hcb : b c = Str bj) by apply setSeq2_b.
  assert (Hci : bj ≠ "" → indexed c).
  { intros Hne. apply indexed_setSeq2. destruct Hready as [?|Hbe]; [by left|right].
    rewrite Hbe. simpl. by apply bool_decide_eq_false. }
  assert (Hcc : cache_nonneg c) by (apply setSeq2_cache; by destruct Hs).
  unfold for_range. destruct (Z.leb_spec alo ahi); [|lia].
  destruct (foldlM_inv (search_step A j bj)
              (λ st2, b (cruncher st2) = Str bj ∧ (bj ≠ "" → indexed (cruncher st2))
                      ∧ searching A B alo ahi blo bhi st2)
              (λ i, alo ≤ i < ahi) (seqZ alo (ahi - alo))
              (mkSearch c (bestRatio st) (best st) (eqij st)))
    as (st2 & -> & H1 & H2 & H3).
  - intros st2 i (?&?&?) ?. by eapply search_step_gen.
  - apply Forall_seqZ. lia.
  - split; [done|]. split; [done|]. destruct Hs as [[? ? ?] ? ? ?]. by split.
  - exists st2. split; [done|]. split; [|done].
    destruct (decide (bj = "")) as [->|Hne]; [by right|left; by apply H2].
Qed.

Lemma search_gen_all A B alo ahi blo bhi cj :
  0 ≤ alo ∧ ahi ≤ len A → 0 ≤ blo ∧ bhi ≤ len B → alo ≤ ahi → blo < bhi →
  ∃ st, foldlM (search_row A B alo ahi)
          (mkSearch (new_SequenceMatcher cj None None None) (74 # 100)%Q None None)
          (for_range blo bhi) = Ok st
        ∧ (indexed (cruncher st) ∨ b (cruncher st) = Str "")
        ∧ searching A B alo ahi blo bhi st.
Proof.
  intros Ha Hb Hle Hlt. unfold for_range. destruct (Z.leb_spec blo bhi); [|lia].
  apply (foldlM_inv _
           (λ st2, (indexed (cruncher st2) ∨ b (cruncher st2) = Str "")
                   ∧ searching A B alo ahi blo bhi st2)
           (λ j, blo ≤ j < bhi)).
  - intros st2 j [? ?] ?. by apply search_row_gen.
  - apply Forall_seqZ. lia.
  - split; [by right|]. split; simpl; [by split|done|done|done].
Qed.

Lemma fancyReplace_sides_gen d A B fuel alo ahi blo bhi :
  0 ≤ alo → alo < ahi → ahi ≤ len A → 0 ≤ blo → blo < bhi → bhi ≤ len B →
  ahi - alo + (bhi - blo) ≤ Z.of_nat fuel →
  sides A B alo ahi blo bhi (_fancyReplace fuel d A alo ahi B blo bhi).
Proof.
  revert alo ahi blo bhi.
  induction fuel as [|fuel IH]; intros alo ahi blo bhi Ha0 Ha1 Ha2 Hb0 Hb1 Hb2 Hsz;
    [lia|].
  cbn [_fancyReplace].
  destruct (search_gen_all A B alo ahi blo bhi (charjunk d))
    as (st & -> & Hready & [[Hbest Heq Hratio] _ _ Hbne]); [lia..|].
  cbn [mbind result_bind].
  set (synch := if Qlt_bool (bestRatio st) (75 # 100)%Q
                then match eqij st with None => None | Some e => Some (e, true) end
                else match best st with None => None | Some p => Some (p, false) end).
  assert (Hsynch :
    match synch with
    | None => Qlt_bool (bestRatio st) (75 # 100)%Q = true
    | Some ((besti, bestj), identical) =>
        alo ≤ besti < ahi ∧ blo ≤ bestj < bhi
        ∧ (identical = true → at_ A besti = at_ B bestj)
        ∧ (identical = false → best st = Some (besti, bestj))
    end).
  { subst synch. destruct (Qlt_bool (bestRatio st) (75 # 100)%Q) eqn:E.
    - destruct (eqij st) as [[ei ej]|] eqn:Ee; [|done].
      destruct (Heq _ _ eq_refl) as (?&?&?). done.
    - destruct (best st) as [[bi bj]|] eqn:Eb.
      + destruct (Hbest _ _ eq_refl). done.
      + rewrite (Hratio eq_refl) in E. done. }
  destruct synch as [[[besti bestj] identical]|].
  2:{ rewrite Hsynch. by apply plainReplace_sides. }
  destruct Hsynch as (Hi & Hj & Hid & Hnid).
  destruct (fancyHelper_sides A B (_fancyReplace fuel d) alo besti blo bestj)
    as (before & -> & Hb1' & Hb2'); try lia.
  { intros. apply IH; lia. }
  cbn [mbind result_bind].
  destruct (at_Some A besti) as [aelt Haelt]; [lia|].
  destruct (at_Some B bestj) as [belt Hbelt]; [lia|].
  rewrite Haelt, Hbelt. cbn [key_of default from_option id].
  assert (Hmid : sides A B besti (besti + 1) bestj (bestj + 1)
            (if identical then Ok ["  " +:+ aelt]
             else
               getOpcodes (setSeqs (cruncher st) (Str aelt) (Str belt))
               ≫= λ '(codes, _),
                    let '(atags, btags) := foldl tags_step ("", "") codes in
                    Ok (_qformat aelt belt atags btags))).
  { destruct identical.
    - eexists. split; [done|]. rewrite (slice_one A besti aelt) by done.
      rewrite (slice_one B bestj belt) by done.
      specialize (Hid eq_refl). assert (aelt = belt) as -> by congruence. done.
    - destruct (getOpcodes_ok (setSeqs (cruncher st) (Str aelt) (Str belt)))
        as (codes & c2 & -> & _).
      { apply indexed_setSeq2. destruct Hready as [Hidx|Hbe].
        - left. by apply indexed_setSeq1.
        - right. unfold setSeq1. 
          assert (belt ≠ "") as Hne.
          { intros ->. by apply (Hbne besti bestj (Hnid eq_refl)). }
          destruct (strict_eq (Str aelt) _); rewrite ?Hbe; simpl; rewrite ?Hbe;
            by apply bool_decide_eq_false. }
      cbn [mbind result_bind].
      destruct (foldl tags_step ("", "") codes) as [atags btags].
      eexists. split; [done|].
      rewrite side1_qformat, side2_qformat.
      by rewrite (slice_one A besti aelt), (slice_one B bestj belt). }
  destruct Hmid as (middle & -> & Hm1 & Hm2). cbn [mbind result_bind].
  destruct (fancyHelper_sides A B (_fancyReplace fuel d) (besti + 1) ahi (bestj + 1) bhi)
    as (after & -> & Ha1' & Ha2'); try lia.
  { intros. apply IH; lia. }
  cbn [mbind result_bind]. eexists. split; [done|].
  rewrite !side1_app, !side2_app, Hb1', Hb2', Hm1, Hm2, Ha1', Ha2'.
  rewrite <- !slice_split by lia. done.
Qed.

Lemma compare_fold_gen d A B codes i j acc :
  tiles i j codes (len A) (len B) → Forall op_shape codes →
  (∀ i1 i2 j1 j2, (equal_, i1, i2, j1, j2) ∈ codes →
     whole_block A B (i1, j1, i2 - i1)) →
  0 ≤ i → 0 ≤ j →
  ∃ lines, foldlM (compare_step d A B) acc codes = Ok (acc ++ lines)
           ∧ side1 lines = slice (elems A) i (len A)
           ∧ side2 lines = slice (elems B) j (len B).
Proof.
  revert i j acc.
  induction codes as [|[[[[tag alo] ahi] blo] bhi] codes IH]; intros i j acc; simpl.
  - intros [-> ->] _ _ _ _. exists []. rewrite app_nil_r, !slice_empty. done.
  - intros (Hi1 & Hj1 & Ht) Hs Heq Hi Hj. subst i j.
    apply Forall_cons in Hs as [Hs Hs'].
    destruct (tiles_le _ _ _ _ _ Ht Hs') as [Hahi Hbhi].
    assert (Hg : sides A B alo ahi blo bhi
              (match tag with
               | replace_ =>
                   _fancyReplace (Z.to_nat (ahi - alo + (bhi - blo))) d A alo ahi B blo bhi
               | delete_ => Ok (_dump "-" A alo ahi)
               | insert_ => Ok (_dump "+" B blo bhi)
               | equal_ => Ok (_dump " " A alo ahi)
               end)).
    { destruct tag; simpl in Hs.
      - apply fancyReplace_sides_gen; lia.
      - destruct Hs as [? ->]. eexists. split; [done|].
        rewrite side1_dump_minus, side2_dump_minus by lia. by rewrite slice_empty.
      - destruct Hs as [-> ?]. eexists. split; [done|].
        rewrite side1_dump_plus, side2_dump_plus by lia. by rewrite slice_empty.
      - destruct Hs as [? Hlen]. eexists. split; [done|].
        rewrite side1_dump_space, side2_dump_space by lia. split; [done|].
        pose proof (Heq alo ahi blo bhi ltac:(left)) as Hw.
        apply whole_block_slice in Hw.
        replace (alo + (ahi - alo)) with ahi in Hw by lia.
        replace (blo + (ahi - alo)) with bhi in Hw by lia. done. }
    destruct Hg as (g & -> & Hg1 & Hg2). cbn [mbind result_bind].
    destruct (IH ahi bhi (acc ++ g) Ht Hs') as (lines & -> & Hl1 & Hl2).
    + intros i1 i2 j1 j2 Hin. apply (Heq i1 i2 j1 j2). by right.
    + destruct tag; simpl in Hs; lia.
    + destruct tag; simpl in Hs; lia.
    + exists (g ++ lines). rewrite app_assoc. split; [done|].
      rewrite side1_app, side2_app, Hg1, Hg2, Hl1, Hl2.
      rewrite <- !slice_split; [done|destruct tag; simpl in Hs; lia..].
Qed.

(** X14: for every [Differ] (every [linejunk] and [charjunk]) and all
    sequences [A] and [B], [B] not the empty string, [compare] returns a
    delta each line of which begins with one of the markers ["  "],
    ["- "], ["+ "] and ["? "], and from which [restore] gives back the
    elements of [A] and those of [B]; empty lines are allowed. *)
Theorem compare_delta d A B :
  B ≠ Str "" →
  ∃ delta,
    compare d A B = Ok delta
    ∧ Forall delta_line delta
    ∧ restore delta 1 = Ok (elems A) ∧ restore delta 2 = Ok (elems B).
Proof.
  intros HB. unfold compare.
  destruct (new_SequenceMatcher_spec (linejunk d) A B None) as (Ha & Hb & Hmb & Hop & Hidx).
  destruct (getOpcodes_indexed _ (Hidx HB) Hmb Hop) as (codes & m' & E & [Ht Hs He _]).
  rewrite Ha, Hb in Ht, He. rewrite E. cbn [mbind result_bind].
  destruct (compare_fold_gen d A B codes 0 0 [] Ht Hs He) as (lines & Hc & H1 & H2);
    [done..|].
  exists lines. simpl in Hc. split; [done|]. split.
  - by apply (compare_fold_delta _ _ _ _ _ _ Hc).
  - rewrite restore_1, restore_2. fold (side1 lines). fold (side2 lines).
    rewrite H1, H2. unfold len. by rewrite !slice_all.
Qed.

Lemma compare_delta_witness :
  let A := ["private Thread currentThread;"; ""] in
  let B := [""; "private volatile Thread currentThread;"; "x"] in
  ∃ delta,
    compare (mkDiffer (Some IS_LINE_JUNK) (Some isSpace)) (Arr 1 A) (Arr 2 B) = Ok delta
    ∧ Forall delta_line delta
    ∧ restore delta 1 = Ok A ∧ restore delta 2 = Ok B.
Proof.
  intros A B.
  apply (compare_delta (mkDiffer (Some IS_LINE_JUNK) (Some isSpace)) (Arr 1 A) (Arr 2 B)).
  discriminate.
Defined.

(** ** The ratios of a new matcher *)

(** X16: on every new matcher, whatever its arguments, the two upper bounds
    lie in [[0, 1]] and [quickRatio] is at most [realQuickRatio]; calling
    [quickRatio] does not change [realQuickRatio]. *)
Theorem upper_bounds_unit_interval junk A B auto :
  let m := new_SequenceMatcher junk A B auto in
  (0 <= (quickRatio m).1)%Q
  ∧ ((quickRatio m).1 <= realQuickRatio m)%Q
  ∧ (realQuickRatio m <= 1)%Q
  ∧ realQuickRatio (quickRatio m).2 = realQuickRatio m.
Proof.
  intros m. destruct (quickRatio_bounds junk A B auto) as [[H0 _] H1].
  destruct (realQuickRatio_bounds m) as [_ H2]. by split_and!.
Qed.

Lemma ratio_bounds_witness :
  let m := new_SequenceMatcher None (Some (Str "abcd")) (Some (Str "bcde")) None in
  Str "bcde" ≠ Str ""
  ∧ ∃ r m', ratio m = Ok (r, m') ∧ (0 <= r <= 1)%Q ∧ (r <= realQuickRatio m)%Q.
Proof.
  intros m. assert (H : Str "bcde" ≠ Str "") by discriminate.
  split; [exact H|]. exact (ratio_bounds None (Str "abcd") (Str "bcde") None H).
Defined.

Lemma ratio_ordering_witness :
  let m := new_SequenceMatcher None (Some (Arr 1 ["a"; "b"; "c"; "d"]))
             (Some (Arr 2 ["b"; "c"; "d"; "e"])) None in
  Forall (λ x, x ∉ object_prototype_keys) ["b"; "c"; "d"; "e"]
  ∧ ∃ r m', ratio m = Ok (r, m')
            ∧ (r <= (quickRatio m).1)%Q
            ∧ ((quickRatio m).1 <= realQuickRatio m)%Q
            ∧ (quickRatio m').1 = (quickRatio m).1
            ∧ realQuickRatio m' = realQuickRatio m.
Proof.
  intros m.
  assert (H : Forall (λ x, x ∉ object_prototype_keys) ["b"; "c"; "d"; "e"]).
  { apply (bool_decide_unpack _). vm_compute. exact I. }
  split; [exact H|].
  exact (ratio_ordering None 1 ["a"; "b"; "c"; "d"] 2 ["b"; "c"; "d"; "e"] None H).
Defined.

Lemma ratios_of_empty_witness :
  let m := new_SequenceMatcher None (Some (Arr 1 [])) (Some (Str "")) None in
  len (Arr 1 []) = 0 ∧ len (Str "") = 0
  ∧ (∃ m', ratio m = Ok (1%Q, m'))
  ∧ (quickRatio m).1 = 1%Q ∧ realQuickRatio m = 1%Q.
Proof.
  intros m. assert (H1 : len (Arr 1 []) = 0) by reflexivity.
  assert (H2 : len (Str "") = 0) by reflexivity.
  split; [exact H1|]. split; [exact H2|].
  exact (ratios_of_empty None (Arr 1 []) (Str "") None H1 H2).
Defined.

Lemma getCloseMatches_returns_iff_witness :
  "appel" ≠ ""
  ∧ (is_Ok (getCloseMatches "appel" ["ape"; "apple"; "peach"; "puppy"]
              (Some 3) (Some (6 # 10)%Q))
     ↔ 0 < 3 ∧ (0 <= 6 # 10 <= 1)%Q).
Proof.
  assert (H : "appel" ≠ "") by discriminate.
  split; [exact H|].
  exact (getCloseMatches_returns_iff "appel" ["ape"; "apple"; "peach"; "puppy"] 3
           (6 # 10)%Q H).
Defined.

(** ** getGroupedOpcodes and the cached opcodes *)

Lemma clip_first_cons n c rest : clip_first n (c :: rest) = clip_head n c :: rest.
Proof.
  destruct c as [[[[tag i1] i2] j1] j2]. simpl.
  by destruct (is_equal (tag, i1, i2, j1, j2)).
Qed.

Lemma clip_last_snoc n l c : clip_last n (l ++ [c]) = l ++ [clip_tail n c].
Proof.
  unfold clip_last. rewrite last_snoc, removelast_last.
  destruct c as [[[[tag i1] i2] j1] j2]. simpl.
  by destruct (is_equal (tag, i1, i2, j1, j2)).
Qed.

Lemma clip_last_one n c : clip_last n [c] = [clip_tail n c].
Proof. apply (clip_last_snoc n []). Qed.

Lemma clip_head_idem n c : clip_head n (clip_head n c) = clip_head n c.
Proof.
  destruct c as [[[[tag i1] i2] j1] j2]. unfold clip_head, is_equal.
  destruct tag; simpl; try done. repeat (apply (f_equal2 pair)); try done; lia.
Qed.

Lemma clip_tail_idem n c : clip_tail n (clip_tail n c) = clip_tail n c.
Proof.
  destruct c as [[[[tag i1] i2] j1] j2]. unfold clip_tail, is_equal.
  destruct tag; simpl; try done. repeat (apply (f_equal2 pair)); try done; lia.
Qed.

Lemma clip_head_tail n c :
  clip_head n (clip_tail n (clip_head n c)) = clip_tail n (clip_head n c).
Proof.
  destruct c as [[[[tag i1] i2] j1] j2]. unfold clip_head, clip_tail, is_equal.
  destruct tag; simpl; try done. repeat (apply (f_equal2 pair)); try done; lia.
Qed.

Lemma clip_ends_fixed n codes :
  clip_last n (clip_first n (clip_last n (clip_first n codes)))
  = clip_last n (clip_first n codes).
Proof.
  destruct codes as [|c rest]; [done|].
  destruct rest as [|z rest _] using rev_ind.
  - (* one opcode: both assignments write into it *)
    rewrite clip_first_cons, clip_last_one, clip_first_cons, clip_last_one.
    by rewrite clip_head_tail, clip_tail_idem.
  - (* the first and the last opcode are two opcodes *)
    rewrite clip_first_cons, app_comm_cons, clip_last_snoc.
    rewrite <- app_comm_cons, clip_first_cons, app_comm_cons, clip_last_snoc.
    by rewrite clip_head_idem, clip_tail_idem.
Qed.

Lemma clip_ends_cons n c rest : clip_last n (clip_first n (c :: rest)) ≠ [].
Proof.
  intros H. apply (f_equal (fmap is_equal)) in H.
  rewrite clip_last_tags, clip_first_tags in H. done.
Qed.

(** X23: on a new matcher whose second sequence is not the empty string,
    [getGroupedOpcodes(n)] overwrites the cached opcodes with the list
    whose first and last opcode it has clipped: [getOpcodes] returns that
    list afterwards, and a second [getGroupedOpcodes(n)] returns the same
    groups and leaves the matcher as it is. *)
Theorem getGroupedOpcodes_again junk A B auto n :
  B ≠ Str "" →
  let m := new_SequenceMatcher junk (Some A) (Some B) auto in
  ∃ codes m1 groups m2,
    getOpcodes m = Ok (codes, m1)
    ∧ getGroupedOpcodes m n = Ok (groups, m2)
    ∧ getOpcodes m2 = Ok (clip_ends (default 3 n) codes, m2)
    ∧ getGroupedOpcodes m2 n = Ok (groups, m2).
Proof.
  intros HB m.
  destruct (new_SequenceMatcher_spec junk A B auto) as (_ & _ & Hmb & Hop & Hidx).
  fold m in Hmb, Hop, Hidx.
  destruct (getOpcodes_indexed m (Hidx HB) Hmb Hop) as (codes & m1 & E & _).
  pose proof (getOpcodes_fields m codes m1 E) as (Hc & _).
  exists codes, m1. unfold getGroupedOpcodes. rewrite E. cbn [mbind result_bind].
  set (k := default 3 n).
  assert (getOpcodes m1 = Ok (codes, m1)) as E1 by (unfold getOpcodes; by rewrite Hc).
  destruct codes as [|c rest].
  - eexists _, m1. split; [done|]. split; [done|]. split; [done|].
    rewrite E1. done.
  - set (codes' := clip_last k (clip_first k (c :: rest))).
    assert (codes' ≠ []) as Hne by apply clip_ends_cons.
    eexists _, _. split; [done|]. split; [done|].
    assert (getOpcodes (with_opcodes m1 (Some codes'))
            = Ok (codes', with_opcodes m1 (Some codes'))) as E2 by done.
    split; [exact E2|]. rewrite E2. cbn [mbind result_bind].
    destruct codes' as [|c' rest'] eqn:Ec; [done|].
    rewrite <- Ec. unfold codes'. rewrite clip_ends_fixed. done.
Qed.

Lemma getGroupedOpcodes_again_witness :
  let m := new_SequenceMatcher None (Some nine_lines_a) (Some nine_lines_b) None in
  nine_lines_b ≠ Str ""
  ∧ ∃ codes m1 groups m2,
      getOpcodes m = Ok (codes, m1)
      ∧ getGroupedOpcodes m (Some 1) = Ok (groups, m2)
      ∧ getOpcodes m2 = Ok (clip_ends (default 3 (Some 1)) codes, m2)
      ∧ getGroupedOpcodes m2 (Some 1) = Ok (groups, m2).
Proof.
  intros m. assert (H : nine_lines_b ≠ Str "") by discriminate.
  split; [exact H|].
  exact (getGroupedOpcodes_again None nine_lines_a nine_lines_b None (Some 1) H).
Defined.
